(** * photoedit: the spectral analyzer, colour scaling and crop tool

    A shallow embedding of the JavaScript sources
      - [src/app.js]                   ([FFTAnalyzer], [PhotoEditor]),
      - [src/src/colorAdjustments.js]  ([ColorAdjustments]),
      - [src/photoedit/src/cropTool.js] ([CropTool]),
    followed by the properties the specification states about them.

    Conventions of the embedding.
      - JavaScript numbers are idealised: a finite number is a real
        ([Num r]); [NaN] is the value [undefined] turns into in arithmetic.
        Rounding to binary32/binary64 and overflow are not modelled, and
        there are no infinities: a division by zero gives [NaN].
        Results that are reals (the transforms, the magnitudes) hold up
        to rounding; of a byte that [Math.round] or [Math.floor] makes of
        such a result, the general theorems state the range, the end
        points and the order, or name the expression that yields it.
      - A canvas keeps the bytes put on it. A browser stores premultiplied
        colour: there only the alpha byte, the colour bytes of opaque
        pixels, and pixels that were themselves read from a canvas are
        sure to be read back as they were put.
      - Typed arrays live in a heap and are named by locations, so that
        in-place updates and aliasing are visible.
      - The 32-bit operators [>>], [<<], [&], [^] go through [toInt32].
      - A loop whose termination is not evident from its header runs on
        fuel; [None] stands for a call that returns nothing: a loop that
        did not finish, or an exception. *)

From Stdlib Require Import Reals Lra Lia ZArith.
From stdpp Require Import base option list strings.

Open Scope Z_scope.

(* ===================================================================== *)
(** * JavaScript numbers *)
(* ===================================================================== *)

Module JS.

Inductive num : Type :=
  | Num (r : R)
  | NaN.

Definition ofZ (z : Z) : num := Num (IZR z).

Definition lift2 (f : R → R → R) (a b : num) : num :=
  match a, b with
  | Num x, Num y => Num (f x y)
  | _, _ => NaN
  end.

Definition add : num → num → num := lift2 Rplus.
Definition sub : num → num → num := lift2 Rminus.
Definition mul : num → num → num := lift2 Rmult.

(** [a / b]. A zero divisor leaves the reals ([NaN] or an infinity in
    JavaScript); the model has the single value [NaN] for that. *)
Definition div (a b : num) : num :=
  match a, b with
  | Num x, Num y => if Req_dec_T y 0 then NaN else Num (x / y)
  | _, _ => NaN
  end.

(** [Math.cos], [Math.sin], [Math.floor], [Math.round] (half up). *)
Definition cos (a : num) : num :=
  match a with Num x => Num (Rtrigo_def.cos x) | NaN => NaN end.
Definition sin (a : num) : num :=
  match a with Num x => Num (Rtrigo_def.sin x) | NaN => NaN end.
Definition floor (a : num) : num :=
  match a with Num x => Num (IZR (Zfloor x)) | NaN => NaN end.
Definition round (a : num) : num :=
  match a with Num x => Num (IZR (Zfloor (x + / 2))) | NaN => NaN end.

(** [Math.sqrt]: [NaN] below zero. *)
Definition sqrt (a : num) : num :=
  match a with
  | Num x => if Rlt_dec x 0 then NaN else Num (R_sqrt.sqrt x)
  | NaN => NaN
  end.

(** [Math.log]: the model covers positive arguments; zero (minus infinity
    in JavaScript) and negative arguments give [NaN]. *)
Definition log (a : num) : num :=
  match a with
  | Num x => if Rlt_dec 0 x then Num (ln x) else NaN
  | NaN => NaN
  end.

(** [Math.min], [Math.max]: [NaN] if an argument is [NaN]. *)
Definition min : num → num → num := lift2 Rmin.
Definition max : num → num → num := lift2 Rmax.

(** [a > b]: false when an operand is [NaN]. *)
Definition gt (a b : num) : bool :=
  match a, b with
  | Num x, Num y => if Rlt_dec y x then true else false
  | _, _ => false
  end.

(** ** 32-bit integer operators *)

Definition toInt32 (x : Z) : Z := (x + 2 ^ 31) `mod` 2 ^ 32 - 2 ^ 31.

(** [x >> n], [x << n], [x & y], [x ^ y]. *)
Definition sar (x n : Z) : Z := Z.shiftr (toInt32 x) (n `mod` 32).
Definition shl (x n : Z) : Z := toInt32 (Z.shiftl (toInt32 x) (n `mod` 32)).
Definition band (x y : Z) : Z := Z.land (toInt32 x) (toInt32 y).
Definition bxor (x y : Z) : Z := Z.lxor (toInt32 x) (toInt32 y).

(** ** Loops *)

(** [while (cond) body], on fuel. *)
Fixpoint while {S : Type} (fuel : nat) (cond : S → bool)
    (body : S → option S) (s : S) : option S :=
  match fuel with
  | O => None
  | Datatypes.S fuel' =>
      if cond s then body s ≫= while fuel' cond body else Some s
  end.

(** [for (let i = lo; i < hi; i++) body], where the body assigns neither
    [i] nor [hi]: [count] iterations starting at [i]. *)
Fixpoint for_loop {S : Type} (count : nat) (i : Z)
    (body : Z → S → option S) (s : S) : option S :=
  match count with
  | O => Some s
  | Datatypes.S count' => body i s ≫= for_loop count' (i + 1) body
  end.

Definition for_range {S : Type} (lo hi : Z)
    (body : Z → S → option S) (s : S) : option S :=
  for_loop (Z.to_nat (hi - lo)) lo body s.

End JS.

Import JS.

(* ===================================================================== *)
(** * The heap of Float32Arrays *)
(* ===================================================================== *)

Module Heap.

(** A location is the index of an array in the heap; arrays are never
    freed, and [alloc] appends. *)
Abbreviation loc := nat (only parsing).
Abbreviation heap := (list (list num)) (only parsing).

Definition arr (h : heap) (a : loc) : list num := default [] (h !! a).

(** [a.length] *)
Definition alen (h : heap) (a : loc) : Z := Z.of_nat (length (arr h a)).

(** [a[i]] read as a number: [undefined] outside the array, hence [NaN]. *)
Definition rd (h : heap) (a : loc) (i : Z) : num :=
  if i <? 0 then NaN else default NaN (arr h a !! Z.to_nat i).

(** [a[i] = v]: ignored outside the array. *)
Definition wr (h : heap) (a : loc) (i : Z) (v : num) : heap :=
  if i <? 0 then h else alter (λ l, <[Z.to_nat i := v]> l) a h.

Definition alloc (h : heap) (l : list num) : heap * loc :=
  (h ++ [l], length h).

(** [new Float32Array(n)] *)
Definition new_zeros (h : heap) (n : Z) : heap * loc :=
  alloc h (replicate (Z.to_nat n) (Num 0)).

(** [new Float32Array(a)]: a copy of [a]. *)
Definition new_copy (h : heap) (a : loc) : heap * loc :=
  alloc h (arr h a).

(** [a.slice(0, n)] *)
Definition slice0 (h : heap) (a : loc) (n : Z) : heap * loc :=
  alloc h (take (Z.to_nat n) (arr h a)).

(** [dst.set(src)]: the elements of [src] over the front of [dst]; a
    RangeError ([None]) when [src] is longer than [dst]. *)
Definition set_from (h : heap) (dst src : loc) : option heap :=
  let s := arr h src in
  if (length s <=? length (arr h dst))%nat
  then Some (alter (λ d, s ++ drop (length s) d) dst h)
  else None.

(** [[a[i], a[j]] = [a[j], a[i]]] *)
Definition swap (h : heap) (a : loc) (i j : Z) : heap :=
  let x := rd h a j in
  let y := rd h a i in
  wr (wr h a i x) a j y.

End Heap.

Import Heap.

(* ===================================================================== *)
(** * ImageData and the 2D canvas (browser objects) *)
(* ===================================================================== *)

Module Canvas.

(** ** Uint8ClampedArray *)

(** Round to the nearest integer, ties to even. *)
Definition round_half_even (r : R) : Z :=
  let f := Zfloor r in
  if Rlt_dec (r - IZR f) (/ 2) then f
  else if Rlt_dec (/ 2) (r - IZR f) then f + 1
  else if Z.even f then f else f + 1.

(** The conversion applied by a store into a Uint8ClampedArray. *)
Definition toUint8Clamped (v : num) : Z :=
  match v with
  | Num r => Z.max 0 (Z.min 255 (round_half_even r))
  | NaN => 0
  end.

(** [d[i]] read as a number, and [d[i] = v]. *)
Definition rd8 (d : list Z) (i : Z) : num :=
  if i <? 0 then NaN
  else match d !! Z.to_nat i with Some b => ofZ b | None => NaN end.

Definition wr8 (d : list Z) (i : Z) (v : num) : list Z :=
  if i <? 0 then d else <[Z.to_nat i := toUint8Clamped v]> d.

(** ** ImageData *)

Record ImageData : Type := mkImageData
  { width : Z; height : Z; data : list Z }.

(** The invariant the browser keeps of every ImageData. *)
Definition wf_ImageData (img : ImageData) : Prop :=
  0 < width img ∧ 0 < height img ∧
  Z.of_nat (length (data img)) = 4 * width img * height img.

(** [new ImageData(array, sw, sh)]; an exception ([None]) unless the array
    holds [4 * sw * sh] bytes, with [sw] and [sh] positive. *)
Definition new_ImageData (d : list Z) (sw sh : Z) : option ImageData :=
  if (0 <? sw) && (0 <? sh) && (Z.of_nat (length d) =? 4 * sw * sh)
  then Some (mkImageData sw sh d) else None.

(** ** The canvas and its 2D context

    A bitmap of [cwidth * cheight] RGBA pixels, row-major. Colours are kept
    as written: the loss of the premultiplied storage of a browser, which
    pixels with an alpha byte other than 0 and 255 undergo, is not
    modelled. *)
Record canvas : Type := mkCanvas
  { cwidth : Z; cheight : Z; bitmap : list Z }.

(** Channel [ch] of pixel [(x, y)]; transparent black outside the bitmap. *)
Definition channel (c : canvas) (x y ch : Z) : Z :=
  if (0 <=? x) && (x <? cwidth c) && (0 <=? y) && (y <? cheight c)
  then default 0 (bitmap c !! Z.to_nat (4 * (y * cwidth c + x) + ch))
  else 0.

(** [ctx.getImageData(sx, sy, sw, sh)]; IndexSizeError ([None]) for an
    empty rectangle; a negative extent spans to the left or upwards. *)
Definition getImageData (c : canvas) (sx sy sw sh : Z) : option ImageData :=
  if (sw =? 0) || (sh =? 0) then None else
  let x0 := Z.min sx (sx + sw) in
  let y0 := Z.min sy (sy + sh) in
  let w := Z.abs sw in
  let h := Z.abs sh in
  Some (mkImageData w h
    ((λ i, channel c (x0 + (i / 4) `mod` w) (y0 + (i / 4) / w) (i `mod` 4))
       <$> seqZ 0 (4 * w * h))).

(** [ctx.createImageData(sw, sh)]: transparent black. *)
Definition createImageData (sw sh : Z) : option ImageData :=
  if (sw =? 0) || (sh =? 0) then None else
  Some (mkImageData (Z.abs sw) (Z.abs sh)
          (replicate (Z.to_nat (4 * Z.abs sw * Z.abs sh)) 0)).

(** [ctx.putImageData(img, dx, dy)] *)
Definition putImageData (c : canvas) (img : ImageData) (dx dy : Z) : canvas :=
  mkCanvas (cwidth c) (cheight c)
    ((λ i,
        let x := (i / 4) `mod` cwidth c in
        let y := (i / 4) / cwidth c in
        if (dx <=? x) && (x <? dx + width img) &&
           (dy <=? y) && (y <? dy + height img)
        then default 0 (data img !!
               Z.to_nat (4 * ((y - dy) * width img + (x - dx)) + i `mod` 4))
        else default 0 (bitmap c !! Z.to_nat i))
       <$> seqZ 0 (4 * cwidth c * cheight c)).

(** [canvas.width = w] and [canvas.height = h]: the bitmap is cleared. *)
Definition set_width (c : canvas) (w : Z) : canvas :=
  mkCanvas w (cheight c) (replicate (Z.to_nat (4 * w * cheight c)) 0).
Definition set_height (c : canvas) (h : Z) : canvas :=
  mkCanvas (cwidth c) h (replicate (Z.to_nat (4 * cwidth c * h)) 0).

End Canvas.

Import Canvas.

(* ===================================================================== *)
(** * FFTAnalyzer (src/app.js, third document) *)
(* ===================================================================== *)

Module FFTAnalyzer.

(** [while (paddedN < N) paddedN *= 2] from [paddedN = 1]. *)
Definition paddedN_of (N : Z) : option Z :=
  while (Z.to_nat N) (λ p, p <? N) (λ p, Some (p * 2)) 1.

(** The inner loop of the bit-reversal counter:
    [for (; j & bit; bit >>= 1) j ^= bit]. *)
Definition rev_carry (j bit : Z) : option (Z * Z) :=
  while 64 (λ '(j, bit), negb (band j bit =? 0))
           (λ '(j, bit), Some (bxor j bit, sar bit 1)) (j, bit).

(** The bit-reverse permutation loop of [fft1D]. *)
Definition bit_reverse (h : heap) (real imag : loc) (len : Z) : option heap :=
  '(_, h') ← for_range 1 len (λ i '(j, h),
      '(j, bit) ← rev_carry j (sar len 1);
      let j := bxor j bit in
      let h := if i <? j then swap (swap h real i j) imag i j else h in
      Some (j, h)) (0, h);
  Some h'.

(** One butterfly, the body of the innermost loop. *)
Definition butterfly (real imag : loc) (angle : R) (halfSize i j : Z)
    (h : heap) : heap :=
  let k := i + j in
  let l := k + halfSize in
  let c := Num (Rtrigo_def.cos (angle * IZR j)) in
  let s := Num (Rtrigo_def.sin (angle * IZR j)) in
  let tReal := sub (mul (rd h real l) c) (mul (rd h imag l) s) in
  let tImag := add (mul (rd h real l) s) (mul (rd h imag l) c) in
  let h := wr h real l (sub (rd h real k) tReal) in
  let h := wr h imag l (sub (rd h imag k) tImag) in
  let h := wr h real k (add (rd h real k) tReal) in
  let h := wr h imag k (add (rd h imag k) tImag) in
  h.

(** [for (let i = 0; i < len; i += size) for (let j = 0; j < halfSize; j++)]:
    one pass over all blocks of [size] elements. [size / 2] is exact, [size]
    being 2, 4, 8, ... *)
Definition stage (real imag : loc) (len size : Z) (h : heap) : option heap :=
  let halfSize := size / 2 in
  let angle := (-2 * PI / IZR size)%R in
  '(_, h') ← while (Z.to_nat len) (λ '(i, _), i <? len) (λ '(i, h),
      h ← for_range 0 halfSize
             (λ j h, Some (butterfly real imag angle halfSize i j h)) h;
      Some (i + size, h)) (0, h);
  Some h'.

(** [for (let size = 2; size <= len; size *= 2)] *)
Definition stages (h : heap) (real imag : loc) (len : Z) : option heap :=
  '(_, h') ← while (Z.to_nat len) (λ '(size, _), size <=? len) (λ '(size, h),
      h ← stage real imag len size h;
      Some (size * 2, h)) (2, h);
  Some h'.

(** [fft1D(real, imag)]: the heap after the call and the locations of the
    two arrays of the returned object. *)
Definition fft1D (h : heap) (real imag : loc) : option (heap * (loc * loc)) :=
  let N := alen h real in
  if N <=? 1 then Some (h, (real, imag)) else
  paddedN ← paddedN_of N;
  '(h, real, imag) ←
    (if negb (paddedN =? N) then
       let '(h, paddedReal) := new_zeros h paddedN in
       let '(h, paddedImag) := new_zeros h paddedN in
       h ← set_from h paddedReal real;
       h ← set_from h paddedImag imag;
       Some (h, paddedReal, paddedImag)
     else Some (h, real, imag));
  let len := alen h real in
  h ← bit_reverse h real imag len;
  h ← stages h real imag len;
  if N =? len then Some (h, (real, imag)) else
  let '(h, real') := slice0 h real N in
  let '(h, imag') := slice0 h imag N in
  Some (h, (real', imag')).

(** [fft2D(data, width, height)]: rows, then columns. *)
Definition fft2D (h : heap) (data : loc) (width height : Z)
    : option (heap * (loc * loc)) :=
  let '(h, real) := new_zeros h (width * height) in
  let '(h, imag) := new_zeros h (width * height) in
  h ← for_range 0 (width * height) (λ i h,
         let h := wr h real i (rd h data i) in
         Some (wr h imag i (Num 0))) h;
  h ← for_range 0 height (λ y h,
         let '(h, rowReal) := new_zeros h width in
         let '(h, rowImag) := new_zeros h width in
         h ← for_range 0 width (λ x h,
                let h := wr h rowReal x (rd h real (y * width + x)) in
                Some (wr h rowImag x (rd h imag (y * width + x)))) h;
         '(h, (rowFFT_real, rowFFT_imag)) ← fft1D h rowReal rowImag;
         for_range 0 width (λ x h,
             let h := wr h real (y * width + x) (rd h rowFFT_real x) in
             Some (wr h imag (y * width + x) (rd h rowFFT_imag x))) h) h;
  h ← for_range 0 width (λ x h,
         let '(h, colReal) := new_zeros h height in
         let '(h, colImag) := new_zeros h height in
         h ← for_range 0 height (λ y h,
                let h := wr h colReal y (rd h real (y * width + x)) in
                Some (wr h colImag y (rd h imag (y * width + x)))) h;
         '(h, (colFFT_real, colFFT_imag)) ← fft1D h colReal colImag;
         for_range 0 height (λ y h,
             let h := wr h real (y * width + x) (rd h colFFT_real y) in
             Some (wr h imag (y * width + x) (rd h colFFT_imag y))) h) h;
  Some (h, (real, imag)).

(** The source index read for destination pixel [(x, y)]. [%] is applied
    to non-negative operands with a positive divisor. *)
Definition shifted_index (width height x y : Z) : Z :=
  let shiftedX := (x + width / 2) `rem` width in
  let shiftedY := (y + height / 2) `rem` height in
  shiftedY * width + shiftedX.

(** [Math.floor((Math.log(1 + m) / Math.log(1 + maxMag)) * 255)] *)
Definition intensity (m maxMag : num) : num :=
  let logMag := log (add (Num 1) m) in
  let maxLogMag := log (add (Num 1) maxMag) in
  floor (mul (div logMag maxLogMag) (Num 255)).

(** The pixel loop of [visualizeFFT(magnitude, width, height, maxMag)],
    which the source runs in the [load] handler of the FFT window; the
    result is [fftImageData], the image that handler puts on the window's
    canvas. Opening and styling the window is not modelled. *)
Definition visualizeFFT (h : heap) (magnitude : loc) (width height : Z)
    (maxMag : num) : option ImageData :=
  fftImageData ← createImageData width height;
  d ← for_range 0 height (λ y d,
         for_range 0 width (λ x d,
           let i := shifted_index width height x y in
           let originalI := y * width + x in
           let v := intensity (rd h magnitude i) maxMag in
           let d := wr8 d (originalI * 4) v in
           let d := wr8 d (originalI * 4 + 1) v in
           let d := wr8 d (originalI * 4 + 2) v in
           let d := wr8 d (originalI * 4 + 3) (Num 255) in
           Some d) d) (data fftImageData);
  Some (mkImageData (Canvas.width fftImageData) (Canvas.height fftImageData) d).

(** What [computeFFT] computes on the way to the display. *)
Record analysis : Type := mkAnalysis
  { grayscale : loc;
    fft_real : loc;
    fft_imag : loc;
    magnitude : loc;
    maxMag : num;
    fftImageData : ImageData }.

(** The grayscale loop of [computeFFT]: the new array [grayscale]. *)
Definition to_grayscale (h : heap) (imageData : ImageData)
    : option (heap * loc) :=
  let width := Canvas.width imageData in
  let height := Canvas.height imageData in
  let '(h, grayscale) := new_zeros h (width * height) in
  h ← for_range 0 (width * height) (λ i h,
         let r := rd8 (data imageData) (i * 4) in
         let g := rd8 (data imageData) (i * 4 + 1) in
         let b := rd8 (data imageData) (i * 4 + 2) in
         Some (wr h grayscale i
                 (div (add (add (mul (Num 0.299) r) (mul (Num 0.587) g))
                           (mul (Num 0.114) b))
                      (Num 255)))) h;
  Some (h, grayscale).

(** The magnitude loop of [computeFFT]: the new array [magnitude] and
    [maxMag]. *)
Definition magnitude_spectrum (h : heap) (fft_real fft_imag : loc)
    (width height : Z) : option (heap * (loc * num)) :=
  let '(h, magnitude) := new_zeros h (width * height) in
  '(h, maxMag) ← for_range 0 (width * height) (λ i '(h, maxMag),
         let real := rd h fft_real i in
         let imag := rd h fft_imag i in
         let h := wr h magnitude i (sqrt (add (mul real real) (mul imag imag))) in
         let maxMag := if gt (rd h magnitude i) maxMag
                       then rd h magnitude i else maxMag in
         Some (h, maxMag)) (h, Num 0);
  Some (h, (magnitude, maxMag)).

(** [computeFFT()] on the background canvas [bg], with the values it
    computes on the way gathered in a record. [None] is an exception in
    this computation. The window of [visualizeFFT] is not modelled (the
    pixel loop runs later, in its [load] handler, and a [window.open]
    that returns [null] ends in the [catch] branch), nor are the status
    messages. *)
Definition computeFFT (h : heap) (bg : canvas) : option (heap * analysis) :=
  imageData ← getImageData bg 0 0 (cwidth bg) (cheight bg);
  let width := Canvas.width imageData in
  let height := Canvas.height imageData in
  '(h, grayscale) ← to_grayscale h imageData;
  '(h, (fft_real, fft_imag)) ← fft2D h grayscale width height;
  '(h, (magnitude, maxMag)) ←
     magnitude_spectrum h fft_real fft_imag width height;
  vis ← visualizeFFT h magnitude width height maxMag;
  Some (h, mkAnalysis grayscale fft_real fft_imag magnitude maxMag vis).

End FFTAnalyzer.

(* ===================================================================== *)
(** * PhotoEditor (src/app.js, second document) *)
(* ===================================================================== *)

Module PhotoEditor.

(** The bit-reverse permutation loop, the same text as in
    [FFTAnalyzer.fft1D] with [N] for [len]. *)
Definition bit_reverse (h : heap) (real imag : loc) (N : Z) : option heap :=
  '(_, h') ← for_range 1 N (λ i '(j, h),
      '(j, bit) ← FFTAnalyzer.rev_carry j (sar N 1);
      let j := bxor j bit in
      let h := if i <? j then swap (swap h real i j) imag i j else h in
      Some (j, h)) (0, h);
  Some h'.

(** The body of the innermost loop: one butterfly, then the twiddle factor
    [w] advanced by [wlen]. *)
Definition butterfly (real imag : loc) (wlen_real wlen_imag : num)
    (len i j : Z) (st : num * num * heap) : num * num * heap :=
  let '(w_real, w_imag, h) := st in
  let u_real := rd h real (i + j) in
  let u_imag := rd h imag (i + j) in
  let v_real := sub (mul (rd h real (i + j + len / 2)) w_real)
                    (mul (rd h imag (i + j + len / 2)) w_imag) in
  let v_imag := add (mul (rd h real (i + j + len / 2)) w_imag)
                    (mul (rd h imag (i + j + len / 2)) w_real) in
  let h := wr h real (i + j) (add u_real v_real) in
  let h := wr h imag (i + j) (add u_imag v_imag) in
  let h := wr h real (i + j + len / 2) (sub u_real v_real) in
  let h := wr h imag (i + j + len / 2) (sub u_imag v_imag) in
  let next_w_real := sub (mul w_real wlen_real) (mul w_imag wlen_imag) in
  let w_imag := add (mul w_real wlen_imag) (mul w_imag wlen_real) in
  let w_real := next_w_real in
  (w_real, w_imag, h).

(** [for (let i = 0; i < N; i += len) { w = 1; for (j ...) ... }];
    [len / 2] is exact, [len] being even. *)
Definition stage (real imag : loc) (N len : Z) (h : heap) : option heap :=
  let angle := (-2 * PI / IZR len)%R in
  let wlen_real := Num (Rtrigo_def.cos angle) in
  let wlen_imag := Num (Rtrigo_def.sin angle) in
  '(_, h') ← while (Z.to_nat N) (λ '(i, _), i <? N) (λ '(i, h),
      '(_, _, h) ← for_range 0 (len / 2)
         (λ j st, Some (butterfly real imag wlen_real wlen_imag len i j st))
         (Num 1, Num 0, h);
      Some (i + len, h)) (0, h);
  Some h'.

(** [for (let len = 2; len <= N; len <<= 1)] *)
Definition stages (h : heap) (real imag : loc) (N : Z) : option heap :=
  '(_, h') ← while (Z.to_nat N) (λ '(len, _), len <=? N) (λ '(len, h),
      h ← stage real imag N len h;
      Some (shl len 1, h)) (2, h);
  Some h'.

Definition fft1D (h : heap) (real imag : loc) : option (heap * (loc * loc)) :=
  let N := alen h real in
  if N <=? 1 then Some (h, (real, imag)) else
  h ← bit_reverse h real imag N;
  h ← stages h real imag N;
  let '(h, real') := new_copy h real in
  let '(h, imag') := new_copy h imag in
  Some (h, (real', imag')).

(** [%] on numbers: the remainder has the sign of the dividend. *)
Definition trunc (r : R) : Z := if Rlt_dec r 0 then Zceil r else Zfloor r.
Definition rem (a b : num) : num :=
  match a, b with
  | Num x, Num y =>
      if Req_dec_T y 0 then NaN else Num (x - y * IZR (trunc (x / y)))
  | _, _ => NaN
  end.

(** [a[i]] for a number [i]: [undefined] unless [i] is an integer. *)
Definition rd_at (h : heap) (a : loc) (i : num) : num :=
  match i with
  | Num r => if Req_dec_T r (IZR (Zfloor r)) then rd h a (Zfloor r) else NaN
  | NaN => NaN
  end.

(** The source index read for destination pixel [(x, y)]: here [width / 2]
    and [height / 2] are not floored. *)
Definition shifted_index (width height x y : Z) : num :=
  let shiftedX := rem (add (ofZ x) (div (ofZ width) (Num 2))) (ofZ width) in
  let shiftedY := rem (add (ofZ y) (div (ofZ height) (Num 2))) (ofZ height) in
  add (mul shiftedY (ofZ width)) shiftedX.

(** [Math.floor(Math.log(1 + m / maxMag) * 255 / Math.log(2))] *)
Definition intensity (m maxMag : num) : num :=
  let logMag := log (add (Num 1) (div m maxMag)) in
  floor (div (mul logMag (Num 255)) (log (Num 2))).

(** The pixel loop of [visualizeFFT]. *)
Definition visualizeFFT (h : heap) (magnitude : loc) (width height : Z)
    (maxMag : num) : option ImageData :=
  fftImageData ← createImageData width height;
  d ← for_range 0 height (λ y d,
         for_range 0 width (λ x d,
           let i := shifted_index width height x y in
           let originalI := y * width + x in
           let v := intensity (rd_at h magnitude i) maxMag in
           let d := wr8 d (originalI * 4) v in
           let d := wr8 d (originalI * 4 + 1) v in
           let d := wr8 d (originalI * 4 + 2) v in
           let d := wr8 d (originalI * 4 + 3) (Num 255) in
           Some d) d) (data fftImageData);
  Some (mkImageData (Canvas.width fftImageData) (Canvas.height fftImageData) d).

(** The colour scaling of [applyColorAdjustments], the same text as in
    [ColorAdjustments.applyToImageData]: the pixel at byte offset [i]. *)
Definition scale_pixel (rScale gScale bScale : num) (i : Z) (d : list Z)
    : list Z :=
  let d := wr8 d i
    (min (Num 255) (max (Num 0) (round (mul (rd8 d i) rScale)))) in
  let d := wr8 d (i + 1)
    (min (Num 255) (max (Num 0) (round (mul (rd8 d (i + 1)) gScale)))) in
  let d := wr8 d (i + 2)
    (min (Num 255) (max (Num 0) (round (mul (rd8 d (i + 2)) bScale)))) in
  d.

(** [for (let i = 0; i < adjustedData.data.length; i += 4)] *)
Definition scale_channels (red green blue : num) (d : list Z)
    : option (list Z) :=
  let rScale := div red (Num 100) in
  let gScale := div green (Num 100) in
  let bScale := div blue (Num 100) in
  '(_, d') ← while (S (length d)) (λ '(i, d), i <? Z.of_nat (length d))
     (λ '(i, d), Some (i + 4, scale_pixel rScale gScale bScale i d)) (0, d);
  Some d'.

(** ** The colour sliders

    [this.state.colorAdjustments], and the part of the editor that the
    colour functions use: two fields of [this.state] and the background
    canvas. The display canvas, which [redrawCanvas] repaints, and the
    slider elements are not modelled. *)
Record color_adjustments : Type := mkColorAdjustments
  { red : num; green : num; blue : num }.

Record editor : Type := mkEditor
  { originalImageData : option ImageData;
    currentImageData : option ImageData;
    colorAdjustments : color_adjustments;
    bgCanvas : canvas }.

(** [applyColorAdjustments()]; [None] is an exception. *)
Definition applyColorAdjustments (e : editor) : option editor :=
  match originalImageData e with
  | None => Some e
  | Some original =>
      adjustedData ← new_ImageData (data original) (width original)
                       (height original);
      d ← scale_channels (red (colorAdjustments e))
            (green (colorAdjustments e)) (blue (colorAdjustments e))
            (data adjustedData);
      let adjustedData :=
        mkImageData (width adjustedData) (height adjustedData) d in
      let bg := putImageData (bgCanvas e) adjustedData 0 0 in
      current ← getImageData bg 0 0 (cwidth bg) (cheight bg);
      Some (mkEditor (originalImageData e) (Some current)
              (colorAdjustments e) bg)
  end.

(** [this.state.colorAdjustments[color] = numValue]; a key other than the
    three colours becomes a further property that nothing reads. *)
Definition set_color (ca : color_adjustments) (color : string)
    (numValue : num) : color_adjustments :=
  if String.eqb color "red"
  then mkColorAdjustments numValue (green ca) (blue ca)
  else if String.eqb color "green"
  then mkColorAdjustments (red ca) numValue (blue ca)
  else if String.eqb color "blue"
  then mkColorAdjustments (red ca) (green ca) numValue
  else ca.

(** [handleColorAdjustment(color, value)], where [numValue] is the number
    [parseInt(value, 10)]. *)
Definition handleColorAdjustment (e : editor) (color : string)
    (numValue : num) : option editor :=
  applyColorAdjustments
    (mkEditor (originalImageData e) (currentImageData e)
       (set_color (colorAdjustments e) color numValue) (bgCanvas e)).

End PhotoEditor.

(* ===================================================================== *)
(** * ColorAdjustments (src/src/colorAdjustments.js) *)
(* ===================================================================== *)

Module ColorAdjustments.

(** [this.adjustments]; each entry is the result of a [parseInt]. *)
Record adjustments : Type := mkAdjustments
  { red : num; green : num; blue : num }.

(** [constructor()] and [resetAdjustments()] *)
Definition initial : adjustments :=
  mkAdjustments (Num 100) (Num 100) (Num 100).

(** The body of the scaling loop: the pixel at byte offset [i]. *)
Definition scale_pixel (rScale gScale bScale : num) (i : Z) (d : list Z)
    : list Z :=
  let d := wr8 d i
    (min (Num 255) (max (Num 0) (round (mul (rd8 d i) rScale)))) in
  let d := wr8 d (i + 1)
    (min (Num 255) (max (Num 0) (round (mul (rd8 d (i + 1)) gScale)))) in
  let d := wr8 d (i + 2)
    (min (Num 255) (max (Num 0) (round (mul (rd8 d (i + 2)) bScale)))) in
  d.

(** [for (let i = 0; i < adjustedData.data.length; i += 4)] on the data of
    [adjustedData]. *)
Definition scale_channels (adj : adjustments) (d : list Z)
    : option (list Z) :=
  let rScale := div (red adj) (Num 100) in
  let gScale := div (green adj) (Num 100) in
  let bScale := div (blue adj) (Num 100) in
  '(_, d') ← while (S (length d)) (λ '(i, d), i <? Z.of_nat (length d))
     (λ '(i, d), Some (i + 4, scale_pixel rScale gScale bScale i d)) (0, d);
  Some d'.

(** [applyToImageData(originalImageData, bgCtx)]: the canvas after the
    call and the ImageData returned. *)
Definition applyToImageData (adj : adjustments)
    (originalImageData : ImageData) (bg : canvas)
    : option (canvas * ImageData) :=
  adjustedData ← new_ImageData (data originalImageData)
                   (width originalImageData) (height originalImageData);
  d ← scale_channels adj (data adjustedData);
  let adjustedData :=
    mkImageData (width adjustedData) (height adjustedData) d in
  let bg := putImageData bg adjustedData 0 0 in
  out ← getImageData bg 0 0 (width adjustedData) (height adjustedData);
  Some (bg, out).

(** [setAdjustment(color, value)], where [v] is the number
    [parseInt(value, 10)]. A key other than the three colours becomes a
    further property of [this.adjustments], which no method reads. *)
Definition setAdjustment (adj : adjustments) (color : string) (v : num)
    : adjustments :=
  if String.eqb color "red" then mkAdjustments v (green adj) (blue adj)
  else if String.eqb color "green" then mkAdjustments (red adj) v (blue adj)
  else if String.eqb color "blue" then mkAdjustments (red adj) (green adj) v
  else adj.

End ColorAdjustments.

(* ===================================================================== *)
(** * CropTool (src/photoedit/src/cropTool.js) *)
(* ===================================================================== *)

Module CropTool.

(** A position returned by [getEventPosition]: both coordinates are
    results of [Math.round]. *)
Record point : Type := mkPoint { px : Z; py : Z }.

Record rect : Type := mkRect { x : Z; y : Z; width : Z; height : Z }.

(** The fields of a [CropTool]; [None] is [null]. *)
Record crop_tool : Type := mkCropTool
  { canvas : Canvas.canvas;
    bgCanvas : Canvas.canvas;
    isCropping : bool;
    cropStart : option point;
    cropEnd : option point }.

(** A call either returns or throws an [Error] with a message. *)
Inductive outcome (A : Type) : Type :=
  | Return (a : A)
  | Throw (message : string).
Arguments Return {A} a.
Arguments Throw {A} message.

Definition isValidCropArea (t : crop_tool) : bool :=
  match cropStart t, cropEnd t with
  | Some s, Some e =>
      (5 <? Z.abs (px e - px s)) && (5 <? Z.abs (py e - py s))
  | _, _ => false
  end.

Definition getCropDimensions (t : crop_tool) : option rect :=
  if negb (isValidCropArea t) then None else
  match cropStart t, cropEnd t with
  | Some s, Some e =>
      Some (mkRect (Z.min (px s) (px e)) (Z.min (py s) (py e))
                   (Z.abs (px e - px s)) (Z.abs (py e - py s)))
  | _, _ => None
  end.

(** [applyCrop()]: the outcome and the crop tool after the call. *)
Definition applyCrop (t : crop_tool) : outcome ImageData * crop_tool :=
  if negb (isValidCropArea t)
  then (Throw "Please select a crop area first.", t) else
  match getCropDimensions t with
  | None => (Throw "TypeError", t)
  | Some (mkRect x y width height) =>
      if (width <? 10) || (height <? 10)
      then (Throw "Crop area is too small.", t) else
      match getImageData (bgCanvas t) x y width height with
      | None => (Throw "IndexSizeError", t)
      | Some croppedData =>
          let bg := set_height (set_width (bgCanvas t) width) height in
          let cv := set_height (set_width (canvas t) width) height in
          let bg := putImageData bg croppedData 0 0 in
          let t' := mkCropTool cv bg (isCropping t) None None in
          match getImageData bg 0 0 (cwidth bg) (cheight bg) with
          | None => (Throw "IndexSizeError", t')
          | Some img => (Return img, t')
          end
      end
  end.

(** ** Pointer events *)

(** [canvas.getBoundingClientRect()]: the box of the displayed canvas. *)
Record dom_rect : Type := mkDomRect
  { left : R; top : R; rwidth : R; rheight : R }.

(** An entry of [event.touches] or [event.changedTouches]. *)
Record touch : Type := mkTouch { tclientX : R; tclientY : R }.

(** What the crop tool reads of a mouse or touch event. *)
Record pointer_event : Type := mkEvent
  { type : string;
    clientX : R;
    clientY : R;
    touches : list touch;
    changedTouches : list touch }.

(** The [clientX] and [clientY] that [getEventPosition] settles on;
    [None] when [touch] is [undefined], where reading [touch.clientX]
    throws. *)
Definition client_point (event : pointer_event) : option (R * R) :=
  if String.prefix "touch" (type event) then
    match touches event, changedTouches event with
    | touch :: _, _ => Some (tclientX touch, tclientY touch)
    | [], touch :: _ => Some (tclientX touch, tclientY touch)
    | [], [] => None
    end
  else Some (clientX event, clientY event).

(** [getEventPosition(event)], with [rect] the box of the displayed
    canvas. *)
Definition getEventPosition (t : crop_tool) (rect : dom_rect)
    (event : pointer_event) : outcome (num * num) :=
  match client_point event with
  | None => Throw "TypeError"
  | Some (clientX, clientY) =>
      let relativeX :=
        div (sub (Num clientX) (Num (left rect))) (Num (rwidth rect)) in
      let relativeY :=
        div (sub (Num clientY) (Num (top rect))) (Num (rheight rect)) in
      Return (round (mul relativeX (ofZ (cwidth (bgCanvas t)))),
              round (mul relativeY (ofZ (cheight (bgCanvas t)))))
  end.

(** ** The drag handlers

    In the three handlers [pos] is the outcome of the call
    [this.getEventPosition(event)], for an event whose position is a pair
    of integers. The cursor style is not modelled. *)

Section Drawing.

(** What the drawing calls of [drawCropOverlay] ([clearRect], [drawImage],
    [strokeRect], [fillRect]) leave in the bitmap of the display canvas. *)
Variable overlay : crop_tool → list Z.

Definition drawCropOverlay (t : crop_tool) : crop_tool :=
  if negb (isValidCropArea t) then t else
  mkCropTool
    (mkCanvas (cwidth (canvas t)) (cheight (canvas t)) (overlay t))
    (bgCanvas t) (isCropping t) (cropStart t) (cropEnd t).

Definition handleCropStart (t : crop_tool) (pos : outcome point)
    : outcome unit * crop_tool :=
  let t := mkCropTool (canvas t) (bgCanvas t) true (cropStart t) (cropEnd t) in
  match pos with
  | Throw message => (Throw message, t)
  | Return p =>
      (Return (),
       mkCropTool (canvas t) (bgCanvas t) (isCropping t) (Some p) (cropEnd t))
  end.

Definition handleCropMove (t : crop_tool) (pos : outcome point)
    : outcome unit * crop_tool :=
  if negb (isCropping t) || negb (bool_decide (is_Some (cropStart t)))
  then (Return (), t) else
  match pos with
  | Throw message => (Throw message, t)
  | Return p =>
      (Return (),
       drawCropOverlay
         (mkCropTool (canvas t) (bgCanvas t) (isCropping t) (cropStart t)
            (Some p)))
  end.

(** The value returned is that of [isValidCropArea()], as a truth value;
    [None] is [undefined]. *)
Definition handleCropEnd (t : crop_tool) (pos : outcome point)
    : outcome (option bool) * crop_tool :=
  if negb (isCropping t) then (Return None, t) else
  let t := mkCropTool (canvas t) (bgCanvas t) false (cropStart t) (cropEnd t) in
  match pos with
  | Throw message => (Throw message, t)
  | Return p =>
      let t :=
        mkCropTool (canvas t) (bgCanvas t) (isCropping t) (cropStart t)
          (Some p) in
      (Return (Some (isValidCropArea t)), t)
  end.

End Drawing.

End CropTool.

(* ===================================================================== *)
(** * ImageProcessor (src/src/colorAdjustments.js, second document) *)
(* ===================================================================== *)

Module ImageProcessor.

(** [scaleCanvasView()]: the width and the height it writes, followed by
    [px], into the style of the display canvas, for a container with the
    given client size. The redraw that follows is not modelled. *)
Definition scaleCanvasView (bgCanvas : canvas)
    (clientWidth clientHeight : Z) : num * num :=
  let maxWidth := sub (ofZ clientWidth) (Num 40) in
  let maxHeight := sub (ofZ clientHeight) (Num 40) in
  let aspectRatio := div (ofZ (cwidth bgCanvas)) (ofZ (cheight bgCanvas)) in
  let newWidth := ofZ (cwidth bgCanvas) in
  let newHeight := ofZ (cheight bgCanvas) in
  let '(newWidth, newHeight) :=
    if gt newWidth maxWidth
    then (maxWidth, div maxWidth aspectRatio)
    else (newWidth, newHeight) in
  let '(newWidth, newHeight) :=
    if gt newHeight maxHeight
    then (mul maxHeight aspectRatio, maxHeight)
    else (newWidth, newHeight) in
  (newWidth, newHeight).

End ImageProcessor.

(* ===================================================================== *)
(** * The discrete Fourier transform *)
(* ===================================================================== *)

Module Fourier.

Open Scope R_scope.

(** Complex numbers as pairs, the way the program keeps them in a real and
    an imaginary array. *)
Definition C : Type := R * R.

Definition Cadd (a b : C) : C := (a.1 + b.1, a.2 + b.2).
Definition Csub (a b : C) : C := (a.1 - b.1, a.2 - b.2).
Definition Cmul (a b : C) : C :=
  (a.1 * b.1 - a.2 * b.2, a.1 * b.2 + a.2 * b.1).
Definition C0 : C := (0, 0).

(** [cis t] is e^{i t}. *)
Definition cis (t : R) : C := (Rtrigo_def.cos t, Rtrigo_def.sin t).

(** The sum of [f 0], ..., [f (n - 1)]. *)
Fixpoint Csum_n (f : Z → C) (n : nat) : C :=
  match n with
  | O => C0
  | S n' => Cadd (Csum_n f n') (f (Z.of_nat n'))
  end.
Definition Csum (f : Z → C) (n : Z) : C := Csum_n f (Z.to_nat n).

(** The forward, unnormalised transform of [x 0], ..., [x (N - 1)] at
    frequency [k]: the sum over [n] of [x n * e^{-2 pi i k n / N}]. *)
Definition dft (x : Z → C) (N k : Z) : C :=
  Csum (λ n, Cmul (x n) (cis (-2 * PI * IZR k * IZR n / IZR N))) N.

(** The complex sequence kept in two lists of reals. *)
Definition seq_of (xr xi : list R) (n : Z) : C :=
  (default 0 (xr !! Z.to_nat n), default 0 (xi !! Z.to_nat n)).

(** The two arrays holding the transform of the sequence in [xr], [xi]. *)
Definition dft_real (xr xi : list R) : list num :=
  (λ k, Num (dft (seq_of xr xi) (Z.of_nat (length xr)) k).1)
    <$> seqZ 0 (Z.of_nat (length xr)).
Definition dft_imag (xr xi : list R) : list num :=
  (λ k, Num (dft (seq_of xr xi) (Z.of_nat (length xr)) k).2)
    <$> seqZ 0 (Z.of_nat (length xr)).

Close Scope R_scope.

(** [rev m n]: the [m] low bits of [n] in reverse order. *)
Fixpoint rev (m : nat) (n : Z) : Z :=
  match m with
  | O => 0
  | S m' => (n `mod` 2) * 2 ^ Z.of_nat m' + rev m' (n / 2)
  end.

(** ** The state of the two arrays *)

(** The arrays [real] and [imag] hold the complex number [c] at index
    [t]; they hold [f 0], ..., [f (len - 1)] and have [len] elements. *)
Definition holds_at (h : heap) (real imag : loc) (t : Z) (c : C) : Prop :=
  rd h real t = Num c.1 ∧ rd h imag t = Num c.2.

Definition holds (h : heap) (real imag : loc) (len : Z) (f : Z → C) : Prop :=
  alen h real = len ∧ alen h imag = len ∧
  ∀ t, 0 ≤ t < len → holds_at h real imag t (f t).

(** [h'] is [h] up to the contents of the arrays [real] and [imag]:
    nothing allocated, no other array touched, no length changed. *)
Definition same_but (h h' : heap) (real imag : loc) : Prop :=
  length h' = length h ∧
  (∀ c, c ≠ real → c ≠ imag → h' !! c = h !! c) ∧
  alen h' real = alen h real ∧ alen h' imag = alen h imag.

(** ** One pass of butterflies, as a function on sequences *)

(** The twiddle factor [e^{-2 pi i j / size}], written as the program
    computes its angle. *)
Definition twiddle (size j : Z) : C := cis (-2 * PI / IZR size * IZR j).

(** The sequence after the pass over blocks of [size] elements: in each
    block, the element at offset [k] below [size / 2] and the one
    [size / 2] further on are combined. *)
Definition stage_fn (size : Z) (f : Z → C) (t : Z) : C :=
  let k := t `mod` size in
  if k <? size / 2
  then Cadd (f t) (Cmul (f (t + size / 2)) (twiddle size k))
  else Csub (f (t - size / 2)) (Cmul (f t) (twiddle size (k - size / 2))).

(** The sequence after the passes for sizes 2, 4, ..., 2^m. *)
Fixpoint passes (m : nat) (f : Z → C) : Z → C :=
  match m with
  | O => f
  | S m' => stage_fn (2 ^ Z.of_nat m) (passes m' f)
  end.

(** Where the pass over the block starting at [i] has come to when its
    inner loop is at [j]: the indices already combined. *)
Definition combined (i half j t : Z) : Prop :=
  t < i ∨ i ≤ t < i + j ∨ i + half ≤ t < i + half + j.

End Fourier.

Import Fourier.

(* ===================================================================== *)
(** * The vocabulary of the statements *)
(* ===================================================================== *)

Module Spec.

Section Crop.
Import CropTool.

(** The crop tool with the drag endpoints exchanged. *)
Definition swap_endpoints (t : crop_tool) : crop_tool :=
  mkCropTool (canvas t) (bgCanvas t) (isCropping t) (cropEnd t) (cropStart t).

(** A crop tool on empty canvases with the drag endpoints [s] and [e]. *)
Definition crop_tool_example (s e : option point) : crop_tool :=
  mkCropTool (mkCanvas 0 0 []) (mkCanvas 0 0 []) false s e.

(** The guards of [applyCrop] fail: no valid crop area, or a rectangle
    narrower or lower than 10 pixels. *)
Definition crop_refused (t : crop_tool) : Prop :=
  isValidCropArea t = false ∨
  ∃ r, getCropDimensions t = Some r ∧ (width r < 10 ∨ height r < 10).

End Crop.

Section Colour.
Import ColorAdjustments.

(** What one channel assignment of the scaling loop stores for the byte
    [b] and the factor [scale]. *)
Definition scaled_byte (scale : num) (b : Z) : Z :=
  toUint8Clamped (min (Num 255) (max (Num 0) (round (mul (ofZ b) scale)))).

(** The factor applied to the channel at offset [c] in its pixel. *)
Definition channel_scale (adj : adjustments) (c : Z) : num :=
  if c =? 0 then div (red adj) (Num 100)
  else if c =? 1 then div (green adj) (Num 100)
  else div (blue adj) (Num 100).

(** The buffer the scaling loop ends with, entry by entry: the alpha byte
    of each pixel as it was, the three colour bytes scaled. *)
Definition scaled_lookup (adj : adjustments) (d : list Z) (k : nat)
    : option Z :=
  if Z.of_nat k `mod` 4 =? 3 then d !! k
  else scaled_byte (channel_scale adj (Z.of_nat k `mod` 4)) <$> d !! k.

(** The percentage set for the channel at offset [c] in its pixel. *)
Definition channel_percent (adj : adjustments) (c : Z) : num :=
  if c =? 0 then red adj else if c =? 1 then green adj else blue adj.

(** An image of one pixel. *)
Definition one_pixel : ImageData := mkImageData 1 1 [200; 100; 50; 77].

(** An image whose alpha bytes are all 255: such pixels are read back
    from a browser's canvas as they were put. *)
Definition opaque (img : ImageData) : Prop :=
  ∀ k : nat, Z.of_nat k `mod` 4 = 3 → (k < length (data img))%nat →
             data img !! k = Some 255.

Definition opaque_pixel : ImageData := mkImageData 1 1 [200; 100; 50; 255].

End Colour.

(** The sequence the arrays hold when the loop has come to index [i]:
    the pairs [(t, rev t)] with an end below [i] have been exchanged. *)
Definition permuted_upto (L : nat) (x : Z → C) (i t : Z) : C :=
  if decide (Z.min t (rev L t) < i) then x (rev L t) else x t.

(** What a butterfly has to do to the two arrays: combine the elements at
    [k] and [l] with the factor [w] and leave the other elements alone. *)
Definition combines (h h' : list (list num)) (real imag : nat)
    (k l : Z) (w : C) : Prop :=
  ∀ ck cl, holds_at h real imag k ck → holds_at h real imag l cl →
    holds_at h' real imag k (Cadd ck (Cmul cl w)) ∧
    holds_at h' real imag l (Csub ck (Cmul cl w)) ∧
    ∀ t, t ≠ k → t ≠ l →
         rd h' real t = rd h real t ∧ rd h' imag t = rd h imag t.

(** [a] with zeros up to [P] elements. *)
Definition zero_padded (a : list num) (P : Z) : list num :=
  a ++ replicate (Z.to_nat P - length a) (Num 0).

(** The heap once [fft1D] has made [paddedReal] and [paddedImag]. *)
Definition padded_heap (h : list (list num)) (real imag : nat) (P : Z)
    : list (list num) :=
  h ++ [zero_padded (arr h real) P] ++ [zero_padded (arr h imag) P].

(** The intensity [FFTAnalyzer.visualizeFFT] gives to the magnitude [m]
    when the maximum is [M]. *)
Definition intensity_of (m M : R) : Z :=
  Zfloor (ln (1 + m) / ln (1 + M) * 255).

(** The byte stored in channel [c] of the pixel with raster index [p]. *)
Definition pixel_byte (h : list (list num)) (magnitude : nat)
    (width height : Z) (maxMag : num) (p c : Z) : Z :=
  if c =? 3 then 255
  else toUint8Clamped
         (FFTAnalyzer.intensity
            (rd h magnitude
               (FFTAnalyzer.shifted_index width height (p `mod` width)
                  (p / width)))
            maxMag).

(** What the pixel loop stores for the destination pixel [(x, y)] when the
    value read from the spectrum yields the intensity [v]. *)
Definition gray_pixel (d : list Z) (width x y v : Z) : Prop :=
  d !! Z.to_nat (4 * (y * width + x)) = Some v ∧
  d !! Z.to_nat (4 * (y * width + x) + 1) = Some v ∧
  d !! Z.to_nat (4 * (y * width + x) + 2) = Some v ∧
  d !! Z.to_nat (4 * (y * width + x) + 3) = Some 255.

(** Every entry of the spectrum is a number between [0] and [M]. *)
Definition spectrum_below (h : list (list num)) (magnitude : nat)
    (n : Z) (M : R) : Prop :=
  ∀ i, 0 ≤ i < n → ∃ m, rd h magnitude i = Num m ∧ (0 <= m <= M)%R.

(** The arrays of a row of three equal samples. *)
Definition three_ones : list (list num) :=
  [[Num 1; Num 1; Num 1]; [Num 0; Num 0; Num 0]].

(** A 2 x 2 canvas with every byte of every pixel at 255. *)
Definition white_2x2 : canvas := mkCanvas 2 2 (replicate 16 255).

(** The heap after [fft2D] on the grayscale field: the field, the
    spectrum, and the row and column buffers. *)
Definition white_spectrum : list (list num) :=
  [[Num 1; Num 1; Num 1; Num 1];
   [Num 4; Num 0; Num 0; Num 0]; [Num 0; Num 0; Num 0; Num 0];
   [Num 2; Num 0]; [Num 0; Num 0]; [Num 2; Num 0]; [Num 0; Num 0];
   [Num 4; Num 0]; [Num 0; Num 0]; [Num 0; Num 0]; [Num 0; Num 0]].

(** The same heap with the magnitude array. *)
Definition white_magnitudes : list (list num) :=
  white_spectrum ++ [[Num 4; Num 0; Num 0; Num 0]].

Section CropEvents.
Import CropTool.

(** The tool after the pointer has moved to the points [ps], one after the
    other. *)
Definition after_moves (overlay : crop_tool → list Z) (t : crop_tool)
    (ps : list point) : crop_tool :=
  foldl (λ t p, (handleCropMove overlay t (Return p)).2) t ps.

(** A move or a release of the pointer, with the outcome of
    [getEventPosition] for it. *)
Inductive pointer_step : Type :=
  | Move (pos : outcome point)
  | Release (pos : outcome point).

(** The tool after the handler of one such event has run. *)
Definition after_step (overlay : crop_tool → list Z) (t : crop_tool)
    (ev : pointer_step) : crop_tool :=
  match ev with
  | Move pos => (handleCropMove overlay t pos).2
  | Release pos => (handleCropEnd t pos).2
  end.

(** The rectangle spanned by two points. *)
Definition spanned (p q : point) : rect :=
  mkRect (Z.min (px p) (px q)) (Z.min (py p) (py q))
         (Z.abs (px q - px p)) (Z.abs (py q - py p)).

(** Two points more than 5 pixels apart in both directions. *)
Definition apart (p q : point) : bool :=
  (5 <? Z.abs (px q - px p)) && (5 <? Z.abs (py q - py p)).

End CropEvents.

(** The offset in a pixel of the channel a slider colour names. *)
Definition colour_offset (color : string) : option Z :=
  if String.eqb color "red" then Some 0
  else if String.eqb color "green" then Some 1
  else if String.eqb color "blue" then Some 2
  else None.

(** Every byte of a buffer is a byte. *)
Definition bytes (d : list Z) : Prop := Forall (λ b, 0 ≤ b ≤ 255) d.

(** The intensity [PhotoEditor.visualizeFFT] gives to the magnitude [m]
    when the maximum is [M]. *)
Definition editor_intensity_of (m M : R) : Z :=
  Zfloor (ln (1 + m / M) * 255 / ln 2).

(** The byte [PhotoEditor.visualizeFFT] stores in channel [c] of the pixel
    with raster index [p]. *)
Definition editor_pixel_byte (h : list (list num)) (magnitude : nat)
    (width height : Z) (maxMag : num) (p c : Z) : Z :=
  if c =? 3 then 255
  else toUint8Clamped
         (PhotoEditor.intensity
            (PhotoEditor.rd_at h magnitude
               (PhotoEditor.shifted_index width height (p `mod` width)
                  (p / width)))
            maxMag).

(** The body of the row loop and of the column loop of [fft2D]: the line
    with the indices [k 0], ..., [k (N - 1)] is copied out into two new
    arrays, transformed, and copied back. *)
Definition line_pass (real imag : nat) (N : Z) (k : Z → Z)
    (h : list (list num)) : option (list (list num)) :=
  let '(h, lineReal) := new_zeros h N in
  let '(h, lineImag) := new_zeros h N in
  h ← for_range 0 N (λ j h,
         let h := wr h lineReal j (rd h real (k j)) in
         Some (wr h lineImag j (rd h imag (k j)))) h;
  '(h, (lineFFT_real, lineFFT_imag)) ← FFTAnalyzer.fft1D h lineReal lineImag;
  for_range 0 N (λ j h,
      let h := wr h real (k j) (rd h lineFFT_real j) in
      Some (wr h imag (k j) (rd h lineFFT_imag j))) h.

(** The two-dimensional transform of the [W] x [H] field [x], kept row by
    row, at the frequency [(u, v)]: the sum over the rows [r] and the
    columns [c] of [x (r W + c) e^{-2 pi i (u c / W + v r / H)}]. *)
Definition dft2 (x : Z → C) (W H u v : Z) : C :=
  Csum (λ r,
    Csum (λ c,
      Cmul (x (r * W + c))
           (cis (-2 * PI * IZR u * IZR c / IZR W
                 + -2 * PI * IZR v * IZR r / IZR H))) W) H.

(** The grayscale value of the pixel [i] of an RGBA buffer. *)
Definition luminance (d : list Z) (i : Z) : R :=
  let r := default 0 (d !! Z.to_nat (4 * i)) in
  let g := default 0 (d !! Z.to_nat (4 * i + 1)) in
  let b := default 0 (d !! Z.to_nat (4 * i + 2)) in
  ((0.299 * IZR r + 0.587 * IZR g + 0.114 * IZR b) / 255)%R.

(** The modulus of a complex number. *)
Definition modulus (z : C) : R := R_sqrt.sqrt (z.1 * z.1 + z.2 * z.2).

(** The editor after the slider events [l], one after the other. *)
Fixpoint handle_all (e : PhotoEditor.editor) (l : list (string * num))
    : option PhotoEditor.editor :=
  match l with
  | [] => Some e
  | (color, numValue) :: l =>
      e' ← PhotoEditor.handleColorAdjustment e color numValue;
      handle_all e' l
  end.

(** The settings after the slider events [l]. *)
Definition settings_after (ca : PhotoEditor.color_adjustments)
    (l : list (string * num)) : PhotoEditor.color_adjustments :=
  foldl (λ ca cv, PhotoEditor.set_color ca cv.1 cv.2) ca l.

(** The editor with other settings. *)
Definition with_settings (e : PhotoEditor.editor)
    (ca : PhotoEditor.color_adjustments) : PhotoEditor.editor :=
  PhotoEditor.mkEditor (PhotoEditor.originalImageData e)
    (PhotoEditor.currentImageData e) ca (PhotoEditor.bgCanvas e).

(** Two editors that a repaint cannot tell apart. *)
Definition repaint_alike (orig : ImageData) (e e0 : PhotoEditor.editor)
    : Prop :=
  PhotoEditor.originalImageData e = Some orig ∧
  PhotoEditor.originalImageData e0 = Some orig ∧
  cwidth (PhotoEditor.bgCanvas e) = cwidth (PhotoEditor.bgCanvas e0) ∧
  cheight (PhotoEditor.bgCanvas e) = cheight (PhotoEditor.bgCanvas e0) ∧
  ∀ d, putImageData (PhotoEditor.bgCanvas e)
         (mkImageData (width orig) (height orig) d) 0 0 =
       putImageData (PhotoEditor.bgCanvas e0)
         (mkImageData (width orig) (height orig) d) 0 0.

(** An editor with a 1 x 1 image loaded. *)
Definition editor_example : PhotoEditor.editor :=
  PhotoEditor.mkEditor (Some (mkImageData 1 1 [10; 20; 30; 255])) None
    (PhotoEditor.mkColorAdjustments (Num 100) (Num 100) (Num 100))
    (mkCanvas 1 1 [10; 20; 30; 255]).

End Spec.

Import Spec.

(* ===================================================================== *)
(** * Reasoning about loops *)
(* ===================================================================== *)

(** [lia] is to solve goals with division and remainder by constants. *)
Ltac Zify.zify_post_hook ::= Z.to_euclidean_division_equations.

Section LoopRules.
Context {S : Type}.

(** A [while] loop with an invariant [I] and a variant [m] below the
    fuel finishes, in a state where the invariant holds and the
    condition fails. *)
Lemma while_rule (I : S → Prop) (m : S → nat) cond (body : S → option S) :
  (∀ s, I s → cond s = true →
        ∃ s', body s = Some s' ∧ I s' ∧ (m s' < m s)%nat) →
  ∀ fuel s, I s → (m s < fuel)%nat →
    ∃ s', while fuel cond body s = Some s' ∧ I s' ∧ cond s' = false.
Proof.
  intros Hbody fuel. induction fuel as [|fuel IH]; intros s Hs Hm; [lia|].
  simpl. destruct (cond s) eqn:Hc.
  - destruct (Hbody s Hs Hc) as (s' & -> & Hs' & Hlt). simpl.
    apply IH; [done | lia].
  - eauto.
Qed.

Lemma for_loop_rule (I : Z → S → Prop) (body : Z → S → option S) hi :
  (∀ i s, i < hi → I i s → ∃ s', body i s = Some s' ∧ I (i + 1) s') →
  ∀ count i s, i + Z.of_nat count = hi → I i s →
    ∃ s', for_loop count i body s = Some s' ∧ I hi s'.
Proof.
  intros Hbody count. induction count as [|count IH]; intros i s Hi Hs; simpl.
  - replace hi with i by lia. eauto.
  - destruct (Hbody i s ltac:(lia) Hs) as (s' & -> & Hs'). simpl.
    apply IH; [lia | done].
Qed.

(** A counted loop with an invariant indexed by the loop variable. *)
Lemma for_range_rule (I : Z → S → Prop) lo hi (body : Z → S → option S) :
  lo ≤ hi →
  (∀ i s, lo ≤ i < hi → I i s → ∃ s', body i s = Some s' ∧ I (i + 1) s') →
  ∀ s, I lo s → ∃ s', for_range lo hi body s = Some s' ∧ I hi s'.
Proof.
  intros Hle Hbody s Hs. unfold for_range.
  destruct (for_loop_rule (λ i s, lo ≤ i ∧ I i s) body hi) with
    (count := Z.to_nat (hi - lo)) (i := lo) (s := s)
    as (s' & Hrun & _ & Hs'); [| lia | split; [lia | done] | eauto].
  intros i s0 Hi [Hlo Hs0].
  destruct (Hbody i s0 ltac:(lia) Hs0) as (s' & ? & ?).
  exists s'. repeat split; [done | lia | done].
Qed.

(** An empty range leaves the state alone. *)
Lemma for_range_empty lo hi (body : Z → S → option S) s :
  hi ≤ lo → for_range lo hi body s = Some s.
Proof.
  intros Hle. unfold for_range. by replace (Z.to_nat (hi - lo)) with O by lia.
Qed.
End LoopRules.

(* ===================================================================== *)
(** * CropTool: the crop rectangle and the guards of applyCrop *)
(* ===================================================================== *)

Section CropToolProps.
Import CropTool.

Lemma isValidCropArea_swap t :
  isValidCropArea (swap_endpoints t) = isValidCropArea t.
Proof.
  unfold isValidCropArea, swap_endpoints; simpl.
  destruct (cropStart t) as [s|], (cropEnd t) as [e|]; try done.
  replace (px s - px e) with (- (px e - px s)) by lia.
  replace (py s - py e) with (- (py e - py s)) by lia.
  by rewrite !Z.abs_opp.
Qed.

(** C9. [getCropDimensions] does not depend on the drag direction: for
    endpoints forming a valid crop area, exchanging [cropStart] and
    [cropEnd] gives the same rectangle, whose [x] and [y] are the
    coordinate-wise minima and whose [width] and [height] are the
    absolute differences. *)
Theorem getCropDimensions_symmetric (t : crop_tool) (s e : point) :
  cropStart t = Some s → cropEnd t = Some e →
  isValidCropArea t = true →
  getCropDimensions (swap_endpoints t) = getCropDimensions t ∧
  getCropDimensions t =
    Some (mkRect (Z.min (px s) (px e)) (Z.min (py s) (py e))
                 (Z.abs (px e - px s)) (Z.abs (py e - py s))).
Proof.
  intros Hs He Hv. unfold getCropDimensions.
  rewrite isValidCropArea_swap, Hv. simpl. rewrite Hs, He. split; [|done].
  do 2 f_equal; lia.
Qed.

Lemma getCropDimensions_symmetric_witness :
  getCropDimensions
    (swap_endpoints
       (crop_tool_example (Some (mkPoint 40 7)) (Some (mkPoint 10 30)))) =
  getCropDimensions
    (crop_tool_example (Some (mkPoint 40 7)) (Some (mkPoint 10 30))) ∧
  getCropDimensions
    (crop_tool_example (Some (mkPoint 40 7)) (Some (mkPoint 10 30))) =
  Some (mkRect 10 7 30 23).
Proof.
  apply (getCropDimensions_symmetric
           (crop_tool_example (Some (mkPoint 40 7)) (Some (mkPoint 10 30)))
           (mkPoint 40 7) (mkPoint 10 30)); reflexivity.
Defined.

Lemma getImageData_Some c sx sy sw sh :
  sw ≠ 0 → sh ≠ 0 → ∃ img, getImageData c sx sy sw sh = Some img ∧
    Canvas.width img = Z.abs sw ∧ Canvas.height img = Z.abs sh.
Proof.
  intros Hw Hh. unfold getImageData.
  destruct (sw =? 0) eqn:E1; [lia|]. destruct (sh =? 0) eqn:E2; [lia|].
  simpl. eauto.
Qed.

(** C10. [applyCrop] throws and leaves the crop tool, with its two
    canvases and their bitmaps, as it was whenever there is no valid
    crop area (an endpoint missing, or a selection of 5 pixels or less
    along an axis) or the rectangle is less than 10 pixels wide or high;
    a call that changes anything had a valid area of at least 10 by 10
    pixels, and such a call returns. *)
Theorem applyCrop_atomic (t : crop_tool) :
  (crop_refused t → ∃ msg, applyCrop t = (Throw msg, t)) ∧
  (∀ o t', applyCrop t = (o, t') → t' ≠ t →
     isValidCropArea t = true ∧
     ∃ r, getCropDimensions t = Some r ∧ 10 ≤ width r ∧ 10 ≤ height r) ∧
  (¬ crop_refused t → ∃ img t', applyCrop t = (Return img, t')).
Proof.
  unfold crop_refused, applyCrop.
  destruct (isValidCropArea t) eqn:Hv; simpl.
  2: { split; [eauto|]. split; [intros o t' [= _ <-] Hne; done|].
       intros Hn. exfalso. apply Hn. by left. }
  destruct (getCropDimensions t) as [[x y w h]|] eqn:Hd.
  2: { unfold getCropDimensions in Hd. rewrite Hv in Hd. simpl in Hd.
       unfold isValidCropArea in Hv.
       destruct (cropStart t), (cropEnd t); done. }
  destruct ((w <? 10) || (h <? 10)) eqn:Hsmall.
  { split; [eauto|]. split; [intros o t' [= _ <-] Hne; done|].
    intros Hn. exfalso. apply Hn. right. eexists. split; [done|]. simpl.
    apply orb_true_iff in Hsmall. lia. }
  apply orb_false_iff in Hsmall as [Hw Hh].
  assert (10 ≤ w ∧ 10 ≤ h) as [Hw' Hh'] by lia.
  split.
  { intros [Hf | (r & [= <-] & Hr)]; [done | simpl in Hr; lia]. }
  destruct (getImageData_Some (bgCanvas t) x y w h) as (img & -> & _);
    [lia | lia |].
  match goal with |- context [getImageData ?c 0 0 ?a ?b] =>
    destruct (getImageData_Some c 0 0 a b) as (img' & -> & _);
      [simpl; lia | simpl; lia |] end.
  split; [|eauto].
  intros o t' _ _. split; [done|]. eexists. split; [done|]. simpl. lia.
Qed.

Lemma applyCrop_atomic_witness :
  ∃ msg, applyCrop
           (crop_tool_example (Some (mkPoint 0 0)) (Some (mkPoint 8 40))) =
         (Throw msg,
          crop_tool_example (Some (mkPoint 0 0)) (Some (mkPoint 8 40))).
Proof.
  apply (proj1 (applyCrop_atomic
           (crop_tool_example (Some (mkPoint 0 0)) (Some (mkPoint 8 40))))).
  right. exists (mkRect 0 0 8 40). split; [reflexivity | left; simpl; lia].
Defined.
End CropToolProps.

(* ===================================================================== *)
(** * Byte buffers and the colour scaling *)
(* ===================================================================== *)

Section Bytes.

Lemma round_half_even_IZR z : round_half_even (IZR z) = z.
Proof.
  unfold round_half_even. rewrite ZfloorZ.
  destruct (Rlt_dec (IZR z - IZR z) (/ 2)) as [|Hn]; [done|].
  exfalso. apply Hn. lra.
Qed.

Lemma toUint8Clamped_range v : 0 ≤ toUint8Clamped v ≤ 255.
Proof. destruct v; simpl; lia. Qed.

Lemma Rmax_IZR a b : Rmax (IZR a) (IZR b) = IZR (Z.max a b).
Proof.
  unfold Rmax. destruct (Rle_dec (IZR a) (IZR b)) as [H|H].
  - apply le_IZR in H. by rewrite Z.max_r.
  - assert (b < a) by (apply lt_IZR; lra). by rewrite Z.max_l by lia.
Qed.

Lemma Rmin_IZR a b : Rmin (IZR a) (IZR b) = IZR (Z.min a b).
Proof.
  unfold Rmin. destruct (Rle_dec (IZR a) (IZR b)) as [H|H].
  - apply le_IZR in H. by rewrite Z.min_l.
  - assert (b < a) by (apply lt_IZR; lra). by rewrite Z.min_r by lia.
Qed.

Lemma scaled_byte_Num s b :
  scaled_byte (Num s) b = Z.min 255 (Z.max 0 (Zfloor (IZR b * s + / 2))).
Proof.
  unfold scaled_byte. simpl. rewrite Rmax_IZR, Rmin_IZR, round_half_even_IZR.
  lia.
Qed.

Lemma wr8_lookup d i v (k : nat) :
  0 ≤ i →
  wr8 d i v !! k =
    if decide (Z.to_nat i = k ∧ (Z.to_nat i < length d)%nat)
    then Some (toUint8Clamped v) else d !! k.
Proof.
  intros Hi. unfold wr8. destruct (i <? 0) eqn:E; [lia|].
  apply list_lookup_insert.
Qed.

Lemma wr8_length d i v : length (wr8 d i v) = length d.
Proof. unfold wr8. destruct (i <? 0); [done|]. apply length_insert. Qed.

Lemma rd8_lookup d i :
  0 ≤ i → rd8 d i = from_option ofZ NaN (d !! Z.to_nat i).
Proof.
  intros Hi. unfold rd8. destruct (i <? 0) eqn:E; [lia|].
  by destruct (d !! Z.to_nat i).
Qed.

End Bytes.

Section ColourScaling.
Import ColorAdjustments.

Lemma scale_pixel_lookup adj d0 d i (k : nat) :
  0 ≤ i → i `mod` 4 = 0 → length d = length d0 →
  (∀ k : nat, i ≤ Z.of_nat k → d !! k = d0 !! k) →
  scale_pixel (div (red adj) (Num 100)) (div (green adj) (Num 100))
              (div (blue adj) (Num 100)) i d !! k =
    if (i <=? Z.of_nat k) && (Z.of_nat k <? i + 4)
    then scaled_lookup adj d0 k else d !! k.
Proof.
  intros Hi Hmod Hlen Hrest. unfold scale_pixel.
  rewrite !wr8_lookup, !rd8_lookup, !wr8_length by lia.
  rewrite !wr8_lookup by lia.
  repeat case_decide; try lia.
  all: destruct ((i <=? Z.of_nat k) && (Z.of_nat k <? i + 4)) eqn:Hin;
    try lia; unfold scaled_lookup, channel_scale.
  - replace (Z.of_nat k `mod` 4) with 2 by lia. simpl.
    replace (Z.to_nat (i + 2)) with k by lia.
    rewrite Hrest by lia.
    destruct (d0 !! k) eqn:Hk; [done|].
    apply lookup_ge_None in Hk. lia.
  - replace (Z.of_nat k `mod` 4) with 1 by lia. simpl.
    replace (Z.to_nat (i + 1)) with k by lia.
    rewrite Hrest by lia.
    destruct (d0 !! k) eqn:Hk; [done|].
    apply lookup_ge_None in Hk. lia.
  - replace (Z.of_nat k `mod` 4) with 0 by lia. simpl.
    replace (Z.to_nat i) with k by lia.
    rewrite Hrest by lia.
    destruct (d0 !! k) eqn:Hk; [done|].
    apply lookup_ge_None in Hk. lia.
  - rewrite Hrest by lia.
    assert (Z.of_nat k `mod` 4 = 3 ∨ (length d0 ≤ k)%nat) as [Hk|Hk].
    { destruct (decide (Z.of_nat k `mod` 4 = 3)); [by left|right]. lia. }
    + by rewrite Hk.
    + apply lookup_ge_None in Hk. rewrite Hk.
      by destruct (Z.of_nat k `mod` 4 =? 3).
  - done.
Qed.

Lemma scale_pixel_length a b c i d :
  length (scale_pixel a b c i d) = length d.
Proof. unfold scale_pixel. by rewrite !wr8_length. Qed.

(** The scaling loop finishes, and its result is [scaled_lookup]. *)
Lemma scale_channels_spec adj d :
  ∃ d', scale_channels adj d = Some d' ∧ length d' = length d ∧
        ∀ k : nat, d' !! k = scaled_lookup adj d k.
Proof.
  unfold scale_channels.
  set (I := λ st : Z * list Z,
    0 ≤ st.1 ∧ st.1 `mod` 4 = 0 ∧ length st.2 = length d ∧
    (∀ k : nat, Z.of_nat k < st.1 → st.2 !! k = scaled_lookup adj d k) ∧
    (∀ k : nat, st.1 ≤ Z.of_nat k → st.2 !! k = d !! k)).
  edestruct (while_rule I
    (λ st, Z.to_nat ((Z.of_nat (length d) + 3 - st.1) / 4)))
    as ([i d'] & -> & (Hi & Hmod & Hlen & Hdone & Hrest) & Hc).
  - intros [i dc] (Hi & Hmod & Hlen & Hdone & Hrest) Hc. simpl in *.
    eexists. split; [done|]. unfold I. simpl. split; [|lia].
    split; [lia|]. split; [lia|].
    split; [by rewrite scale_pixel_length|].
    split; intros k Hk;
      rewrite (scale_pixel_lookup adj d) by (try done; lia).
    + destruct ((i <=? Z.of_nat k) && (Z.of_nat k <? i + 4)) eqn:Hin;
        [done|]. apply Hdone. lia.
    + destruct ((i <=? Z.of_nat k) && (Z.of_nat k <? i + 4)) eqn:Hin;
        [lia|]. apply Hrest. lia.
  - unfold I. simpl. repeat split; try done; intros; lia.
  - simpl. lia.
  - simpl in *. eexists. split; [done|]. split; [done|].
    intros k. destruct (decide (Z.of_nat k < i)); [by apply Hdone|].
    rewrite Hrest by lia. unfold scaled_lookup.
    assert (length d ≤ k)%nat as Hk%lookup_ge_None by lia.
    rewrite Hk. by destruct (_ =? 3).
Qed.


End ColourScaling.

(* ===================================================================== *)
(** * The canvas: writing an image and reading it back *)
(* ===================================================================== *)

Section CanvasProps.

Lemma lookup_fmap_seqZ {A} (f : Z → A) n (k : nat) :
  (f <$> seqZ 0 n) !! k =
    if decide (Z.of_nat k < n) then Some (f (Z.of_nat k)) else None.
Proof.
  rewrite list_lookup_fmap. case_decide.
  - by rewrite lookup_seqZ_lt.
  - by rewrite lookup_seqZ_ge by lia.
Qed.

Lemma div_mod_pair a b n :
  0 ≤ b < n → (a * n + b) / n = a ∧ (a * n + b) `mod` n = b.
Proof.
  intros Hb. split.
  - symmetry. apply (Z.div_unique _ _ _ b); lia.
  - symmetry. apply (Z.mod_unique _ _ a); lia.
Qed.

(** A pixel index below [w * h] splits into a column and a row. *)
Lemma pixel_coords q w h :
  0 < w → 0 ≤ q < w * h → 0 ≤ q `mod` w < w ∧ 0 ≤ q / w < h.
Proof.
  intros Hw Hq. split; [by apply Z.mod_pos_bound|]. split.
  - apply Z.div_pos; lia.
  - apply Z.div_lt_upper_bound; lia.
Qed.

Lemma channel_putImageData c img x y ch :
  0 ≤ cwidth c → 0 ≤ cheight c →
  0 ≤ x < width img → 0 ≤ y < height img → 0 ≤ ch < 4 →
  x < cwidth c → y < cheight c →
  channel (putImageData c img 0 0) x y ch =
    default 0 (data img !! Z.to_nat (4 * (y * width img + x) + ch)).
Proof.
  intros Hcw Hch Hx Hy Hc Hxc Hyc. unfold channel, putImageData. simpl.
  replace ((0 <=? x) && (x <? cwidth c) && (0 <=? y) && (y <? cheight c))
    with true by lia.
  rewrite lookup_fmap_seqZ.
  assert (y * cwidth c + x < cwidth c * cheight c) by nia.
  assert (0 ≤ y * cwidth c) by nia.
  rewrite decide_True by lia. simpl.
  rewrite Z2Nat.id by lia.
  replace ((4 * (y * cwidth c + x) + ch) / 4) with (y * cwidth c + x) by lia.
  replace ((4 * (y * cwidth c + x) + ch) `mod` 4) with ch by lia.
  destruct (div_mod_pair y x (cwidth c)) as [-> ->]; [lia|].
  replace ((0 <=? x) && (x <? 0 + width img) && (0 <=? y) &&
           (y <? 0 + height img)) with true by lia.
  by rewrite !Z.sub_0_r.
Qed.

(** An image written at the origin of a canvas that holds it is read back
    as it was. *)
Lemma getImageData_putImageData c img :
  wf_ImageData img →
  width img ≤ cwidth c → height img ≤ cheight c →
  getImageData (putImageData c img 0 0) 0 0 (width img) (height img)
    = Some img.
Proof.
  destruct img as [w h d]. unfold wf_ImageData. simpl.
  intros (Hw & Hh & Hlen) Hcw Hch. unfold getImageData.
  replace ((w =? 0) || (h =? 0)) with false by lia.
  rewrite !Z.abs_eq, !Z.min_l by lia. f_equal. f_equal.
  apply list_eq. intros k. rewrite lookup_fmap_seqZ. case_decide as Hk.
  - assert (0 ≤ Z.of_nat k / 4 < w * h) as Hq by lia.
    destruct (pixel_coords _ w h Hw Hq) as [Hx Hy].
    rewrite !Z.add_0_l, channel_putImageData by (simpl; lia). simpl.
    pose proof (Z.div_mod (Z.of_nat k / 4) w ltac:(lia)) as Hdm.
    replace (4 * (Z.of_nat k / 4 / w * w + (Z.of_nat k / 4) `mod` w) +
             Z.of_nat k `mod` 4) with (Z.of_nat k) by lia.
    rewrite Nat2Z.id.
    destruct (d !! k) eqn:E; [done|]. apply lookup_ge_None in E. lia.
  - symmetry. apply lookup_ge_None. lia.
Qed.

End CanvasProps.

Section ColourFrame.
Import ColorAdjustments.

(** C8. For every well-formed ImageData, every adjustment setting and
    every canvas, [applyToImageData] returns; the image it computes and
    writes to the canvas has, in every pixel, the alpha byte of the input
    (the loop assigns the offsets i, i+1, i+2 only) and as many bytes;
    the ImageData it returns has the width and the height of the input,
    and, when the canvas is at least as wide and as high as the image,
    the alpha byte of the input in every pixel. Nothing is stated of the
    colour bytes that are read back. *)
Theorem applyToImageData_alpha (adj : adjustments) (img : ImageData)
    (bg : canvas) :
  wf_ImageData img →
  ∃ d' out,
    scale_channels adj (data img) = Some d' ∧
    applyToImageData adj img bg =
      Some (putImageData bg (mkImageData (width img) (height img) d') 0 0,
            out) ∧
    length d' = length (data img) ∧
    (∀ k : nat, Z.of_nat k `mod` 4 = 3 → d' !! k = data img !! k) ∧
    width out = width img ∧ height out = height img ∧
    (width img ≤ cwidth bg → height img ≤ cheight bg →
     ∀ k : nat, Z.of_nat k `mod` 4 = 3 → data out !! k = data img !! k).
Proof.
  intros Hwf. pose proof Hwf as (Hw & Hh & Hlen).
  destruct (scale_channels_spec adj (data img)) as (d' & Hrun & Hlen' & Hd').
  unfold applyToImageData, new_ImageData.
  replace ((0 <? width img) && (0 <? height img) &&
           (Z.of_nat (length (data img)) =? 4 * width img * height img))
    with true by lia.
  simpl. rewrite Hrun. simpl.
  destruct (getImageData_Some
              (putImageData bg (mkImageData (width img) (height img) d') 0 0)
              0 0 (width img) (height img)) as (out & Hout & Hwo & Hho);
    [lia | lia |].
  exists d', out. rewrite Hout. simpl.
  split; [done|]. split; [done|]. split; [done|].
  assert (∀ k : nat, Z.of_nat k `mod` 4 = 3 → d' !! k = data img !! k)
    as Halpha.
  { intros k Hk. rewrite Hd'. unfold scaled_lookup. by rewrite Hk. }
  split; [exact Halpha|]. split; [lia|]. split; [lia|].
  intros Hcw Hch k Hk.
  pose proof (getImageData_putImageData bg
                (mkImageData (width img) (height img) d')) as Hrt.
  simpl in Hrt. rewrite Hrt in Hout.
  - injection Hout as <-. simpl. by apply Halpha.
  - unfold wf_ImageData. simpl. lia.
  - done.
  - done.
Qed.

Lemma applyToImageData_alpha_witness :
  ∃ d' out,
    scale_channels initial (data one_pixel) = Some d' ∧
    applyToImageData initial one_pixel (mkCanvas 1 1 [0; 0; 0; 0]) =
      Some (putImageData (mkCanvas 1 1 [0; 0; 0; 0])
              (mkImageData (width one_pixel) (height one_pixel) d') 0 0,
            out) ∧
    length d' = length (data one_pixel) ∧
    (∀ k : nat, Z.of_nat k `mod` 4 = 3 → d' !! k = data one_pixel !! k) ∧
    width out = width one_pixel ∧ height out = height one_pixel ∧
    ∀ k : nat, Z.of_nat k `mod` 4 = 3 → data out !! k = data one_pixel !! k.
Proof.
  destruct (applyToImageData_alpha initial one_pixel
              (mkCanvas 1 1 [0; 0; 0; 0]))
    as (d' & out & Hd & Hrun & Hlen & Hkeep & Hw & Hh & Hback).
  { unfold wf_ImageData, one_pixel. simpl. lia. }
  exists d', out. split; [exact Hd|]. split; [exact Hrun|].
  split; [exact Hlen|]. split; [exact Hkeep|]. split; [exact Hw|].
  split; [exact Hh|]. apply Hback; simpl; lia.
Defined.

End ColourFrame.

(* ===================================================================== *)
(** * 32-bit operators on small non-negative integers *)
(* ===================================================================== *)

Section Int32.

Lemma toInt32_small x : - 2 ^ 31 ≤ x < 2 ^ 31 → toInt32 x = x.
Proof. unfold toInt32. lia. Qed.

Lemma pow2_le_30 m : 0 ≤ m ≤ 30 → 0 < 2 ^ m ≤ 2 ^ 30.
Proof.
  intros Hm. split; [apply Z.pow_pos_nonneg; lia|].
  apply Z.pow_le_mono_r; lia.
Qed.

Lemma testbit_small r m : 0 ≤ m → 0 ≤ r < 2 ^ m → Z.testbit r m = false.
Proof.
  intros Hm Hr. destruct (decide (r = 0)) as [->|]; [apply Z.bits_0|].
  apply Z.bits_above_log2; [lia|]. apply Z.log2_lt_pow2; lia.
Qed.

Lemma land_pow2_small r m : 0 ≤ m → 0 ≤ r < 2 ^ m → Z.land r (2 ^ m) = 0.
Proof.
  intros Hm Hr. apply Z.bits_inj'. intros n Hn.
  rewrite Z.land_spec, Z.pow2_bits_eqb, Z.bits_0 by done.
  destruct (m =? n) eqn:E; [|apply andb_false_r].
  apply Z.eqb_eq in E as <-. by rewrite testbit_small.
Qed.

Lemma lxor_pow2_small r m : 0 ≤ m → 0 ≤ r < 2 ^ m → Z.lxor r (2 ^ m) = r + 2 ^ m.
Proof. intros. symmetry. by apply Z.add_nocarry_lxor, land_pow2_small. Qed.

Lemma lxor_pow2_set r m :
  0 ≤ m → 0 ≤ r < 2 ^ m → Z.lxor (r + 2 ^ m) (2 ^ m) = r.
Proof.
  intros. rewrite <- lxor_pow2_small by done.
  by rewrite Z.lxor_assoc, Z.lxor_nilpotent, Z.lxor_0_r.
Qed.

Lemma land_pow2_set r m :
  0 ≤ m → 0 ≤ r < 2 ^ m → Z.land (r + 2 ^ m) (2 ^ m) = 2 ^ m.
Proof.
  intros Hm Hr. rewrite <- lxor_pow2_small by done.
  apply Z.bits_inj'. intros n Hn.
  rewrite Z.land_spec, Z.lxor_spec, Z.pow2_bits_eqb by done.
  destruct (m =? n) eqn:E; [|apply andb_false_r].
  apply Z.eqb_eq in E as <-. by rewrite testbit_small.
Qed.

(** The operators of the bit-reversal counter, for a bit [2 ^ m] below
    2^31 and a counter below it or with just that bit set. *)
Lemma band_clear r m : 0 ≤ m ≤ 30 → 0 ≤ r < 2 ^ m → band r (2 ^ m) = 0.
Proof.
  intros Hm Hr. pose proof (pow2_le_30 m Hm). unfold band.
  rewrite !toInt32_small by lia. apply land_pow2_small; lia.
Qed.

Lemma band_set r m :
  0 ≤ m ≤ 30 → 0 ≤ r < 2 ^ m → band (r + 2 ^ m) (2 ^ m) = 2 ^ m.
Proof.
  intros Hm Hr. pose proof (pow2_le_30 m Hm). unfold band.
  rewrite !toInt32_small by lia. apply land_pow2_set; lia.
Qed.

Lemma bxor_clear r m :
  0 ≤ m ≤ 30 → 0 ≤ r < 2 ^ m → bxor r (2 ^ m) = r + 2 ^ m.
Proof.
  intros Hm Hr. pose proof (pow2_le_30 m Hm). unfold bxor.
  rewrite !toInt32_small by lia. apply lxor_pow2_small; lia.
Qed.

Lemma bxor_set r m :
  0 ≤ m ≤ 30 → 0 ≤ r < 2 ^ m → bxor (r + 2 ^ m) (2 ^ m) = r.
Proof.
  intros Hm Hr. pose proof (pow2_le_30 m Hm). unfold bxor.
  rewrite !toInt32_small by lia. apply lxor_pow2_set; lia.
Qed.

Lemma sar_1 x : 0 ≤ x < 2 ^ 31 → sar x 1 = x / 2.
Proof.
  intros Hx. unfold sar. rewrite toInt32_small by lia.
  change (1 `mod` 32) with 1. by rewrite Z.shiftr_div_pow2.
Qed.

Lemma shl_1 x : 0 ≤ x < 2 ^ 30 → shl x 1 = 2 * x.
Proof.
  intros Hx. unfold shl. rewrite (toInt32_small x) by lia.
  change (1 `mod` 32) with 1. rewrite Z.shiftl_mul_pow2 by lia.
  rewrite toInt32_small; lia.
Qed.

End Int32.

(* ===================================================================== *)
(** * Bit reversal *)
(* ===================================================================== *)

Section BitReversal.

Lemma pow2_S (m : nat) : 2 ^ Z.of_nat (S m) = 2 * 2 ^ Z.of_nat m.
Proof. rewrite Nat2Z.inj_succ. apply Z.pow_succ_r. lia. Qed.

Lemma pow2_pos (m : nat) : 0 < 2 ^ Z.of_nat m.
Proof. apply Z.pow_pos_nonneg; lia. Qed.

Lemma rev_range m n : 0 ≤ rev m n < 2 ^ Z.of_nat m.
Proof.
  revert n. induction m as [|m IH]; intros n; [simpl; lia|].
  change (rev (S m) n) with ((n `mod` 2) * 2 ^ Z.of_nat m + rev m (n / 2)).
  rewrite pow2_S. specialize (IH (n / 2)). pose proof (pow2_pos m).
  assert (n `mod` 2 = 0 ∨ n `mod` 2 = 1) as [-> | ->] by lia; lia.
Qed.

Lemma rev_0 m : rev m 0 = 0.
Proof.
  induction m as [|m IH]; [done|].
  change (rev (S m) 0) with ((0 `mod` 2) * 2 ^ Z.of_nat m + rev m (0 / 2)).
  change (0 / 2) with 0. rewrite IH. lia.
Qed.

(** A bit put on top of [n] comes out at the bottom. *)
Lemma rev_top m n b :
  0 ≤ n < 2 ^ Z.of_nat m → 0 ≤ b ≤ 1 →
  rev (S m) (n + b * 2 ^ Z.of_nat m) = 2 * rev m n + b.
Proof.
  revert n. induction m as [|m IH]; intros n Hn Hb.
  - simpl in *. assert (n = 0) as -> by lia. lia.
  - change (rev (S (S m)) ?x)
      with ((x `mod` 2) * 2 ^ Z.of_nat (S m) + rev (S m) (x / 2)).
    rewrite pow2_S in *. pose proof (pow2_pos m).
    replace ((n + b * (2 * 2 ^ Z.of_nat m)) / 2)
      with (n / 2 + b * 2 ^ Z.of_nat m) by lia.
    replace ((n + b * (2 * 2 ^ Z.of_nat m)) `mod` 2) with (n `mod` 2) by lia.
    rewrite IH by lia.
    change (rev (S m) n) with ((n `mod` 2) * 2 ^ Z.of_nat m + rev m (n / 2)).
    lia.
Qed.

Lemma rev_involutive m n : 0 ≤ n < 2 ^ Z.of_nat m → rev m (rev m n) = n.
Proof.
  revert n. induction m as [|m IH]; intros n Hn; [simpl in *; lia|].
  rewrite pow2_S in Hn.
  change (rev (S m) n) with ((n `mod` 2) * 2 ^ Z.of_nat m + rev m (n / 2)).
  rewrite Z.add_comm, rev_top by (try apply rev_range; lia).
  rewrite IH by lia. lia.
Qed.

Lemma rev_even m n : rev (S m) (2 * n) = rev m n.
Proof.
  change (rev (S m) (2 * n))
    with (((2 * n) `mod` 2) * 2 ^ Z.of_nat m + rev m (2 * n / 2)).
  replace ((2 * n) `mod` 2) with 0 by lia.
  replace (2 * n / 2) with n by lia. lia.
Qed.

Lemma rev_odd m n : rev (S m) (2 * n + 1) = 2 ^ Z.of_nat m + rev m n.
Proof.
  change (rev (S m) (2 * n + 1))
    with (((2 * n + 1) `mod` 2) * 2 ^ Z.of_nat m + rev m ((2 * n + 1) / 2)).
  replace ((2 * n + 1) `mod` 2) with 1 by lia.
  replace ((2 * n + 1) / 2) with n by lia. lia.
Qed.

(** The carry loop turns the reversal of [n] into the reversal of
    [n + 1], up to the last exclusive-or. *)
Lemma rev_carry_loop (m : nat) : ∀ n fuel,
  Z.of_nat m ≤ 31 → 0 ≤ n → n + 1 < 2 ^ Z.of_nat m → (m < fuel)%nat →
  ∃ j bit,
    while fuel (λ '(j, bit), negb (band j bit =? 0))
      (λ '(j, bit), Some (bxor j bit, sar bit 1))
      (rev m n, 2 ^ Z.of_nat m / 2) = Some (j, bit) ∧
    bxor j bit = rev m (n + 1).
Proof.
  induction m as [|m IH]; intros n fuel Hm Hn Hn1 Hfuel; [simpl in *; lia|].
  rewrite pow2_S in *. pose proof (pow2_pos m) as Hp.
  replace (2 * 2 ^ Z.of_nat m / 2) with (2 ^ Z.of_nat m) by lia.
  destruct fuel as [|fuel]; [lia|].
  pose proof (rev_range m (n / 2)) as Hr.
  assert (n `mod` 2 = 0 ∨ n `mod` 2 = 1) as [Hev | Hodd] by lia.
  - (* the top bit of the counter is clear: the loop stops at once *)
    exists (rev (S m) n), (2 ^ Z.of_nat m). 
    change (rev (S m) n) with ((n `mod` 2) * 2 ^ Z.of_nat m + rev m (n / 2)).
    rewrite Hev, Z.mul_0_l, Z.add_0_l. simpl while.
    rewrite band_clear by lia. simpl. split; [done|].
    rewrite bxor_clear by lia.
    replace ((n + 1) `mod` 2) with 1 by lia.
    replace ((n + 1) / 2) with (n / 2) by lia. lia.
  - (* the top bit is set: it is cleared and the carry moves on *)
    change (rev (S m) n) with ((n `mod` 2) * 2 ^ Z.of_nat m + rev m (n / 2)).
    rewrite Hodd, Z.mul_1_l, Z.add_comm. simpl while.
    rewrite band_set by lia.
    replace (negb (2 ^ Z.of_nat m =? 0)) with true by lia. simpl.
    rewrite bxor_set by lia.
    rewrite sar_1 by (pose proof (pow2_le_30 (Z.of_nat m) ltac:(lia)); lia).
    destruct (IH (n / 2) fuel) as (j & bit & Hrun & Hj); [lia..|].
    exists j, bit. split; [exact Hrun|]. rewrite Hj.
    replace ((n + 1) `mod` 2) with 0 by lia.
    replace ((n + 1) / 2) with (n / 2 + 1) by lia. lia.
Qed.

End BitReversal.

(* ===================================================================== *)
(** * Reading and writing the heap *)
(* ===================================================================== *)

Section HeapProps.

Lemma arr_alter (f : list num → list num) h a b :
  f [] = [] →
  arr (alter f a h) b = if decide (a = b) then f (arr h a) else arr h b.
Proof.
  intros Hf. unfold arr. rewrite list_lookup_alter. case_decide; [|done].
  subst. by destruct (h !! b).
Qed.

Lemma arr_wr h a i v b :
  arr (wr h a i v) b =
    if decide (a = b ∧ 0 ≤ i) then <[Z.to_nat i := v]> (arr h a) else arr h b.
Proof.
  unfold wr. destruct (i <? 0) eqn:E.
  - rewrite decide_False by lia. done.
  - rewrite arr_alter by done. repeat case_decide; try done; lia.
Qed.

Lemma alen_wr h a i v b : alen (wr h a i v) b = alen h b.
Proof.
  unfold alen. rewrite arr_wr. case_decide as H; [|done].
  destruct H as [-> _]. by rewrite length_insert.
Qed.

Lemma length_wr h a i v : length (wr h a i v) = length h.
Proof. unfold wr. destruct (i <? 0); [done|]. apply length_alter. Qed.

Lemma lookup_wr_ne h a i v c : c ≠ a → wr h a i v !! c = h !! c.
Proof.
  intros Hc. unfold wr. destruct (i <? 0); [done|].
  by apply list_lookup_alter_ne.
Qed.

Lemma rd_wr_same h a i v : 0 ≤ i < alen h a → rd (wr h a i v) a i = v.
Proof.
  intros Hi. unfold rd, alen in *. rewrite arr_wr.
  destruct (i <? 0) eqn:E; [lia|]. rewrite decide_True by lia.
  by rewrite list_lookup_insert_eq by lia.
Qed.

Lemma rd_wr_other h a i v b t :
  a ≠ b ∨ i ≠ t → rd (wr h a i v) b t = rd h b t.
Proof.
  intros Hne. unfold rd. rewrite arr_wr. destruct (t <? 0) eqn:E; [done|].
  case_decide as H; [|done]. destruct H as [-> Hi].
  rewrite list_lookup_insert_ne; [done | lia].
Qed.

Lemma rd_in_range h a t : 0 ≤ t < alen h a → ∃ v, arr h a !! Z.to_nat t = Some v ∧ rd h a t = v.
Proof.
  intros Ht. unfold alen, rd in *. destruct (t <? 0) eqn:E; [lia|].
  destruct (arr h a !! Z.to_nat t) eqn:El; [eauto|].
  apply lookup_ge_None in El. lia.
Qed.

(** An array is determined by its length and its reads. *)
Lemma arr_ext h a l :
  alen h a = Z.of_nat (length l) →
  (∀ k : nat, (k < length l)%nat → Some (rd h a (Z.of_nat k)) = l !! k) →
  arr h a = l.
Proof.
  intros Hlen Hrd. apply list_eq. intros k.
  destruct (decide (k < length l)%nat) as [Hk|Hk].
  - rewrite <- Hrd by done.
    destruct (rd_in_range h a (Z.of_nat k)) as (v & Hv & ->); [lia|].
    by rewrite Nat2Z.id in Hv.
  - unfold alen in Hlen. rewrite !(lookup_ge_None_2 _ k); [done | lia | lia].
Qed.

Lemma arr_app_r (h l : list (list num)) (i : nat) :
  arr (h ++ l) (length h + i) = default [] (l !! i).
Proof.
  unfold arr. rewrite lookup_app_r by lia. do 2 f_equal. lia.
Qed.

Lemma arr_app_l (h l : list (list num)) (a : nat) :
  (a < length h)%nat → arr (h ++ l) a = arr h a.
Proof. intros Ha. unfold arr. by rewrite lookup_app_l. Qed.

Lemma same_but_refl h real imag : same_but h h real imag.
Proof. by repeat split. Qed.

Lemma same_but_trans h1 h2 h3 real imag :
  same_but h1 h2 real imag → same_but h2 h3 real imag →
  same_but h1 h3 real imag.
Proof.
  intros (H1 & H2 & H3 & H4) (H1' & H2' & H3' & H4').
  repeat split; try congruence. intros c ? ?. by rewrite H2', H2.
Qed.

Lemma same_but_wr h real imag a i v :
  a = real ∨ a = imag → same_but h (wr h a i v) real imag.
Proof.
  intros Ha. split; [apply length_wr|]. split; [|by rewrite !alen_wr].
  intros c ? ?. apply lookup_wr_ne. destruct Ha; congruence.
Qed.

Lemma same_but_swap h real imag a i j :
  a = real ∨ a = imag → same_but h (swap h a i j) real imag.
Proof.
  intros Ha. unfold swap.
  eapply same_but_trans; apply same_but_wr; exact Ha.
Qed.

(** The two swaps of the permutation loop exchange the complex numbers at
    [i] and [j] and leave the other indices alone. *)
Lemma swap_pair h real imag i j :
  real ≠ imag →
  0 ≤ i < alen h real → 0 ≤ j < alen h real →
  0 ≤ i < alen h imag → 0 ≤ j < alen h imag → i ≠ j →
  let h' := swap (swap h real i j) imag i j in
  (rd h' real i = rd h real j ∧ rd h' imag i = rd h imag j) ∧
  (rd h' real j = rd h real i ∧ rd h' imag j = rd h imag i) ∧
  ∀ t, t ≠ i → t ≠ j →
       rd h' real t = rd h real t ∧ rd h' imag t = rd h imag t.
Proof.
  intros Hne Hi Hj Hi' Hj' Hij. unfold swap. simpl.
  repeat split.
  - rewrite !(rd_wr_other _ imag) by auto.
    rewrite rd_wr_other by auto. by rewrite rd_wr_same.
  - rewrite (rd_wr_other _ imag _ _ imag) by auto.
    rewrite rd_wr_same by (by rewrite !alen_wr).
    by rewrite !(rd_wr_other _ real) by auto.
  - rewrite !(rd_wr_other _ imag) by auto.
    by rewrite rd_wr_same by (by rewrite !alen_wr).
  - rewrite rd_wr_same by (by rewrite !alen_wr).
    by rewrite !(rd_wr_other _ real) by auto.
  - by rewrite !rd_wr_other by auto.
  - by rewrite !rd_wr_other by auto.
Qed.

End HeapProps.

(* ===================================================================== *)
(** * The bit-reverse permutation loop *)
(* ===================================================================== *)

Section Permutation.

Lemma bit_reverse_spec h real imag (L : nat) :
  Z.of_nat L ≤ 30 →
  ∃ h', FFTAnalyzer.bit_reverse h real imag (2 ^ Z.of_nat L) = Some h' ∧
        same_but h h' real imag ∧
        (real ≠ imag → ∀ x, holds h real imag (2 ^ Z.of_nat L) x →
           holds h' real imag (2 ^ Z.of_nat L) (λ t, x (rev L t))).
Proof.
  intros HL.
  assert (0 < 2 ^ Z.of_nat L ≤ 2 ^ 30) as Hlen by (apply pow2_le_30; lia).
  unfold FFTAnalyzer.bit_reverse.
  set (I := λ (i : Z) (st : Z * list (list num)),
    st.1 = rev L (i - 1) ∧ same_but h st.2 real imag ∧
    (real ≠ imag → ∀ x, holds h real imag (2 ^ Z.of_nat L) x →
       ∀ t, 0 ≤ t < (2 ^ Z.of_nat L) →
            holds_at st.2 real imag t (permuted_upto L x i t))).
  edestruct (for_range_rule I 1 (2 ^ Z.of_nat L)) as ([j h'] & -> & Hj & Hsame & Hdata).
  { lia. }
  { intros i [j hc] Hi (Hj & Hsame & Hdata). simpl in Hj, Hsame, Hdata.
    unfold FFTAnalyzer.rev_carry. rewrite sar_1 by lia. subst j.
    destruct (rev_carry_loop L (i - 1) 64) as (j1 & bit1 & -> & Hj1);
      [lia..|].
    replace (i - 1 + 1) with i in Hj1 by lia. simpl. rewrite Hj1.
    eexists. split; [done|]. unfold I. simpl.
    split; [f_equal; lia|].
    pose proof (rev_range L i) as Hr.
    split.
    { destruct (i <? rev L i); [|done].
      eapply same_but_trans; [exact Hsame|].
      eapply same_but_trans; apply same_but_swap; auto. }
    intros Hne x Hx t Ht. specialize (Hdata Hne x Hx).
    destruct Hx as (Hlr & Hli & _). destruct Hsame as (_ & _ & Hlr' & Hli').
    pose proof (rev_involutive L i ltac:(lia)) as Hinv.
    pose proof (rev_range L t) as Hrt.
    pose proof (rev_involutive L t ltac:(lia)) as Hinvt.
    destruct (i <? rev L i) eqn:Hlt.
    - destruct (swap_pair hc real imag i (rev L i)) as (Hi1 & Hi2 & Hother);
        [done | lia..|].
      unfold holds_at, permuted_upto.
      destruct (decide (t = i)) as [->|Hti];
        [|destruct (decide (t = rev L i)) as [->|Htr]].
      + destruct Hi1 as [-> ->]. rewrite decide_True by lia.
        pose proof (Hdata (rev L i) ltac:(lia)) as Hd.
        unfold holds_at, permuted_upto in Hd.
        rewrite Hinv, decide_False in Hd by lia. exact Hd.
      + destruct Hi2 as [-> ->]. rewrite Hinv, decide_True by lia.
        pose proof (Hdata i ltac:(lia)) as Hd.
        unfold holds_at, permuted_upto in Hd.
        rewrite decide_False in Hd by lia. exact Hd.
      + destruct (Hother t Hti Htr) as [-> ->].
        pose proof (Hdata t Ht) as Hd.
        unfold holds_at, permuted_upto in Hd.
        assert (rev L t ≠ i) by (intros E; rewrite E in Hinvt; lia).
        destruct (decide (Z.min t (rev L t) < i)).
        * by rewrite decide_True by lia.
        * by rewrite decide_False by lia.
    - pose proof (Hdata t Ht) as Hd. unfold holds_at, permuted_upto in *.
      destruct (decide (Z.min t (rev L t) < i)).
      + by rewrite decide_True by lia.
      + destruct (decide (Z.min t (rev L t) < i + 1)) as [Hm|]; [|done].
        assert (t = i) as ->.
        { destruct (decide (t = i)); [done|].
          assert (rev L t = i) as E by lia. rewrite E in Hinvt. lia. }
        assert (rev L i = i) as -> by lia. done. }
  { unfold I. simpl. split; [by rewrite rev_0|].
    split; [apply same_but_refl|].
    intros Hne x (Hlr & Hli & Hx) t Ht. unfold permuted_upto.
    case_decide as Hm; [|by apply Hx].
    pose proof (rev_range L t) as Hrt.
    pose proof (rev_involutive L t ltac:(lia)) as Hinvt.
    assert (t = 0) as ->.
    { destruct (decide (t = 0)); [done|].
      assert (rev L t = 0) as E by lia. rewrite E, rev_0 in Hinvt. lia. }
    rewrite rev_0. apply Hx. lia. }
  simpl in *. exists h'. split; [done|]. split; [done|].
  intros Hne x Hx. specialize (Hdata Hne x Hx).
  destruct Hx as (Hlr & Hli & _). destruct Hsame as (_ & _ & Hlr' & Hli').
  split; [congruence|]. split; [congruence|].
  intros t Ht. specialize (Hdata t Ht). unfold permuted_upto in Hdata.
  pose proof (rev_range L t).
  by rewrite decide_True in Hdata by lia.
Qed.

End Permutation.

(* ===================================================================== *)
(** * One butterfly *)
(* ===================================================================== *)

(** Reads through a stack of writes. *)
Ltac rd_simpl :=
  repeat first
    [ rewrite rd_wr_same by (rewrite ?alen_wr; lia)
    | rewrite rd_wr_other by (first [left; congruence | right; lia])
    | rewrite alen_wr ].

Section Butterfly.

Lemma holds_ext h real imag len f g :
  (∀ t, 0 ≤ t < len → f t = g t) →
  holds h real imag len f → holds h real imag len g.
Proof.
  intros Hfg (? & ? & Hf). repeat split; try done.
  all: rewrite <- Hfg by done; by apply Hf.
Qed.

Lemma stage_fn_lo size half f b j :
  size = 2 * half → 0 ≤ j < half →
  stage_fn size f (b * size + j) =
    Cadd (f (b * size + j)) (Cmul (f (b * size + j + half)) (twiddle size j)).
Proof.
  intros -> Hj. unfold stage_fn.
  destruct (div_mod_pair b j (2 * half)) as [_ ->]; [lia|].
  replace (2 * half / 2) with half by lia.
  by replace (j <? half) with true by lia.
Qed.

Lemma stage_fn_hi size half f b j :
  size = 2 * half → 0 ≤ j < half →
  stage_fn size f (b * size + j + half) =
    Csub (f (b * size + j)) (Cmul (f (b * size + j + half)) (twiddle size j)).
Proof.
  intros -> Hj. unfold stage_fn.
  replace (b * (2 * half) + j + half) with (b * (2 * half) + (j + half))
    by lia.
  destruct (div_mod_pair b (j + half) (2 * half)) as [_ ->]; [lia|].
  replace (2 * half / 2) with half by lia.
  replace (j + half <? half) with false by lia.
  by replace (b * (2 * half) + (j + half) - half) with (b * (2 * half) + j)
    by lia; replace (j + half - half) with j by lia.
Qed.

Lemma FFTAnalyzer_butterfly_same h real imag angle half i j :
  same_but h (FFTAnalyzer.butterfly real imag angle half i j h) real imag.
Proof.
  unfold FFTAnalyzer.butterfly.
  repeat (eapply same_but_trans; [|apply same_but_wr; auto]).
  apply same_but_refl.
Qed.

Lemma FFTAnalyzer_butterfly_combines h real imag angle half i j :
  real ≠ imag →
  0 ≤ i + j → i + j + half < alen h real → i + j + half < alen h imag →
  0 < half →
  combines h (FFTAnalyzer.butterfly real imag angle half i j h) real imag
    (i + j) (i + j + half) (cis (angle * IZR j)).
Proof.
  intros Hne Hk Hlr Hli Hhalf ck cl [Hkr Hki] [Hl_r Hl_i].
  unfold FFTAnalyzer.butterfly, holds_at.
  repeat split; rd_simpl; rewrite ?Hkr, ?Hki, ?Hl_r, ?Hl_i; done.
Qed.

(** Bookkeeping for the inner loop: after the butterfly at offset [j] of
    the block starting at [i = b * size], one more pair is combined. *)
Lemma combined_step h h' real imag len size half b j f :
  size = 2 * half → 0 ≤ b → (b + 1) * size ≤ len → 0 ≤ j < half →
  same_but h h' real imag →
  combines h h' real imag (b * size + j) (b * size + j + half)
           (twiddle size j) →
  holds h real imag len
    (λ t, if decide (combined (b * size) half j t)
          then stage_fn size f t else f t) →
  holds h' real imag len
    (λ t, if decide (combined (b * size) half (j + 1) t)
          then stage_fn size f t else f t).
Proof.
  intros Hsize Hb Hfit Hj (_ & _ & Hlr & Hli) Hcomb (Hr & Hi & Hf).
  split; [congruence|]. split; [congruence|]. intros t Ht.
  assert (0 ≤ b * size) by nia.
  destruct (Hcomb (f (b * size + j)) (f (b * size + j + half)))
    as (Hk & Hl & Hother).
  { specialize (Hf (b * size + j) ltac:(nia)).
    rewrite decide_False in Hf by (unfold combined; lia). done. }
  { specialize (Hf (b * size + j + half) ltac:(nia)).
    rewrite decide_False in Hf by (unfold combined; lia). done. }
  destruct (decide (t = b * size + j)) as [->|Hk'];
    [|destruct (decide (t = b * size + j + half)) as [->|Hl']].
  - rewrite decide_True by (unfold combined; lia).
    by rewrite (stage_fn_lo size half).
  - rewrite decide_True by (unfold combined; lia).
    by rewrite (stage_fn_hi size half).
  - specialize (Hf t Ht). unfold holds_at in *.
    destruct (Hother t Hk' Hl') as [-> ->].
    destruct (decide (combined (b * size) half j t)) as [Hc|Hc].
    + by rewrite decide_True by (unfold combined in *; lia).
    + by rewrite decide_False by (unfold combined in *; lia).
Qed.

End Butterfly.

(* ===================================================================== *)
(** * The passes of FFTAnalyzer.fft1D *)
(* ===================================================================== *)

Section AnalyzerPasses.

Lemma FFTAnalyzer_stage_spec h real imag len size half Q :
  size = 2 * half → 0 < half → 0 ≤ Q → len = Q * size → 2 ≤ len →
  ∃ h', FFTAnalyzer.stage real imag len size h = Some h' ∧
        same_but h h' real imag ∧
        (real ≠ imag → ∀ f, holds h real imag len f →
           holds h' real imag len (stage_fn size f)).
Proof.
  intros Hsize Hhalf HQ Hlen Hlen2. unfold FFTAnalyzer.stage.
  replace (size / 2) with half by lia.
  set (I := λ st : Z * list (list num),
    ∃ B, 0 ≤ B ≤ Q ∧ st.1 = B * size ∧ same_but h st.2 real imag ∧
      (real ≠ imag → ∀ f, holds h real imag len f →
         holds st.2 real imag len
           (λ t, if decide (t < st.1) then stage_fn size f t else f t))).
  edestruct (while_rule I (λ st, Z.to_nat ((len - st.1 + 1) / 2)))
    as ([i h'] & -> & (B & HB & Hi & Hsame & Hdata) & Hc).
  - intros [i hc] (B & HB & Hi & Hsame & Hdata) Hc. simpl in *.
    assert (B < Q) as HBQ by nia.
    assert (0 ≤ B * size ∧ (B + 1) * size ≤ len) as [Hlo Hhi] by nia.
    set (J := λ (j : Z) (hj : list (list num)),
      same_but h hj real imag ∧
      (real ≠ imag → ∀ f, holds h real imag len f →
         holds hj real imag len
           (λ t, if decide (combined i half j t)
                 then stage_fn size f t else f t))).
    edestruct (for_range_rule J 0 half) as (hj & -> & Hsj & Hdj).
    { lia. }
    { intros j hj Hj [Hsj Hdj]. eexists. split; [done|]. split.
      - eapply same_but_trans; [exact Hsj|].
        apply FFTAnalyzer_butterfly_same.
      - intros Hne f Hf. specialize (Hdj Hne f Hf). subst i.
        pose proof Hdj as (Har & Hai & _).
        eapply (combined_step hj _ real imag len size half B j);
          [done | lia | lia | lia | apply FFTAnalyzer_butterfly_same |
           | exact Hdj].
        apply FFTAnalyzer_butterfly_combines; [done | lia..]. }
    { split; [done|]. intros Hne f Hf. eapply holds_ext; [|by apply Hdata].
      intros t Ht. simpl.
      destruct (decide (t < i)).
      - by rewrite decide_True by (unfold combined; lia).
      - by rewrite decide_False by (unfold combined; lia). }
    simpl. eexists. split; [done|]. split; [|simpl; lia].
    exists (B + 1). simpl. split; [lia|]. split; [lia|]. split; [done|].
    intros Hne f Hf. eapply holds_ext; [|by apply Hdj].
    intros t Ht. simpl.
    destruct (decide (combined i half half t)) as [Hcb|Hcb].
    + by rewrite decide_True by (unfold combined in *; lia).
    + by rewrite decide_False by (unfold combined in *; lia).
  - exists 0. simpl. split; [lia|]. split; [lia|].
    split; [apply same_but_refl|].
    intros Hne f Hf. eapply holds_ext; [|exact Hf].
    intros t Ht. simpl. by rewrite decide_False by lia.
  - simpl. lia.
  - simpl in *. exists h'. split; [done|]. split; [done|].
    intros Hne f Hf. eapply holds_ext; [|by apply Hdata].
    intros t Ht. simpl. rewrite decide_True; [done | nia].
Qed.

Lemma FFTAnalyzer_stages_spec h real imag (L : nat) :
  (1 ≤ L)%nat →
  ∃ h', FFTAnalyzer.stages h real imag (2 ^ Z.of_nat L) = Some h' ∧
        same_but h h' real imag ∧
        (real ≠ imag → ∀ f, holds h real imag (2 ^ Z.of_nat L) f →
           holds h' real imag (2 ^ Z.of_nat L) (passes L f)).
Proof.
  intros HL. unfold FFTAnalyzer.stages.
  assert (2 ≤ 2 ^ Z.of_nat L) as Hlen2.
  { change 2 with (2 ^ 1) at 1. apply Z.pow_le_mono_r; lia. }
  set (I := λ st : Z * list (list num),
    ∃ m : nat, (m ≤ L)%nat ∧ st.1 = 2 ^ Z.of_nat (S m) ∧
      same_but h st.2 real imag ∧
      (real ≠ imag → ∀ f, holds h real imag (2 ^ Z.of_nat L) f →
         holds st.2 real imag (2 ^ Z.of_nat L) (passes m f))).
  edestruct (while_rule I (λ st, Z.to_nat (2 ^ Z.of_nat L + 1 - st.1)))
    as ([size h'] & -> & (m & Hm & Hsize & Hsame & Hdata) & Hc).
  - intros [size hc] (m & Hm & Hsize & Hsame & Hdata) Hc. simpl in *.
    assert (S m ≤ L)%nat as HmL.
    { apply Nat2Z.inj_le. apply (Z.pow_le_mono_r_iff 2); lia. }
    destruct (FFTAnalyzer_stage_spec hc real imag (2 ^ Z.of_nat L) size
                (2 ^ Z.of_nat m) (2 ^ Z.of_nat (L - S m)))
      as (h' & -> & Hs' & Hd').
    { by rewrite Hsize, pow2_S. }
    { apply pow2_pos. }
    { pose proof (pow2_pos (L - S m)). lia. }
    { rewrite Hsize, <- Z.pow_add_r by lia. f_equal. lia. }
    { done. }
    simpl. eexists. split; [done|]. split.
    + exists (S m). simpl. split; [lia|].
      split; [rewrite Hsize, (pow2_S (S m)); lia|].
      split; [by eapply same_but_trans|].
      intros Hne f Hf. rewrite <- Hsize. by apply Hd', Hdata.
    + simpl. pose proof (pow2_pos (S m)). lia.
  - exists O. simpl. split; [lia|]. split; [done|].
    split; [apply same_but_refl|]. done.
  - simpl. lia.
  - simpl in *. exists h'. split; [done|]. split; [done|].
    assert (m = L) as ->; [|done].
    assert (Z.of_nat L < Z.of_nat (S m)); [|lia].
    apply (Z.pow_lt_mono_r_iff 2); lia.
Qed.

End AnalyzerPasses.

(* ===================================================================== *)
(** * The passes compute the discrete Fourier transform *)
(* ===================================================================== *)

Section FourierMath.

Ltac Ceq :=
  unfold Cadd, Csub, Cmul, C0; apply injective_projections; simpl; ring.

Lemma Csum_n_ext f g n :
  (∀ k, 0 ≤ k < Z.of_nat n → f k = g k) → Csum_n f n = Csum_n g n.
Proof.
  induction n as [|n IH]; intros Hfg; [done|]. simpl.
  rewrite IH, Hfg; [done | lia | intros; apply Hfg; lia].
Qed.

Lemma Csum_n_mul_r f c n :
  Cmul (Csum_n f n) c = Csum_n (λ k, Cmul (f k) c) n.
Proof.
  induction n as [|n IH]; [Ceq|]. simpl. rewrite <- IH. Ceq.
Qed.

Lemma Csum_n_S f n :
  Csum_n f (S n) = Cadd (Csum_n f n) (f (Z.of_nat n)).
Proof. done. Qed.

Lemma Csum_n_even_odd f n :
  Csum_n f (2 * n) =
    Cadd (Csum_n (λ k, f (2 * k)) n) (Csum_n (λ k, f (2 * k + 1)) n).
Proof.
  induction n as [|n IH]; [Ceq|].
  replace (2 * S n)%nat with (S (S (2 * n))) by lia.
  rewrite !Csum_n_S, IH.
  replace (Z.of_nat (2 * n)) with (2 * Z.of_nat n) by lia.
  replace (Z.of_nat (S (2 * n))) with (2 * Z.of_nat n + 1) by lia.
  Ceq.
Qed.

Lemma cis_add a b : cis (a + b) = Cmul (cis a) (cis b).
Proof. unfold cis, Cmul. simpl. rewrite cos_plus, sin_plus. f_equal; ring. Qed.

Lemma cis_0 : cis 0 = (1%R, 0%R).
Proof. unfold cis. by rewrite cos_0, sin_0. Qed.

Lemma cis_turns a (n : nat) : cis (a - 2 * PI * IZR (Z.of_nat n)) = cis a.
Proof.
  unfold cis. rewrite <- INR_IZR_INZ.
  rewrite <- (cos_period (a - 2 * PI * INR n) n).
  rewrite <- (sin_period (a - 2 * PI * INR n) n).
  f_equal; f_equal; ring.
Qed.

Lemma cis_half_turn : cis (- PI) = ((-1)%R, 0%R).
Proof.
  unfold cis. rewrite cos_neg, sin_neg, cos_PI, sin_PI. f_equal; ring.
Qed.

Lemma dft_ext x x' N k :
  (∀ n, 0 ≤ n < N → x n = x' n) → dft x N k = dft x' N k.
Proof.
  intros Hx. unfold dft, Csum. apply Csum_n_ext. intros n Hn.
  rewrite Hx; [done | lia].
Qed.

(** The radix-2 splitting of a transform of even length, lower half. *)
Lemma dft_even_odd y M k :
  0 < M →
  dft y (2 * M) k =
    Cadd (dft (λ n, y (2 * n)) M k)
         (Cmul (dft (λ n, y (2 * n + 1)) M k) (twiddle (2 * M) k)).
Proof.
  intros HM. assert (IZR M ≠ 0%R) as HM' by (apply not_0_IZR; lia).
  unfold dft, Csum.
  replace (Z.to_nat (2 * M)) with (2 * Z.to_nat M)%nat by lia.
  rewrite Csum_n_even_odd, Csum_n_mul_r. f_equal.
  - apply Csum_n_ext. intros n Hn. do 2 f_equal.
    rewrite !mult_IZR. field. done.
  - apply Csum_n_ext. intros n Hn. unfold twiddle.
    replace (Cmul (Cmul (y (2 * n + 1))
                     (cis (-2 * PI * IZR k * IZR n / IZR M)))
                  (cis (-2 * PI / IZR (2 * M) * IZR k)))
      with (Cmul (y (2 * n + 1))
              (Cmul (cis (-2 * PI * IZR k * IZR n / IZR M))
                    (cis (-2 * PI / IZR (2 * M) * IZR k)))) by Ceq.
    rewrite <- cis_add. do 2 f_equal.
    rewrite plus_IZR, !mult_IZR. field. done.
Qed.

(** The same for the upper half of the frequencies. *)
Lemma dft_even_odd_hi y M k :
  0 < M →
  dft y (2 * M) (k + M) =
    Csub (dft (λ n, y (2 * n)) M k)
         (Cmul (dft (λ n, y (2 * n + 1)) M k) (twiddle (2 * M) k)).
Proof.
  intros HM. assert (IZR M ≠ 0%R) as HM' by (apply not_0_IZR; lia).
  unfold dft, Csum.
  replace (Z.to_nat (2 * M)) with (2 * Z.to_nat M)%nat by lia.
  rewrite Csum_n_even_odd.
  replace (Csub (Csum_n (λ n, Cmul (y (2 * n))
                   (cis (-2 * PI * IZR k * IZR n / IZR M))) (Z.to_nat M))
                (Cmul (Csum_n (λ n, Cmul (y (2 * n + 1))
                         (cis (-2 * PI * IZR k * IZR n / IZR M)))
                         (Z.to_nat M))
                      (twiddle (2 * M) k)))
    with (Cadd (Csum_n (λ n, Cmul (y (2 * n))
                   (cis (-2 * PI * IZR k * IZR n / IZR M))) (Z.to_nat M))
               (Cmul (Csum_n (λ n, Cmul (y (2 * n + 1))
                        (cis (-2 * PI * IZR k * IZR n / IZR M)))
                        (Z.to_nat M))
                     (Cmul (twiddle (2 * M) k) ((-1)%R, 0%R)))) by Ceq.
  rewrite Csum_n_mul_r. f_equal.
  - apply Csum_n_ext. intros n Hn. f_equal.
    rewrite <- (cis_turns (-2 * PI * IZR k * IZR n / IZR M) (Z.to_nat n)).
    f_equal. rewrite Z2Nat.id, plus_IZR, !mult_IZR by lia. field. done.
  - apply Csum_n_ext. intros n Hn. unfold twiddle.
    rewrite <- cis_half_turn, <- !cis_add.
    replace (Cmul (Cmul (y (2 * n + 1))
                     (cis (-2 * PI * IZR k * IZR n / IZR M)))
                  (cis (-2 * PI / IZR (2 * M) * IZR k + - PI)))
      with (Cmul (y (2 * n + 1))
              (Cmul (cis (-2 * PI * IZR k * IZR n / IZR M))
                    (cis (-2 * PI / IZR (2 * M) * IZR k + - PI)))) by Ceq.
    rewrite <- cis_add. f_equal.
    rewrite <- (cis_turns (-2 * PI * IZR k * IZR n / IZR M +
                           (-2 * PI / IZR (2 * M) * IZR k + - PI))
                  (Z.to_nat n)).
    f_equal. rewrite Z2Nat.id, !plus_IZR, !mult_IZR by lia. field. done.
Qed.

(** After the passes up to size [2 ^ m], each block of [2 ^ m] elements
    holds the transform of the block it started from, taken in
    bit-reversed order. *)
Lemma passes_blocks (m : nat) : ∀ f b k,
  0 ≤ k < 2 ^ Z.of_nat m →
  passes m f (b * 2 ^ Z.of_nat m + k) =
    dft (λ n, f (b * 2 ^ Z.of_nat m + rev m n)) (2 ^ Z.of_nat m) k.
Proof.
  induction m as [|m IH]; intros f b k Hk.
  - change (2 ^ Z.of_nat 0) with 1 in *. assert (k = 0) as -> by lia.
    unfold dft, Csum. simpl.
    replace (-2 * PI * 0 * IZR (Z.of_nat 0) / 1)%R with 0%R
      by (simpl; field).
    rewrite cis_0. Ceq.
  - pose proof (pow2_pos m) as Hp. rewrite pow2_S in Hk.
    change (passes (S m) f) with (stage_fn (2 ^ Z.of_nat (S m)) (passes m f)).
    rewrite (pow2_S m).
    destruct (decide (k < 2 ^ Z.of_nat m)) as [Hlo|Hhi].
    + rewrite (stage_fn_lo _ (2 ^ Z.of_nat m)) by lia.
      replace (b * (2 * 2 ^ Z.of_nat m) + k)
        with (2 * b * 2 ^ Z.of_nat m + k) by lia.
      replace (2 * b * 2 ^ Z.of_nat m + k + 2 ^ Z.of_nat m)
        with ((2 * b + 1) * 2 ^ Z.of_nat m + k) by lia.
      rewrite !IH by lia. rewrite dft_even_odd by done. f_equal; [|f_equal].
      * apply dft_ext. intros n Hn. rewrite rev_even. f_equal. lia.
      * apply dft_ext. intros n Hn. rewrite rev_odd. f_equal. lia.
    + replace (b * (2 * 2 ^ Z.of_nat m) + k)
        with (b * (2 * 2 ^ Z.of_nat m) + (k - 2 ^ Z.of_nat m)
              + 2 ^ Z.of_nat m) by lia.
      rewrite (stage_fn_hi _ (2 ^ Z.of_nat m)) by lia.
      replace (b * (2 * 2 ^ Z.of_nat m) + (k - 2 ^ Z.of_nat m))
        with (2 * b * 2 ^ Z.of_nat m + (k - 2 ^ Z.of_nat m)) by lia.
      replace (2 * b * 2 ^ Z.of_nat m + (k - 2 ^ Z.of_nat m)
               + 2 ^ Z.of_nat m)
        with ((2 * b + 1) * 2 ^ Z.of_nat m + (k - 2 ^ Z.of_nat m)) by lia.
      rewrite !IH by lia.
      match goal with |- _ = dft ?y ?N k =>
        replace (dft y N k)
          with (dft y N (k - 2 ^ Z.of_nat m + 2 ^ Z.of_nat m))
          by (f_equal; lia)
      end.
      rewrite dft_even_odd_hi by done. f_equal; [|f_equal].
      * apply dft_ext. intros n Hn. rewrite rev_even. f_equal. lia.
      * apply dft_ext. intros n Hn. rewrite rev_odd. f_equal. lia.
Qed.

(** Bit reversal followed by all the passes is the transform. *)
Lemma passes_rev_dft (L : nat) x t :
  0 ≤ t < 2 ^ Z.of_nat L →
  passes L (λ t, x (rev L t)) t = dft x (2 ^ Z.of_nat L) t.
Proof.
  intros Ht. replace t with (0 * 2 ^ Z.of_nat L + t) at 1 by lia.
  rewrite passes_blocks by done. apply dft_ext. intros n Hn.
  rewrite Z.mul_0_l, Z.add_0_l. by rewrite rev_involutive.
Qed.

End FourierMath.

(* ===================================================================== *)
(** * FFTAnalyzer.fft1D *)
(* ===================================================================== *)

Section AnalyzerFFT.

(** The padding loop stops at the least power of two that is at least
    [N]. *)
Lemma paddedN_of_spec N :
  2 ≤ N → FFTAnalyzer.paddedN_of N = Some (2 ^ Z.log2_up N).
Proof.
  intros HN. unfold FFTAnalyzer.paddedN_of.
  edestruct (while_rule
    (λ p, ∃ e, 0 ≤ e ∧ p = 2 ^ e ∧ (e = 0 ∨ 2 ^ (e - 1) < N))
    (λ p, Z.to_nat (N - p)) (λ p, p <? N) (λ p, Some (p * 2)))
    as (p & -> & (e & He & Hp & Hprev) & Hc).
  - intros p (e & He & -> & Hprev) Hc. eexists. split; [done|].
    pose proof (Z.pow_pos_nonneg 2 e ltac:(lia) He).
    split; [|lia]. exists (e + 1). split; [lia|].
    split; [rewrite Z.pow_add_r by lia; lia|].
    right. replace (e + 1 - 1) with e by lia. lia.
  - exists 0. split; [lia|]. split; [done|]. by left.
  - lia.
  - f_equal. subst p. f_equal. symmetry.
    destruct Hprev as [-> | Hprev]; [simpl in Hc; lia|].
    assert (0 < e).
    { destruct (decide (e = 0)) as [->|]; [simpl in Hc; lia | lia]. }
    apply Z.log2_up_unique; [lia|]. unfold Z.pred.
    replace (e + -1) with (e - 1) by lia. lia.
Qed.

Lemma log2_up_pow2 (L : nat) : Z.log2_up (2 ^ Z.of_nat L) = Z.of_nat L.
Proof. apply Z.log2_up_pow2. lia. Qed.

(** The part of [fft1D] after the padding: permutation and passes. *)
Lemma fft_core_spec h real imag (L : nat) :
  (1 ≤ L)%nat → Z.of_nat L ≤ 30 →
  ∃ h1 h2,
    FFTAnalyzer.bit_reverse h real imag (2 ^ Z.of_nat L) = Some h1 ∧
    FFTAnalyzer.stages h1 real imag (2 ^ Z.of_nat L) = Some h2 ∧
    same_but h h2 real imag ∧
    (real ≠ imag → ∀ x, holds h real imag (2 ^ Z.of_nat L) x →
       holds h2 real imag (2 ^ Z.of_nat L) (dft x (2 ^ Z.of_nat L))).
Proof.
  intros HL1 HL.
  destruct (bit_reverse_spec h real imag L HL) as (h1 & Hrun1 & Hs1 & Hd1).
  destruct (FFTAnalyzer_stages_spec h1 real imag L HL1)
    as (h2 & Hrun2 & Hs2 & Hd2).
  exists h1, h2. split; [done|]. split; [done|].
  split; [by eapply same_but_trans|].
  intros Hne x Hx. eapply holds_ext; [|by apply Hd2, Hd1].
  intros t Ht. simpl. by apply passes_rev_dft.
Qed.

(** For a length that is a power of two, at least 2, [fft1D] works in
    place: it returns the arrays it was given, which then hold the
    transform of what they held. *)
Lemma FFTAnalyzer_fft1D_pow2 h real imag (L : nat) :
  (1 ≤ L)%nat → Z.of_nat L ≤ 30 → alen h real = 2 ^ Z.of_nat L →
  ∃ h', FFTAnalyzer.fft1D h real imag = Some (h', (real, imag)) ∧
        same_but h h' real imag ∧
        (real ≠ imag → ∀ x, holds h real imag (2 ^ Z.of_nat L) x →
           holds h' real imag (2 ^ Z.of_nat L) (dft x (2 ^ Z.of_nat L))).
Proof.
  intros HL1 HL Hlen.
  assert (2 ≤ 2 ^ Z.of_nat L) as Hlen2.
  { change 2 with (2 ^ 1) at 1. apply Z.pow_le_mono_r; lia. }
  destruct (fft_core_spec h real imag L HL1 HL)
    as (h1 & h2 & Hrun1 & Hrun2 & Hsame & Hdata).
  unfold FFTAnalyzer.fft1D. rewrite Hlen.
  replace (2 ^ Z.of_nat L <=? 1) with false by lia.
  rewrite paddedN_of_spec, log2_up_pow2 by done. simpl.
  rewrite Z.eqb_refl. simpl. rewrite Hlen, Hrun1. simpl. rewrite Hrun2.
  simpl. rewrite Z.eqb_refl. eauto.
Qed.

End AnalyzerFFT.

(* ===================================================================== *)
(** * The passes of PhotoEditor.fft1D *)
(* ===================================================================== *)

Section EditorPasses.

Lemma PhotoEditor_bit_reverse_eq h real imag N :
  PhotoEditor.bit_reverse h real imag N =
  FFTAnalyzer.bit_reverse h real imag N.
Proof. done. Qed.

Lemma PhotoEditor_butterfly_same h real imag wr wi wlr wli len i j :
  same_but h (PhotoEditor.butterfly real imag wlr wli len i j (wr, wi, h)).2
    real imag.
Proof.
  unfold PhotoEditor.butterfly. simpl.
  repeat (eapply same_but_trans; [|apply same_but_wr; auto]).
  apply same_but_refl.
Qed.

(** The twiddle factor carried by the inner loop is advanced by the
    angle of the pass. *)
Lemma PhotoEditor_butterfly_twiddle h real imag angle len i j :
  (PhotoEditor.butterfly real imag
     (Num (Rtrigo_def.cos angle)) (Num (Rtrigo_def.sin angle)) len i j
     (Num (Rtrigo_def.cos (angle * IZR j)),
      Num (Rtrigo_def.sin (angle * IZR j)), h)).1 =
  (Num (Rtrigo_def.cos (angle * IZR (j + 1))),
   Num (Rtrigo_def.sin (angle * IZR (j + 1)))).
Proof.
  unfold PhotoEditor.butterfly. simpl.
  replace (angle * IZR (j + 1))%R with (angle * IZR j + angle)%R
    by (rewrite plus_IZR; ring).
  rewrite cos_plus, sin_plus. do 2 f_equal; ring.
Qed.

Lemma PhotoEditor_butterfly_combines h real imag wlr wli w len half i j :
  real ≠ imag → len = 2 * half → 0 < half →
  0 ≤ i + j → i + j + half < alen h real → i + j + half < alen h imag →
  combines h
    (PhotoEditor.butterfly real imag wlr wli len i j (Num w.1, Num w.2, h)).2
    real imag (i + j) (i + j + half) w.
Proof.
  intros Hne -> Hhalf Hk Hlr Hli ck cl [Hkr Hki] [Hl_r Hl_i].
  unfold PhotoEditor.butterfly, holds_at. simpl.
  replace (2 * half / 2) with half by lia.
  repeat split; rd_simpl; rewrite ?Hkr, ?Hki, ?Hl_r, ?Hl_i; done.
Qed.

Lemma PhotoEditor_stage_spec h real imag N len half Q :
  len = 2 * half → 0 < half → 0 ≤ Q → N = Q * len → 2 ≤ N →
  ∃ h', PhotoEditor.stage real imag N len h = Some h' ∧
        same_but h h' real imag ∧
        (real ≠ imag → ∀ f, holds h real imag N f →
           holds h' real imag N (stage_fn len f)).
Proof.
  intros Hsize Hhalf HQ Hlen Hlen2. unfold PhotoEditor.stage.
  replace (len / 2) with half by lia.
  set (angle := (-2 * PI / IZR len)%R).
  set (I := λ st : Z * list (list num),
    ∃ B, 0 ≤ B ≤ Q ∧ st.1 = B * len ∧ same_but h st.2 real imag ∧
      (real ≠ imag → ∀ f, holds h real imag N f →
         holds st.2 real imag N
           (λ t, if decide (t < st.1) then stage_fn len f t else f t))).
  edestruct (while_rule I (λ st, Z.to_nat ((N - st.1 + 1) / 2)))
    as ([i h'] & -> & (B & HB & Hi & Hsame & Hdata) & Hc).
  - intros [i hc] (B & HB & Hi & Hsame & Hdata) Hc. simpl in *.
    assert (B < Q) as HBQ by nia.
    assert (0 ≤ B * len ∧ (B + 1) * len ≤ N) as [Hlo Hhi] by nia.
    set (J := λ (j : Z) (st : num * num * list (list num)),
      st.1 = (Num (Rtrigo_def.cos (angle * IZR j)),
              Num (Rtrigo_def.sin (angle * IZR j))) ∧
      same_but h st.2 real imag ∧
      (real ≠ imag → ∀ f, holds h real imag N f →
         holds st.2 real imag N
           (λ t, if decide (combined i half j t)
                 then stage_fn len f t else f t))).
    edestruct (for_range_rule J 0 half) as ([[w_r w_i] hj] & -> & Hw & Hsj & Hdj).
    { lia. }
    { intros j [[w_r w_i] hj] Hj (Hw & Hsj & Hdj). simpl in Hw, Hsj, Hdj.
      injection Hw as -> ->.
      eexists. split; [done|]. split; [|split].
      - apply PhotoEditor_butterfly_twiddle.
      - eapply same_but_trans; [exact Hsj|].
        apply PhotoEditor_butterfly_same.
      - intros Hne f Hf. specialize (Hdj Hne f Hf). subst i.
        pose proof Hdj as (Har & Hai & _).
        eapply (combined_step hj _ real imag N len half B j);
          [done | lia | lia | lia | apply PhotoEditor_butterfly_same |
           | exact Hdj].
        apply (PhotoEditor_butterfly_combines hj real imag _ _
                 (cis (angle * IZR j)) len half); [done | done | lia..]. }
    { split; [|split; [done|]].
      - simpl. rewrite Rmult_0_r. by rewrite cos_0, sin_0.
      - intros Hne f Hf. eapply holds_ext; [|by apply Hdata].
        intros t Ht. simpl.
        destruct (decide (t < i)).
        + by rewrite decide_True by (unfold combined; lia).
        + by rewrite decide_False by (unfold combined; lia). }
    simpl. eexists. split; [done|]. split; [|simpl; lia].
    exists (B + 1). simpl in *. split; [lia|]. split; [lia|]. split; [done|].
    intros Hne f Hf. eapply holds_ext; [|by apply Hdj].
    intros t Ht. simpl.
    destruct (decide (combined i half half t)) as [Hcb|Hcb].
    + by rewrite decide_True by (unfold combined in *; lia).
    + by rewrite decide_False by (unfold combined in *; lia).
  - exists 0. simpl. split; [lia|]. split; [lia|].
    split; [apply same_but_refl|].
    intros Hne f Hf. eapply holds_ext; [|exact Hf].
    intros t Ht. simpl. by rewrite decide_False by lia.
  - simpl. lia.
  - simpl in *. exists h'. split; [done|]. split; [done|].
    intros Hne f Hf. eapply holds_ext; [|by apply Hdata].
    intros t Ht. simpl. rewrite decide_True; [done | nia].
Qed.

Lemma PhotoEditor_stages_spec h real imag (L : nat) :
  (1 ≤ L)%nat → Z.of_nat L ≤ 29 →
  ∃ h', PhotoEditor.stages h real imag (2 ^ Z.of_nat L) = Some h' ∧
        same_but h h' real imag ∧
        (real ≠ imag → ∀ f, holds h real imag (2 ^ Z.of_nat L) f →
           holds h' real imag (2 ^ Z.of_nat L) (passes L f)).
Proof.
  intros HL HL29. unfold PhotoEditor.stages.
  assert (2 ≤ 2 ^ Z.of_nat L) as Hlen2.
  { change 2 with (2 ^ 1) at 1. apply Z.pow_le_mono_r; lia. }
  assert (2 ^ Z.of_nat L ≤ 2 ^ 29) as Hlen29
    by (apply Z.pow_le_mono_r; lia).
  set (I := λ st : Z * list (list num),
    ∃ m : nat, (m ≤ L)%nat ∧ st.1 = 2 ^ Z.of_nat (S m) ∧
      same_but h st.2 real imag ∧
      (real ≠ imag → ∀ f, holds h real imag (2 ^ Z.of_nat L) f →
         holds st.2 real imag (2 ^ Z.of_nat L) (passes m f))).
  edestruct (while_rule I (λ st, Z.to_nat (2 ^ Z.of_nat L + 1 - st.1)))
    as ([size h'] & -> & (m & Hm & Hsize & Hsame & Hdata) & Hc).
  - intros [size hc] (m & Hm & Hsize & Hsame & Hdata) Hc. simpl in *.
    assert (S m ≤ L)%nat as HmL.
    { apply Nat2Z.inj_le. apply (Z.pow_le_mono_r_iff 2); lia. }
    destruct (PhotoEditor_stage_spec hc real imag (2 ^ Z.of_nat L) size
                (2 ^ Z.of_nat m) (2 ^ Z.of_nat (L - S m)))
      as (h' & -> & Hs' & Hd').
    { by rewrite Hsize, pow2_S. }
    { apply pow2_pos. }
    { pose proof (pow2_pos (L - S m)). lia. }
    { rewrite Hsize, <- Z.pow_add_r by lia. f_equal. lia. }
    { done. }
    simpl. rewrite shl_1 by lia. eexists. split; [done|]. split.
    + exists (S m). simpl. split; [lia|].
      split; [rewrite Hsize, (pow2_S (S m)); lia|].
      split; [by eapply same_but_trans|].
      intros Hne f Hf. rewrite <- Hsize. by apply Hd', Hdata.
    + simpl. pose proof (pow2_pos (S m)). lia.
  - exists O. simpl. split; [lia|]. split; [done|].
    split; [apply same_but_refl|]. done.
  - simpl. lia.
  - simpl in *. exists h'. split; [done|]. split; [done|].
    assert (m = L) as ->; [|done].
    assert (Z.of_nat L < Z.of_nat (S m)); [|lia].
    apply (Z.pow_lt_mono_r_iff 2); lia.
Qed.

End EditorPasses.

(* ===================================================================== *)
(** * fft1D computes the transform *)
(* ===================================================================== *)

Section Transform.

(** For a length that is a power of two, at least 2, [PhotoEditor.fft1D]
    transforms the arrays it was given in place and returns copies. *)
Lemma PhotoEditor_fft1D_pow2 h real imag (L : nat) :
  (1 ≤ L)%nat → Z.of_nat L ≤ 29 → alen h real = 2 ^ Z.of_nat L →
  (imag < length h)%nat →
  ∃ h2, PhotoEditor.fft1D h real imag =
          Some (h2 ++ [arr h2 real] ++ [arr h2 imag],
                (length h, S (length h))) ∧
        same_but h h2 real imag ∧
        (real ≠ imag → ∀ x, holds h real imag (2 ^ Z.of_nat L) x →
           holds h2 real imag (2 ^ Z.of_nat L) (dft x (2 ^ Z.of_nat L))).
Proof.
  intros HL1 HL Hlen Himag.
  assert (2 ≤ 2 ^ Z.of_nat L) as Hlen2.
  { change 2 with (2 ^ 1) at 1. apply Z.pow_le_mono_r; lia. }
  destruct (bit_reverse_spec h real imag L ltac:(lia))
    as (h1 & Hrun1 & Hs1 & Hd1).
  destruct (PhotoEditor_stages_spec h1 real imag L HL1 HL)
    as (h2 & Hrun2 & Hs2 & Hd2).
  exists h2. split; [|split].
  - unfold PhotoEditor.fft1D. rewrite Hlen.
    replace (2 ^ Z.of_nat L <=? 1) with false by lia.
    rewrite PhotoEditor_bit_reverse_eq, Hrun1. simpl. rewrite Hrun2. simpl.
    unfold new_copy, alloc, arr. rewrite length_app. simpl.
    destruct Hs1 as (Hl1 & _), Hs2 as (Hl2 & _).
    rewrite lookup_app_l by lia.
    rewrite <- app_assoc. do 3 f_equal; lia.
  - by eapply same_but_trans.
  - intros Hne x Hx. eapply holds_ext; [|by apply Hd2, Hd1].
    intros t Ht. simpl. by apply passes_rev_dft.
Qed.

Lemma holds_of_lists h real imag xr xi :
  h !! real = Some (Num <$> xr) → h !! imag = Some (Num <$> xi) →
  length xi = length xr →
  holds h real imag (Z.of_nat (length xr)) (seq_of xr xi).
Proof.
  intros Hr Hi Hlen. unfold holds, holds_at, alen, rd, arr, seq_of.
  rewrite Hr, Hi. simpl. rewrite !length_fmap, Hlen.
  split; [done|]. split; [done|]. intros t Ht.
  replace (t <? 0) with false by lia. rewrite !list_lookup_fmap.
  destruct (xr !! Z.to_nat t) eqn:Er.
  2: { apply lookup_ge_None in Er. lia. }
  destruct (xi !! Z.to_nat t) eqn:Ei; [done|].
  apply lookup_ge_None in Ei. lia.
Qed.

Lemma lists_of_holds h real imag xr xi :
  holds h real imag (Z.of_nat (length xr))
    (dft (seq_of xr xi) (Z.of_nat (length xr))) →
  arr h real = dft_real xr xi ∧ arr h imag = dft_imag xr xi.
Proof.
  intros (Hr & Hi & Hf). unfold dft_real, dft_imag.
  split; apply arr_ext.
  all: rewrite ?length_fmap, ?length_seqZ, ?Nat2Z.id; try done.
  all: intros k Hk; rewrite lookup_fmap_seqZ, decide_True by lia.
  all: destruct (Hf (Z.of_nat k) ltac:(lia)) as [E1 E2].
  all: by rewrite ?E1, ?E2.
Qed.

(** The transform of a single element is that element. *)
Lemma dft_singleton a b :
  dft_real [a] [b] = [Num a] ∧ dft_imag [a] [b] = [Num b].
Proof.
  unfold dft_real, dft_imag, dft, Csum, seq_of. simpl.
  replace (-2 * PI * IZR (Z.of_nat 0 + 0) * IZR (Z.of_nat 0) /
           IZR (Z.of_nat 1))%R with 0%R by (simpl; field).
  rewrite cos_0, sin_0. split; do 2 f_equal; ring.
Qed.

(** C1. For two distinct arrays of 2^L finite numbers each, L at most 29,
    [fft1D] (the one of [FFTAnalyzer] and the one of [PhotoEditor])
    returns, and the arrays it returns hold the forward, unnormalised
    discrete Fourier transform of the input: entry [k] is the sum over
    [n] of [input[n] * e^{-2 pi i k n / N}], with no scaling by [1/N]
    (in real arithmetic). *)
Theorem fft1D_dft (h : heap) (real imag : loc) (xr xi : list R) (L : nat) :
  real ≠ imag →
  h !! real = Some (Num <$> xr) → h !! imag = Some (Num <$> xi) →
  Z.of_nat (length xr) = 2 ^ Z.of_nat L → length xi = length xr →
  Z.of_nat L ≤ 29 →
  (∃ h' real' imag',
     FFTAnalyzer.fft1D h real imag = Some (h', (real', imag')) ∧
     arr h' real' = dft_real xr xi ∧ arr h' imag' = dft_imag xr xi) ∧
  (∃ h' real' imag',
     PhotoEditor.fft1D h real imag = Some (h', (real', imag')) ∧
     arr h' real' = dft_real xr xi ∧ arr h' imag' = dft_imag xr xi).
Proof.
  intros Hne Hr Hi Hlen Hleni HL.
  pose proof (holds_of_lists h real imag xr xi Hr Hi Hleni) as Hx.
  assert (alen h real = 2 ^ Z.of_nat L) as Halen.
  { unfold alen, arr. rewrite Hr. simpl. by rewrite length_fmap. }
  destruct L as [|L].
  - (* a single element: returned as it is *)
    change (2 ^ Z.of_nat 0) with 1 in *.
    destruct xr as [|a [|]]; simpl in Hlen; try lia.
    destruct xi as [|b [|]]; simpl in Hleni; try lia.
    destruct (dft_singleton a b) as [Er Ei].
    assert (arr h real = [Num a] ∧ arr h imag = [Num b]) as [Har Hai].
    { unfold arr. by rewrite Hr, Hi. }
    split; exists h, real, imag.
    + unfold FFTAnalyzer.fft1D. rewrite Halen. simpl.
      by rewrite Er, Ei.
    + unfold PhotoEditor.fft1D. rewrite Halen. simpl.
      by rewrite Er, Ei.
  - rewrite Hlen in Hx. split.
    + destruct (FFTAnalyzer_fft1D_pow2 h real imag (S L))
        as (h' & Hrun & _ & Hd); [lia | lia | done |].
      exists h', real, imag. split; [done|].
      apply lists_of_holds. rewrite Hlen. by apply Hd.
    + destruct (PhotoEditor_fft1D_pow2 h real imag (S L))
        as (h2 & Hrun & (Hl2 & _) & Hd); [lia | lia | done | |].
      { apply lookup_lt_is_Some. eauto. }
      eexists _, _, _. split; [exact Hrun|].
      specialize (Hd Hne _ Hx).
      rewrite <- Hlen in Hd. apply lists_of_holds in Hd as [Hdr Hdi].
      rewrite <- Hl2.
      pose proof (arr_app_r h2 ([arr h2 real] ++ [arr h2 imag]) 0) as E0.
      pose proof (arr_app_r h2 ([arr h2 real] ++ [arr h2 imag]) 1) as E1.
      rewrite Nat.add_0_r in E0. rewrite Nat.add_1_r in E1.
      by rewrite E0, E1.
Qed.

Lemma fft1D_dft_witness :
  (∃ h' real' imag',
     FFTAnalyzer.fft1D [[Num 1; Num 1]; [Num 0; Num 0]] 0%nat 1%nat
       = Some (h', (real', imag')) ∧
     arr h' real' = dft_real [1%R; 1%R] [0%R; 0%R] ∧
     arr h' imag' = dft_imag [1%R; 1%R] [0%R; 0%R]) ∧
  (∃ h' real' imag',
     PhotoEditor.fft1D [[Num 1; Num 1]; [Num 0; Num 0]] 0%nat 1%nat
       = Some (h', (real', imag')) ∧
     arr h' real' = dft_real [1%R; 1%R] [0%R; 0%R] ∧
     arr h' imag' = dft_imag [1%R; 1%R] [0%R; 0%R]).
Proof.
  apply (fft1D_dft [[Num 1; Num 1]; [Num 0; Num 0]] 0%nat 1%nat
           [1%R; 1%R] [0%R; 0%R] 1%nat);
    [lia | reflexivity | reflexivity | reflexivity | reflexivity
    | simpl; lia].
Defined.

End Transform.

(* ===================================================================== *)
(** * fft1D on a length that is not a power of two *)
(* ===================================================================== *)

Section Padding.

Lemma length_zero_padded a P :
  Z.of_nat (length a) ≤ P → Z.of_nat (length (zero_padded a P)) = P.
Proof.
  intros Ha. unfold zero_padded. rewrite length_app, length_replicate. lia.
Qed.

Lemma arr_padded_real h real imag P :
  arr (padded_heap h real imag P) (length h) = zero_padded (arr h real) P.
Proof.
  unfold padded_heap.
  pose proof (arr_app_r h ([zero_padded (arr h real) P] ++
                           [zero_padded (arr h imag) P]) 0) as E.
  by rewrite Nat.add_0_r in E.
Qed.

Lemma arr_padded_imag h real imag P :
  arr (padded_heap h real imag P) (S (length h)) = zero_padded (arr h imag) P.
Proof.
  unfold padded_heap.
  pose proof (arr_app_r h ([zero_padded (arr h real) P] ++
                           [zero_padded (arr h imag) P]) 1) as E.
  by rewrite Nat.add_1_r in E.
Qed.

Lemma length_padded_heap h real imag P :
  length (padded_heap h real imag P) = S (S (length h)).
Proof. unfold padded_heap. rewrite length_app. simpl. lia. Qed.

Lemma set_from_new (h : list (list num)) (l : list (list num)) src P :
  (src < length h)%nat → alen h src ≤ P →
  set_from (h ++ replicate (Z.to_nat P) (Num 0) :: l) (length h) src =
    Some (h ++ zero_padded (arr h src) P :: l).
Proof.
  intros Hsrc Hlen. unfold set_from, alen in *.
  rewrite arr_app_l by done.
  replace (length h) with (length h + 0)%nat at 1 by lia.
  rewrite arr_app_r. simpl. rewrite length_replicate.
  replace (length (arr h src) <=? Z.to_nat P)%nat with true
    by (symmetry; apply Nat.leb_le; lia).
  f_equal. replace (length h) with (length h + 0)%nat at 1 by lia.
  rewrite alter_app_r. simpl. unfold zero_padded.
  by rewrite drop_replicate.
Qed.

(** The two [set] calls of the padding branch. *)
Lemma padding_sets h real imag P :
  (real < length h)%nat → (imag < length h)%nat →
  alen h real ≤ P → alen h imag ≤ P →
  set_from ((h ++ [replicate (Z.to_nat P) (Num 0)]) ++
            [replicate (Z.to_nat P) (Num 0)]) (length h) real
    ≫= (λ h0, set_from h0 (length h + 1) imag)
  = Some (padded_heap h real imag P).
Proof.
  intros Hr Hi Hlr Hli. rewrite <- app_assoc. simpl.
  rewrite set_from_new by done. simpl.
  pose proof (set_from_new (h ++ [zero_padded (arr h real) P]) [] imag P)
    as Hset.
  rewrite length_app in Hset. simpl in Hset.
  rewrite <- !app_assoc in Hset. simpl in Hset.
  rewrite Hset.
  - unfold padded_heap. by rewrite arr_app_l by done.
  - lia.
  - unfold alen in *. by rewrite arr_app_l.
Qed.

(** On a length [N] that is not a power of two, [fft1D] is [fft1D] on
    fresh arrays holding the input followed by zeros up to the next power
    of two, followed by two [slice(0, N)]. *)
Lemma FFTAnalyzer_fft1D_pads h real imag :
  2 ≤ alen h real ≤ 2 ^ 30 →
  2 ^ Z.log2_up (alen h real) ≠ alen h real →
  alen h imag ≤ 2 ^ Z.log2_up (alen h real) →
  (real < length h)%nat → (imag < length h)%nat →
  ∃ h2,
    FFTAnalyzer.fft1D
      (padded_heap h real imag (2 ^ Z.log2_up (alen h real)))
      (length h) (S (length h)) = Some (h2, (length h, S (length h))) ∧
    same_but (padded_heap h real imag (2 ^ Z.log2_up (alen h real))) h2
      (length h) (S (length h)) ∧
    FFTAnalyzer.fft1D h real imag =
      Some (h2 ++ [take (Z.to_nat (alen h real)) (arr h2 (length h))]
               ++ [take (Z.to_nat (alen h real)) (arr h2 (S (length h)))],
            (S (S (length h)), S (S (S (length h))))).
Proof.
  intros HN Hnp Himag Hr Hi.
  set (N := alen h real) in *.
  assert (N = Z.of_nat (length (arr h real))) as HNlen by done.
  assert (1 ≤ Z.log2_up N ≤ 30) as He.
  { split; [|apply Z.log2_up_le_pow2; lia].
    enough (0 < Z.log2_up N) by lia. apply Z.log2_up_pos. lia. }
  set (L := Z.to_nat (Z.log2_up N)).
  assert (Z.log2_up N = Z.of_nat L) as HeL by lia.
  rewrite HeL in *. set (P := 2 ^ Z.of_nat L) in *.
  assert (N < P) as HNP.
  { pose proof (Z.log2_up_spec N ltac:(lia)) as Hspec.
    rewrite HeL in Hspec. fold P in Hspec. lia. }
  set (h1 := padded_heap h real imag P).
  assert (alen h1 (length h) = P) as Hpr.
  { unfold alen, h1. rewrite arr_padded_real.
    apply length_zero_padded. lia. }
  destruct (fft_core_spec h1 (length h) (S (length h)) L)
    as (ha & h2 & Hrun1 & Hrun2 & Hsame & _); [lia | lia |].
  fold P in Hrun1, Hrun2.
  assert (FFTAnalyzer.paddedN_of P = Some P) as HpadP.
  { unfold P. rewrite paddedN_of_spec, log2_up_pow2; [done|]. fold P. lia. }
  assert (FFTAnalyzer.paddedN_of N = Some P) as HpadN.
  { rewrite paddedN_of_spec, HeL by lia. done. }
  exists h2. split; [|split; [done|]].
  - unfold FFTAnalyzer.fft1D. rewrite Hpr.
    replace (P <=? 1) with false by lia.
    rewrite HpadP. simpl. rewrite Z.eqb_refl. simpl. rewrite Hpr, Hrun1.
    simpl. rewrite Hrun2. simpl. by rewrite Z.eqb_refl.
  - unfold FFTAnalyzer.fft1D. fold N.
    replace (N <=? 1) with false by lia.
    rewrite HpadN. simpl.
    replace (negb (P =? N)) with true by lia.
    unfold new_zeros, alloc. rewrite length_app. simpl.
    pose proof (padding_sets h real imag P Hr Hi ltac:(fold N; lia) Himag)
      as Hpad.
    destruct (set_from _ (length h) real) as [hA|]; [|done].
    simpl in Hpad |- *. rewrite Hpad. simpl. fold h1.
    replace (length h + 1)%nat with (S (length h)) by lia.
    rewrite Hpr, Hrun1. simpl. rewrite Hrun2. simpl.
    replace (N =? P) with false by lia.
    unfold slice0, alloc. rewrite length_app. simpl.
    destruct Hsame as (Hl2 & _).
    assert (length h2 = S (S (length h))) as Hl2'.
    { rewrite Hl2. unfold h1, padded_heap. rewrite length_app. simpl. lia. }
    rewrite arr_app_l by lia. rewrite <- app_assoc. simpl.
    do 2 f_equal. f_equal; lia.
Qed.

End Padding.

(* ===================================================================== *)
(** * Which arrays fft1D returns, and what it leaves alone *)
(* ===================================================================== *)

(** Evaluation of a call on a concrete heap, up to the real arithmetic. *)
Ltac js_eval :=
  cbv -[Rplus Rminus Rmult Ropp Rinv Rdiv IZR PI Rtrigo_def.cos
        Rtrigo_def.sin R_sqrt.sqrt ln Zfloor Zceil Rlt_dec Req_dec_T Rle_dec
        Rmin Rmax].

Section Aliasing.

(** C6 as stated does not hold: the returned arrays need not be new, and
    the arrays given need not stay as they were. On [real = [1, 1]],
    [imag = [0, 0]], [FFTAnalyzer.fft1D] returns the two arrays it was
    given, and they now hold [[2, 0]] and [[0, 0]];
    [PhotoEditor.fft1D] returns two new arrays, having overwritten the
    ones it was given; on arrays of one element both return the arrays
    they were given. *)
Lemma fft1D_fresh_counterexample :
  FFTAnalyzer.fft1D [[Num 1; Num 1]; [Num 0; Num 0]] 0%nat 1%nat =
    Some ([[Num 2; Num 0]; [Num 0; Num 0]], (0%nat, 1%nat)) ∧
  PhotoEditor.fft1D [[Num 1; Num 1]; [Num 0; Num 0]] 0%nat 1%nat =
    Some ([[Num 2; Num 0]; [Num 0; Num 0]; [Num 2; Num 0]; [Num 0; Num 0]],
          (2%nat, 3%nat)) ∧
  FFTAnalyzer.fft1D [[Num 7]; [Num 0]] 0%nat 1%nat =
    Some ([[Num 7]; [Num 0]], (0%nat, 1%nat)) ∧
  PhotoEditor.fft1D [[Num 7]; [Num 0]] 0%nat 1%nat =
    Some ([[Num 7]; [Num 0]], (0%nat, 1%nat)).
Proof.
  split; [|split; [|split; reflexivity]].
  - js_eval. rewrite Rmult_0_r, cos_0, sin_0.
    repeat (f_equal; try lra).
  - js_eval. repeat (f_equal; try lra).
Qed.

(** C6, as the code has it. For valid array locations and [N] the length
    of [real]:
    - for [N ≤ 1], [fft1D] returns the two arrays it was given, and the
      heap is as it was;
    - for [2 ≤ N ≤ 2^30] not a power of two (and [imag] no longer than
      the padded length), [FFTAnalyzer.fft1D] returns two newly allocated
      arrays of length [N], and every array that existed before the call,
      the two inputs included, is as it was;
    - for [N = 2^L], [1 ≤ L ≤ 29], the work is done in the two arrays
      given: [FFTAnalyzer.fft1D] returns these same arrays,
      [PhotoEditor.fft1D] returns newly allocated copies of them; nothing
      else is allocated and no other array is changed. *)
Theorem fft1D_aliasing (h : heap) (real imag : loc) :
  (real < length h)%nat → (imag < length h)%nat →
  (alen h real ≤ 1 →
     FFTAnalyzer.fft1D h real imag = Some (h, (real, imag)) ∧
     PhotoEditor.fft1D h real imag = Some (h, (real, imag))) ∧
  (2 ≤ alen h real ≤ 2 ^ 30 →
   2 ^ Z.log2_up (alen h real) ≠ alen h real →
   alen h imag ≤ 2 ^ Z.log2_up (alen h real) →
     ∃ h', FFTAnalyzer.fft1D h real imag =
             Some (h', (S (S (length h)), S (S (S (length h))))) ∧
           (∀ a, (a < length h)%nat → h' !! a = h !! a) ∧
           alen h' (S (S (length h))) = alen h real ∧
           alen h' (S (S (S (length h)))) = alen h real) ∧
  (∀ L : nat, (1 ≤ L)%nat → Z.of_nat L ≤ 29 → alen h real = 2 ^ Z.of_nat L →
     (∃ h', FFTAnalyzer.fft1D h real imag = Some (h', (real, imag)) ∧
            same_but h h' real imag) ∧
     (∃ h2, PhotoEditor.fft1D h real imag =
              Some (h2 ++ [arr h2 real] ++ [arr h2 imag],
                    (length h, S (length h))) ∧
            same_but h h2 real imag)).
Proof.
  intros Hr Hi. split; [|split].
  - intros HN. unfold FFTAnalyzer.fft1D, PhotoEditor.fft1D.
    by replace (alen h real <=? 1) with true by lia.
  - intros HN Hnp Himag.
    destruct (FFTAnalyzer_fft1D_pads h real imag HN Hnp Himag Hr Hi)
      as (h2 & _ & (Hl2 & Hframe & Hlr & Hli) & Hrun).
    eexists. split; [exact Hrun|].
    rewrite length_padded_heap in Hl2.
    pose proof (Z.log2_up_spec (alen h real) ltac:(lia)) as [_ HNP].
    assert (alen (padded_heap h real imag (2 ^ Z.log2_up (alen h real)))
              (length h) = 2 ^ Z.log2_up (alen h real)) as Hpr.
    { unfold alen at 1. rewrite arr_padded_real.
      by apply length_zero_padded. }
    assert (alen (padded_heap h real imag (2 ^ Z.log2_up (alen h real)))
              (S (length h)) = 2 ^ Z.log2_up (alen h real)) as Hpi.
    { unfold alen at 1. rewrite arr_padded_imag.
      by apply length_zero_padded. }
    rewrite Hpr in Hlr. rewrite Hpi in Hli. unfold alen at 1 in Hlr.
    unfold alen at 1 in Hli.
    pose proof (arr_app_r h2
      ([take (Z.to_nat (alen h real)) (arr h2 (length h))] ++
       [take (Z.to_nat (alen h real)) (arr h2 (S (length h)))])) as E.
    pose proof (E 0%nat) as E0. pose proof (E 1%nat) as E1.
    rewrite Hl2, Nat.add_0_r in E0. rewrite Hl2, Nat.add_1_r in E1.
    split; [|split].
    + intros a Ha. rewrite lookup_app_l by lia.
      rewrite Hframe by lia. unfold padded_heap. by rewrite lookup_app_l.
    + unfold alen at 1. rewrite E0. simpl. rewrite length_take. lia.
    + unfold alen at 1. rewrite E1. simpl. rewrite length_take. lia.
  - intros L HL1 HL HN. split.
    + destruct (FFTAnalyzer_fft1D_pow2 h real imag L) as (h' & ? & ? & _);
        [lia..| done |]. eauto.
    + destruct (PhotoEditor_fft1D_pow2 h real imag L) as (h2 & ? & ? & _);
        [lia..| done | done |]. eauto.
Qed.

Lemma fft1D_aliasing_witness :
  ∃ h', FFTAnalyzer.fft1D [[Num 1; Num 2; Num 3]; [Num 0; Num 0; Num 0]]
          0%nat 1%nat = Some (h', (4%nat, 5%nat)) ∧
        (∀ a, (a < 2)%nat →
              h' !! a = [[Num 1; Num 2; Num 3]; [Num 0; Num 0; Num 0]] !! a) ∧
        alen h' 4 = 3 ∧ alen h' 5 = 3.
Proof.
  apply (proj1 (proj2
    (fft1D_aliasing [[Num 1; Num 2; Num 3]; [Num 0; Num 0; Num 0]]
       0%nat 1%nat ltac:(simpl; lia) ltac:(simpl; lia))));
    vm_compute; [split | |]; congruence.
Defined.

End Aliasing.

(* ===================================================================== *)
(** * Padding to a power of two *)
(* ===================================================================== *)

Section PaddedTransform.

Lemma holds_of_arrs h real imag xr xi :
  arr h real = Num <$> xr → arr h imag = Num <$> xi →
  length xi = length xr →
  holds h real imag (Z.of_nat (length xr)) (seq_of xr xi).
Proof.
  intros Hr Hi Hlen. unfold holds, holds_at, alen, rd, seq_of.
  rewrite Hr, Hi. rewrite !length_fmap, Hlen.
  split; [done|]. split; [done|]. intros t Ht.
  replace (t <? 0) with false by lia. rewrite !list_lookup_fmap.
  destruct (xr !! Z.to_nat t) eqn:Er.
  2: { apply lookup_ge_None in Er. lia. }
  destruct (xi !! Z.to_nat t) eqn:Ei; [done|].
  apply lookup_ge_None in Ei. lia.
Qed.

(** FFTAnalyzer.fft1D on a length [N] that is not a power of two: the
    arrays returned are new, have [N] elements, and hold the first [N]
    entries of the transform of the input followed by zeros up to
    [P = 2 ^ ⌈log2 N⌉] elements. *)
Lemma FFTAnalyzer_fft1D_padded_dft h real imag xr xi :
  h !! real = Some (Num <$> xr) → h !! imag = Some (Num <$> xi) →
  length xi = length xr →
  2 ≤ Z.of_nat (length xr) ≤ 2 ^ 30 →
  2 ^ Z.log2_up (Z.of_nat (length xr)) ≠ Z.of_nat (length xr) →
  let pad := replicate
    (Z.to_nat (2 ^ Z.log2_up (Z.of_nat (length xr))) - length xr) 0%R in
  ∃ h' real' imag',
    FFTAnalyzer.fft1D h real imag = Some (h', (real', imag')) ∧
    (length h ≤ real')%nat ∧ (length h ≤ imag')%nat ∧
    arr h' real' = take (length xr) (dft_real (xr ++ pad) (xi ++ pad)) ∧
    arr h' imag' = take (length xr) (dft_imag (xr ++ pad) (xi ++ pad)) ∧
    length (arr h' real') = length xr ∧ length (arr h' imag') = length xr.
Proof.
  intros Hr Hi Hleni HN Hnp pad.
  assert (arr h real = Num <$> xr ∧ arr h imag = Num <$> xi) as [Har Hai].
  { unfold arr. by rewrite Hr, Hi. }
  assert (alen h real = Z.of_nat (length xr)) as Hlr.
  { unfold alen. by rewrite Har, length_fmap. }
  assert (alen h imag = Z.of_nat (length xr)) as Hli.
  { unfold alen. by rewrite Hai, length_fmap, Hleni. }
  set (N := Z.of_nat (length xr)) in *.
  pose proof (Z.log2_up_spec N ltac:(lia)) as [_ HNP].
  assert (1 ≤ Z.log2_up N ≤ 30) as He.
  { split; [|apply Z.log2_up_le_pow2; lia].
    enough (0 < Z.log2_up N) by lia. apply Z.log2_up_pos. lia. }
  set (L := Z.to_nat (Z.log2_up N)).
  assert (Z.log2_up N = Z.of_nat L) as HeL by lia.
  assert (real < length h ∧ imag < length h)%nat as [Hrv Hiv].
  { split; apply lookup_lt_is_Some; eauto. }
  destruct (FFTAnalyzer_fft1D_pads h real imag) as (h2 & Hrun1 & Hsame & Hrun);
    [rewrite ?Hlr, ?Hli; done || lia..|].
  rewrite Hlr in Hrun1, Hsame, Hrun.
  set (h1 := padded_heap h real imag (2 ^ Z.log2_up N)) in *.
  destruct (FFTAnalyzer_fft1D_pow2 h1 (length h) (S (length h)) L)
    as (h' & Hrun' & _ & Hdata); [lia | lia | |].
  { unfold alen, h1. rewrite arr_padded_real, <- HeL.
    apply length_zero_padded. fold (alen h real). lia. }
  rewrite Hrun1 in Hrun'. injection Hrun' as <-.
  assert (length (xr ++ pad) = Z.to_nat (2 ^ Z.log2_up N)) as Hlz.
  { rewrite length_app. unfold pad. rewrite length_replicate. lia. }
  specialize (Hdata ltac:(lia) (seq_of (xr ++ pad) (xi ++ pad))).
  rewrite <- HeL in Hdata.
  replace (2 ^ Z.log2_up N) with (Z.of_nat (length (xr ++ pad))) in Hdata
    by lia.
  apply lists_of_holds in Hdata as [Hdr Hdi].
  2: { apply holds_of_arrs.
       - unfold h1. rewrite arr_padded_real, Har. unfold zero_padded, pad.
         by rewrite fmap_app, fmap_replicate, length_fmap.
       - unfold h1. rewrite arr_padded_imag, Hai. unfold zero_padded, pad.
         by rewrite fmap_app, fmap_replicate, length_fmap, Hleni.
       - rewrite !length_app. lia. }
  destruct Hsame as (Hl2 & _). unfold h1 in Hl2.
  rewrite length_padded_heap in Hl2.
  pose proof (arr_app_r h2
    ([take (Z.to_nat N) (arr h2 (length h))] ++
     [take (Z.to_nat N) (arr h2 (S (length h)))])) as E.
  pose proof (E 0%nat) as E0. pose proof (E 1%nat) as E1.
  rewrite Hl2, Nat.add_0_r in E0. rewrite Hl2, Nat.add_1_r in E1.
  eexists _, _, _. split; [exact Hrun|].
  split; [lia|]. split; [lia|].
  rewrite E0, E1. simpl. rewrite Hdr, Hdi. unfold N. rewrite Nat2Z.id.
  split; [done|]. split; [done|].
  unfold dft_real, dft_imag.
  rewrite !length_take, !length_fmap, !length_seqZ. lia.
Qed.

End PaddedTransform.

(* ===================================================================== *)
(** * The visualization buffer *)
(* ===================================================================== *)

Section Visualization.

Lemma ln_1_plus_pos (M : R) : (0 < M)%R → (0 < ln (1 + M))%R.
Proof. intros HM. rewrite <- ln_1. apply ln_increasing; lra. Qed.

Lemma ln_1_plus_nonneg (m : R) : (0 <= m)%R → (0 <= ln (1 + m))%R.
Proof.
  intros [Hm | <-].
  - left. by apply ln_1_plus_pos.
  - rewrite Rplus_0_r, ln_1. lra.
Qed.

Lemma ln_1_plus_le (m1 m2 : R) :
  (0 <= m1 <= m2)%R → (ln (1 + m1) <= ln (1 + m2))%R.
Proof.
  intros [H1 [H2 | ->]]; [|lra]. left. apply ln_increasing; lra.
Qed.

Lemma intensity_Num (m M : R) :
  (0 <= m)%R → (0 < M)%R →
  FFTAnalyzer.intensity (Num m) (Num M) = Num (IZR (intensity_of m M)).
Proof.
  intros Hm HM. unfold FFTAnalyzer.intensity, intensity_of. simpl.
  destruct (Rlt_dec 0 (1 + m)) as [_|Hn]; [|exfalso; apply Hn; lra].
  destruct (Rlt_dec 0 (1 + M)) as [_|Hn]; [|exfalso; apply Hn; lra].
  simpl. pose proof (ln_1_plus_pos M HM).
  destruct (Req_dec_T (ln (1 + M)) 0) as [E|_]; [lra|]. done.
Qed.

Lemma intensity_of_mono (m1 m2 M : R) :
  (0 <= m1 <= m2)%R → (0 < M)%R → intensity_of m1 M ≤ intensity_of m2 M.
Proof.
  intros Hm HM. unfold intensity_of. apply Zfloor_le.
  pose proof (ln_1_plus_pos M HM). pose proof (ln_1_plus_le m1 m2 Hm).
  apply Rmult_le_compat_r; [lra|].
  apply Rmult_le_compat_r; [|done]. left. by apply Rinv_0_lt_compat.
Qed.

Lemma intensity_of_0 (M : R) : intensity_of 0 M = 0.
Proof.
  unfold intensity_of. rewrite Rplus_0_r, ln_1.
  replace (0 / ln (1 + M) * 255)%R with 0%R by (unfold Rdiv; ring).
  apply (ZfloorZ 0).
Qed.

Lemma intensity_of_max (M : R) : (0 < M)%R → intensity_of M M = 255.
Proof.
  intros HM. unfold intensity_of. pose proof (ln_1_plus_pos M HM).
  replace (ln (1 + M) / ln (1 + M) * 255)%R with 255%R by (field; lra).
  apply (ZfloorZ 255).
Qed.

Lemma intensity_of_range (m M : R) :
  (0 <= m <= M)%R → (0 < M)%R → 0 ≤ intensity_of m M ≤ 255.
Proof.
  intros Hm HM. split.
  - rewrite <- (intensity_of_0 M). apply intensity_of_mono; lra.
  - rewrite <- (intensity_of_max M HM). apply intensity_of_mono; lra.
Qed.

Lemma toUint8Clamped_IZR z :
  toUint8Clamped (Num (IZR z)) = Z.max 0 (Z.min 255 z).
Proof. simpl. by rewrite round_half_even_IZR. Qed.

(** The pixel loop fills the buffer pixel by pixel, in raster order. *)
Lemma visualizeFFT_spec h magnitude width height maxMag :
  1 ≤ width → 1 ≤ height →
  ∃ d, FFTAnalyzer.visualizeFFT h magnitude width height maxMag =
         Some (mkImageData width height d) ∧
       Z.of_nat (length d) = 4 * width * height ∧
       ∀ p c, 0 ≤ p < width * height → 0 ≤ c < 4 →
         d !! Z.to_nat (4 * p + c) =
           Some (pixel_byte h magnitude width height maxMag p c).
Proof.
  intros HW HH. unfold FFTAnalyzer.visualizeFFT, createImageData.
  replace ((width =? 0) || (height =? 0)) with false by lia. simpl.
  rewrite !Z.abs_eq by lia.
  set (I := λ (cur : Z) (d : list Z),
    Z.of_nat (length d) = 4 * width * height ∧
    ∀ p c, 0 ≤ p < cur → 0 ≤ c < 4 →
      d !! Z.to_nat (4 * p + c) =
        Some (pixel_byte h magnitude width height maxMag p c)).
  edestruct (for_range_rule (λ y d, I (y * width) d) 0 height)
    as (d & -> & Hlen & Hd).
  { lia. }
  { intros y d0 Hy Hd0. cbv beta.
    edestruct (for_range_rule (λ x d, I (y * width + x) d) 0 width)
      as (d1 & -> & Hd1).
    { lia. }
    { intros x d1 Hx [Hlen1 Hd1]. eexists. split; [done|].
      assert (0 ≤ y * width + x < width * height) as Hp by nia.
      split; [by rewrite !wr8_length|].
      intros p c Hpc Hc. rewrite !wr8_lookup by lia.
      rewrite !wr8_length.
      destruct (decide (p = y * width + x)) as [->|Hne].
      - unfold pixel_byte.
        destruct (div_mod_pair y x width ltac:(lia)) as [-> ->].
        assert (c = 0 ∨ c = 1 ∨ c = 2 ∨ c = 3)
          as [-> | [-> | [-> | ->]]] by lia;
          cbn [Z.eqb Pos.eqb]; repeat case_decide; try lia; try done.
        by rewrite (toUint8Clamped_IZR 255).
      - repeat case_decide; try lia. apply Hd1; lia. }
    { replace (y * width + 0) with (y * width) by lia. exact Hd0. }
    exists d1. split; [done|].
    replace ((y + 1) * width) with (y * width + width) by lia. exact Hd1. }
  { split; [rewrite length_replicate; lia|]. intros; lia. }
  simpl. exists d. split; [done|]. split; [done|].
  intros p c Hp Hc. apply Hd; lia.
Qed.

(** The source index is the destination pixel shifted by half the extent
    in each direction, and lies in the spectrum. *)
Lemma FFTAnalyzer_shifted_index width height x y :
  1 ≤ width → 1 ≤ height → 0 ≤ x < width → 0 ≤ y < height →
  FFTAnalyzer.shifted_index width height x y =
    ((y + height / 2) `mod` height) * width + (x + width / 2) `mod` width ∧
  0 ≤ FFTAnalyzer.shifted_index width height x y < width * height.
Proof.
  intros HW HH Hx Hy. unfold FFTAnalyzer.shifted_index.
  rewrite !Z.rem_mod_nonneg by lia.
  split; [done|].
  pose proof (Z.mod_pos_bound (x + width / 2) width ltac:(lia)).
  pose proof (Z.mod_pos_bound (y + height / 2) height ltac:(lia)).
  nia.
Qed.

(** C5. For a spectrum with maximum [M > 0], [FFTAnalyzer.visualizeFFT]
    returns a [width] x [height] RGBA buffer in which the destination pixel
    [(x, y)] holds, in its R, G and B bytes, the intensity computed from
    the magnitude [m] read at the shifted source index, and 255 in its
    alpha byte. That intensity lies in [0, 255], is 0 when [m] is 0, and
    is nondecreasing in the magnitude. *)
Theorem visualizeFFT_intensity h magnitude width height (M : R) :
  1 ≤ width → 1 ≤ height → (0 < M)%R →
  spectrum_below h magnitude (width * height) M →
  ∃ d, FFTAnalyzer.visualizeFFT h magnitude width height (Num M) =
         Some (mkImageData width height d) ∧
       Z.of_nat (length d) = 4 * width * height ∧
       (∀ x y, 0 ≤ x < width → 0 ≤ y < height →
          ∃ m v,
            rd h magnitude (FFTAnalyzer.shifted_index width height x y) =
              Num m ∧
            FFTAnalyzer.intensity (Num m) (Num M) = Num (IZR v) ∧
            0 ≤ v ≤ 255 ∧ (m = 0%R → v = 0) ∧
            gray_pixel d width x y v) ∧
       (∀ m1 m2 v1 v2, (0 <= m1 <= m2)%R →
          FFTAnalyzer.intensity (Num m1) (Num M) = Num (IZR v1) →
          FFTAnalyzer.intensity (Num m2) (Num M) = Num (IZR v2) →
          v1 ≤ v2).
Proof.
  intros HW HH HM Hspec.
  destruct (visualizeFFT_spec h magnitude width height (Num M) HW HH)
    as (d & Hrun & Hlen & Hd).
  exists d. split; [done|]. split; [done|]. split.
  - intros x y Hx Hy.
    destruct (FFTAnalyzer_shifted_index width height x y HW HH Hx Hy)
      as [_ Hin].
    destruct (Hspec _ Hin) as (m & Hm & Hrange).
    exists m, (intensity_of m M).
    pose proof (intensity_of_range m M Hrange HM) as Hv.
    split; [done|]. split; [apply intensity_Num; lra|].
    split; [done|]. split; [intros ->; apply intensity_of_0|].
    assert (0 ≤ y * width + x < width * height) as Hp by nia.
    assert (∀ c, 0 ≤ c < 3 →
      d !! Z.to_nat (4 * (y * width + x) + c) = Some (intensity_of m M))
      as Hrgb.
    { intros c Hc. rewrite Hd by lia. unfold pixel_byte.
      destruct (div_mod_pair y x width ltac:(lia)) as [-> ->].
      replace (c =? 3) with false by lia.
      rewrite Hm, intensity_Num, toUint8Clamped_IZR by lra.
      f_equal. lia. }
    unfold gray_pixel.
    rewrite <- (Z.add_0_r (4 * (y * width + x))) at 1.
    rewrite !Hrgb by lia. rewrite Hd by lia. done.
  - intros m1 m2 v1 v2 Hm H1 H2.
    rewrite intensity_Num in H1, H2 by lra.
    injection H1 as H1. injection H2 as H2.
    apply eq_IZR in H1, H2. subst v1 v2.
    by apply intensity_of_mono.
Qed.

Lemma visualizeFFT_intensity_witness :
  ∃ d, FFTAnalyzer.visualizeFFT [[Num 4; Num 0; Num 0; Num 0]] 0 2 2 (Num 4) =
         Some (mkImageData 2 2 d) ∧
       gray_pixel d 2 1 1 255 ∧ gray_pixel d 2 0 0 0.
Proof.
  assert (spectrum_below [[Num 4; Num 0; Num 0; Num 0]] 0 (2 * 2) 4)
    as Hspec.
  { intros i Hi.
    assert (i = 0 ∨ i = 1 ∨ i = 2 ∨ i = 3) as [-> | [-> | [-> | ->]]]
      by lia; eexists; (split; [reflexivity | lra]). }
  destruct (visualizeFFT_intensity [[Num 4; Num 0; Num 0; Num 0]] 0%nat
              2 2 4 ltac:(lia) ltac:(lia) ltac:(lra) Hspec)
    as (d & Hrun & _ & Hpix & _).
  exists d. split; [done|].
  destruct (Hpix 1 1 ltac:(lia) ltac:(lia)) as (m1 & v1 & Hm1 & Hv1 & _ & _ & Hd1).
  destruct (Hpix 0 0 ltac:(lia) ltac:(lia)) as (m0 & v0 & Hm0 & _ & _ & Hz & Hd0).
  injection Hm1 as <-. injection Hm0 as <-.
  rewrite intensity_Num, intensity_of_max in Hv1 by lra.
  injection Hv1 as Hv1. apply eq_IZR in Hv1. subst v1.
  rewrite (Hz eq_refl) in Hd0. done.
Defined.

End Visualization.

(* ===================================================================== *)
(** * The transform and the pixel loop of [PhotoEditor] off the
      power-of-two grid *)
(* ===================================================================== *)

Section EditorOddSizes.

(** C2. [PhotoEditor.fft1D] has no padding step: on a row of length 3 it
    runs the butterflies of a length-2 pass over the three entries, reads
    past the end of the arrays and returns [2, 0, NaN] and [0, 0, NaN].
    [FFTAnalyzer.fft1D] on the same row pads to length 4, transforms, and
    returns the first three entries [3, 0, 1] and [0, -1, 0] in two new
    arrays, leaving the row as it was. *)
Theorem PhotoEditor_fft1D_unpadded :
  PhotoEditor.fft1D three_ones 0 1 =
    Some ([[Num 2; Num 0; NaN]; [Num 0; Num 0; NaN];
           [Num 2; Num 0; NaN]; [Num 0; Num 0; NaN]], (2, 3)%nat) ∧
  FFTAnalyzer.fft1D three_ones 0 1 =
    Some ([[Num 1; Num 1; Num 1]; [Num 0; Num 0; Num 0];
           [Num 3; Num 0; Num 1; Num 0]; [Num 0; Num (-1); Num 0; Num 1];
           [Num 3; Num 0; Num 1]; [Num 0; Num (-1); Num 0]], (4, 5)%nat).
Proof.
  split.
  - js_eval. repeat (f_equal; try lra).
  - js_eval.
    replace (-2 * PI / 4 * 1)%R with (- (PI / 2))%R by lra.
    rewrite !Rmult_0_r, ?cos_0, ?sin_0, ?cos_neg, ?sin_neg, ?cos_PI2,
      ?sin_PI2.
    repeat (f_equal; try lra).
Qed.

(** The truncating division behind [%] on two positive numbers whose
    quotient is below one. *)
Lemma trunc_small (r : R) : (0 <= r < 1)%R → PhotoEditor.trunc r = 0.
Proof.
  intros Hr. unfold PhotoEditor.trunc.
  destruct (Rlt_dec r 0) as [?|_]; [lra|].
  apply Zfloor_eq. simpl. lra.
Qed.

(** C4. [PhotoEditor.visualizeFFT] adds [width / 2] and [height / 2]
    without flooring them. For a 3 x 3 spectrum the destination pixel
    (0, 0) reads the source index 6, where the index of the claim, the one
    [FFTAnalyzer.visualizeFFT] reads, is
    ((0 + 3/2) mod 3) * 3 + (0 + 3/2) mod 3 = 4; for a 3 x 2 spectrum the
    source index is 4.5 and the read yields no number. *)
Theorem PhotoEditor_shifted_index_unfloored :
  PhotoEditor.shifted_index 3 3 0 0 = Num 6 ∧
  FFTAnalyzer.shifted_index 3 3 0 0 = 4 ∧
  ((0 + 3 / 2) `mod` 3) * 3 + (0 + 3 / 2) `mod` 3 = 4 ∧
  PhotoEditor.shifted_index 3 2 0 0 = Num (9 / 2) ∧
  ∀ h magnitude,
    PhotoEditor.rd_at h magnitude (PhotoEditor.shifted_index 3 2 0 0) = NaN.
Proof.
  assert (PhotoEditor.shifted_index 3 2 0 0 = Num (9 / 2)) as Hhalf.
  { unfold PhotoEditor.shifted_index, PhotoEditor.rem, ofZ, div, add, mul,
      lift2.
    destruct (Req_dec_T 2 0) as [?|_]; [lra|].
    destruct (Req_dec_T 3 0) as [?|_]; [lra|].
    rewrite !trunc_small by lra. f_equal. lra. }
  split; [|split; [done|split; [done|split; [done|]]]].
  - unfold PhotoEditor.shifted_index, PhotoEditor.rem, ofZ, div, add, mul,
      lift2.
    destruct (Req_dec_T 2 0) as [?|_]; [lra|].
    destruct (Req_dec_T 3 0) as [?|_]; [lra|].
    rewrite !trunc_small by lra. f_equal. lra.
  - intros h magnitude. rewrite Hhalf. unfold PhotoEditor.rd_at.
    replace (Zfloor (9 / 2)) with 4
      by (symmetry; apply Zfloor_eq; simpl; lra).
    destruct (Req_dec_T (9 / 2) 4) as [E|_]; [lra|done].
Qed.

End EditorOddSizes.

(* ===================================================================== *)
(** * The analysis of a white 2 x 2 image *)
(* ===================================================================== *)

Section WhiteImage.

Lemma white_grayscale :
  FFTAnalyzer.to_grayscale [] (mkImageData 2 2 (replicate 16 255)) =
    Some ([[Num 1; Num 1; Num 1; Num 1]], 0%nat).
Proof.
  js_eval. destruct (Req_dec_T 255 0) as [?|_]; [lra|].
  repeat (f_equal; try lra).
Qed.

Lemma white_fft2D :
  FFTAnalyzer.fft2D [[Num 1; Num 1; Num 1; Num 1]] 0 2 2 =
    Some (white_spectrum, (1, 2)%nat).
Proof.
  js_eval. rewrite !Rmult_0_r, ?cos_0, ?sin_0.
  repeat (f_equal; try lra).
Qed.

Lemma white_magnitude :
  FFTAnalyzer.magnitude_spectrum white_spectrum 1 2 2 2 =
    Some (white_spectrum ++ [[Num 4; Num 0; Num 0; Num 0]],
          (11%nat, Num 4)).
Proof.
  js_eval.
  replace (4 * 4 + 0 * 0)%R with (4 * 4)%R by lra.
  replace (0 * 0 + 0 * 0)%R with 0%R by lra.
  rewrite sqrt_0, sqrt_square by lra.
  repeat (match goal with
          | |- context [Rlt_dec ?a ?b] =>
              destruct (Rlt_dec a b) as [?|?]; try lra
          end; cbv beta iota).
  done.
Qed.

Lemma white_pixel_byte p c :
  0 ≤ p < 4 → 0 ≤ c < 4 →
  pixel_byte white_magnitudes 11 2 2 (Num 4) p c =
    if (c =? 3) || (p =? 3) then 255 else 0.
Proof.
  intros Hp Hc. unfold pixel_byte.
  destruct (c =? 3) eqn:Ec; [done|]. simpl.
  assert (p = 0 ∨ p = 1 ∨ p = 2 ∨ p = 3) as [-> | [-> | [-> | ->]]] by lia.
  - change (rd _ _ _) with (Num 0).
    rewrite intensity_Num, intensity_of_0 by lra. apply (toUint8Clamped_IZR 0).
  - change (rd _ _ _) with (Num 0).
    rewrite intensity_Num, intensity_of_0 by lra. apply (toUint8Clamped_IZR 0).
  - change (rd _ _ _) with (Num 0).
    rewrite intensity_Num, intensity_of_0 by lra. apply (toUint8Clamped_IZR 0).
  - change (rd _ _ _) with (Num 4).
    rewrite intensity_Num, intensity_of_max by lra.
    apply (toUint8Clamped_IZR 255).
Qed.

Lemma white_visualization :
  FFTAnalyzer.visualizeFFT white_magnitudes 11 2 2 (Num 4) =
    Some (mkImageData 2 2
            [0; 0; 0; 255;  0; 0; 0; 255;  0; 0; 0; 255;
             255; 255; 255; 255]).
Proof.
  destruct (visualizeFFT_spec white_magnitudes 11%nat 2 2 (Num 4))
    as (d & -> & Hlen & Hd); [lia..|].
  do 2 f_equal. apply list_eq. intros i.
  destruct (decide (i < 16)%nat) as [Hi|Hi].
  - specialize (Hd (Z.of_nat i / 4) (Z.of_nat i `mod` 4)
                  ltac:(lia) ltac:(lia)).
    replace (Z.to_nat (4 * (Z.of_nat i / 4) + Z.of_nat i `mod` 4))
      with i in Hd by lia.
    rewrite Hd, white_pixel_byte by lia.
    do 16 (destruct i as [|i]; [done|]). lia.
  - rewrite !lookup_ge_None_2; [done | simpl; lia | lia].
Qed.

(** The canvas read back as image data. *)
Lemma white_getImageData :
  getImageData white_2x2 0 0 (cwidth white_2x2) (cheight white_2x2) =
    Some (mkImageData 2 2 (replicate 16 255)).
Proof. vm_compute. reflexivity. Qed.

(** A step of a [try] block that has succeeded. *)
Lemma bind_Some {A B : Type} (f : A → option B) (m : option A) (a : A) :
  m = Some a → m ≫= f = f a.
Proof. by intros ->. Qed.

(** C3. On a 2 x 2 canvas that is white everywhere, [computeFFT] yields
    the grayscale field [1, 1, 1, 1], a spectrum whose only non-zero bin
    is the bin (0, 0), equal to 4, the magnitudes [4, 0, 0, 0] with
    maximum 4, and a buffer whose pixel (1, 1) has intensity 255 and whose
    other pixels have intensity 0, every alpha byte being 255. *)
Theorem computeFFT_white_2x2 :
  ∃ h a, FFTAnalyzer.computeFFT [] white_2x2 = Some (h, a) ∧
    arr h (FFTAnalyzer.grayscale a) = [Num 1; Num 1; Num 1; Num 1] ∧
    arr h (FFTAnalyzer.fft_real a) = [Num 4; Num 0; Num 0; Num 0] ∧
    arr h (FFTAnalyzer.fft_imag a) = [Num 0; Num 0; Num 0; Num 0] ∧
    arr h (FFTAnalyzer.magnitude a) = [Num 4; Num 0; Num 0; Num 0] ∧
    FFTAnalyzer.maxMag a = Num 4 ∧
    FFTAnalyzer.fftImageData a =
      mkImageData 2 2
        [0; 0; 0; 255;  0; 0; 0; 255;  0; 0; 0; 255;  255; 255; 255; 255].
Proof.
  exists white_magnitudes,
    (FFTAnalyzer.mkAnalysis 0 1 2 11 (Num 4)
       (mkImageData 2 2
          [0; 0; 0; 255;  0; 0; 0; 255;  0; 0; 0; 255;  255; 255; 255; 255])).
  split; [|by split_and!].
  unfold FFTAnalyzer.computeFFT.
  rewrite (bind_Some _ _ _ white_getImageData). cbv beta iota.
  rewrite (bind_Some _ _ _ white_grayscale). cbv beta iota.
  rewrite (bind_Some _ _ _ white_fft2D). cbv beta iota.
  rewrite (bind_Some _ _ _ white_magnitude). cbv beta iota.
  rewrite (bind_Some _ _ _ white_visualization).
  reflexivity.
Qed.

End WhiteImage.

(* ===================================================================== *)
(** * The crop tool: pointer positions and the drag *)
(* ===================================================================== *)

Section PointerEvents.
Import CropTool.

(** A quotient of a part by a positive whole lies between 0 and 1. *)
Lemma relative_unit (c l w : R) :
  (0 < w)%R → (l <= c <= l + w)%R → (0 <= (c - l) / w <= 1)%R.
Proof.
  intros Hw Hc.
  assert ((c - l) / w * w = c - l)%R as E by (field; lra).
  assert (0 < / w)%R by (by apply Rinv_0_lt_compat).
  split.
  - apply Rmult_le_pos; lra.
  - apply (Rmult_le_reg_r w); [done|]. rewrite E. lra.
Qed.

(** [Math.round] of a number between 0 and an integer [n]. *)
Lemma round_between (v : R) (n : Z) :
  (0 <= v <= IZR n)%R → 0 ≤ Zfloor (v + / 2) ≤ n.
Proof.
  intros Hv. split.
  - apply Zfloor_lub. simpl. lra.
  - pose proof (Zfloor_bound (v + / 2)) as [Hlo _].
    assert (IZR (Zfloor (v + / 2)) < IZR (n + 1))%R as Hlt
      by (rewrite plus_IZR; lra).
    apply lt_IZR in Hlt. lia.
Qed.

(** X1. A pointer position inside the box of the displayed canvas is
    mapped to a point with integer coordinates of the background canvas,
    between 0 and its width and between 0 and its height, both ends
    included. *)
Theorem getEventPosition_in_canvas t rect event (cx cy : R) :
  (0 < rwidth rect)%R → (0 < rheight rect)%R →
  0 ≤ cwidth (bgCanvas t) → 0 ≤ cheight (bgCanvas t) →
  client_point event = Some (cx, cy) →
  (left rect <= cx <= left rect + rwidth rect)%R →
  (top rect <= cy <= top rect + rheight rect)%R →
  ∃ x y, getEventPosition t rect event = Return (Num (IZR x), Num (IZR y)) ∧
         0 ≤ x ≤ cwidth (bgCanvas t) ∧ 0 ≤ y ≤ cheight (bgCanvas t).
Proof.
  intros Hw Hh HW HH Hc Hx Hy. unfold getEventPosition. rewrite Hc.
  simpl.
  destruct (Req_dec_T (rwidth rect) 0) as [?|_]; [lra|].
  destruct (Req_dec_T (rheight rect) 0) as [?|_]; [lra|].
  simpl. eexists _, _. split; [reflexivity|].
  pose proof (relative_unit cx (left rect) (rwidth rect) Hw Hx) as Hrx.
  pose proof (relative_unit cy (top rect) (rheight rect) Hh Hy) as Hry.
  apply IZR_le in HW, HH.
  split; apply round_between; nra.
Qed.

Lemma getEventPosition_in_canvas_witness :
  ∃ x y,
    getEventPosition
      (mkCropTool (mkCanvas 300 200 []) (mkCanvas 600 400 []) false None
         None)
      (mkDomRect 10 20 300 200)
      (mkEvent "touchend" 0 0 [] [mkTouch 160 120]) =
      Return (Num (IZR x), Num (IZR y)) ∧
    0 ≤ x ≤ 600 ∧ 0 ≤ y ≤ 400.
Proof.
  apply (getEventPosition_in_canvas
    (mkCropTool (mkCanvas 300 200 []) (mkCanvas 600 400 []) false None None)
    (mkDomRect 10 20 300 200)
    (mkEvent "touchend" 0 0 [] [mkTouch 160 120]) 160 120);
    simpl; try lra; try lia; reflexivity.
Defined.

End PointerEvents.

Section Drag.
Import CropTool.

(** A move during a drag keeps the press point, the pressed state and the
    background canvas. *)
Lemma handleCropMove_keeps overlay t m p :
  isCropping t = true → cropStart t = Some p →
  isCropping (handleCropMove overlay t (Return m)).2 = true ∧
  cropStart (handleCropMove overlay t (Return m)).2 = Some p ∧
  bgCanvas (handleCropMove overlay t (Return m)).2 = bgCanvas t.
Proof.
  intros Hc Hs. unfold handleCropMove. rewrite Hc, Hs. simpl.
  unfold drawCropOverlay. by destruct (negb (isValidCropArea _)).
Qed.

Lemma after_moves_keeps overlay t ps p :
  isCropping t = true → cropStart t = Some p →
  isCropping (after_moves overlay t ps) = true ∧
  cropStart (after_moves overlay t ps) = Some p ∧
  bgCanvas (after_moves overlay t ps) = bgCanvas t.
Proof.
  revert t. induction ps as [|m ps IH]; intros t Hc Hs; [done|].
  destruct (handleCropMove_keeps overlay t m p Hc Hs) as (Hc' & Hs' & Hb').
  destruct (IH _ Hc' Hs') as (Hc2 & Hs2 & Hb2).
  change (after_moves overlay t (m :: ps))
    with (after_moves overlay (handleCropMove overlay t (Return m)).2 ps).
  by rewrite Hc2, Hs2, Hb2.
Qed.

(** X2. A press at [p], any moves, and a release at [q] leave the crop
    tool with the selection from [p] to [q]: [handleCropEnd] reports
    whether the two points are more than 5 pixels apart in both
    directions, [getCropDimensions] then gives the rectangle they span,
    and the background canvas is the one before the press. *)
Theorem drag_selects overlay t p q ps :
  ∃ t3,
    handleCropEnd
      (after_moves overlay (handleCropStart t (Return p)).2 ps) (Return q) =
      (Return (Some (apart p q)), t3) ∧
    cropStart t3 = Some p ∧ cropEnd t3 = Some q ∧ isCropping t3 = false ∧
    bgCanvas t3 = bgCanvas t ∧
    isValidCropArea t3 = apart p q ∧
    getCropDimensions t3 = if apart p q then Some (spanned p q) else None.
Proof.
  remember (handleCropStart t (Return p)).2 as t1 eqn:E1.
  assert (isCropping t1 = true ∧ cropStart t1 = Some p ∧
          bgCanvas t1 = bgCanvas t) as (Hc1 & Hs1 & Hb1) by (by subst t1).
  clear E1.
  destruct (after_moves_keeps overlay t1 ps p Hc1 Hs1) as (Hc & Hs & Hbg).
  remember (after_moves overlay t1 ps) as t2 eqn:E2. clear E2.
  unfold handleCropEnd. rewrite Hc. simpl.
  assert (∀ t', cropStart t' = Some p → cropEnd t' = Some q →
            isValidCropArea t' = apart p q) as Hvalid.
  { intros t' H1 H2. unfold isValidCropArea. by rewrite H1, H2. }
  eexists. split; [f_equal; f_equal; f_equal; by apply Hvalid|].
  simpl. rewrite Hs, Hbg, Hb1. split_and!; try done.
  unfold getCropDimensions. rewrite Hvalid by done. simpl.
  by destruct (apart p q).
Qed.

(** X3. Moves and releases that no press precedes change nothing in the
    crop tool. *)
Theorem idle_pointer_steps overlay t evs :
  isCropping t = false → foldl (after_step overlay) t evs = t.
Proof.
  intros Hc. induction evs as [|ev evs IH]; [done|]. simpl.
  assert (after_step overlay t ev = t) as ->; [|done].
  destruct ev; simpl.
  - unfold handleCropMove. by rewrite Hc.
  - unfold handleCropEnd. by rewrite Hc.
Qed.

Lemma idle_pointer_steps_witness :
  foldl (after_step (λ _, [])) (crop_tool_example None None)
    [Move (Return (mkPoint 3 4)); Release (Return (mkPoint 30 40))] =
    crop_tool_example None None.
Proof. apply idle_pointer_steps. reflexivity. Defined.

End Drag.

(* ===================================================================== *)
(** * The crop tool: what a crop returns *)
(* ===================================================================== *)

Section CropResult.
Import CropTool.

(** The bytes of the ImageData read from a rectangle with positive
    extents. *)
Lemma getImageData_lookup c sx sy sw sh i j ch :
  0 < sw → 0 < sh → 0 ≤ i < sw → 0 ≤ j < sh → 0 ≤ ch < 4 →
  ∃ img, getImageData c sx sy sw sh = Some img ∧
    wf_ImageData img ∧ Canvas.width img = sw ∧ Canvas.height img = sh ∧
    data img !! Z.to_nat (4 * (j * sw + i) + ch) =
      Some (channel c (sx + i) (sy + j) ch).
Proof.
  intros Hw Hh Hi Hj Hc. unfold getImageData.
  replace ((sw =? 0) || (sh =? 0)) with false by lia.
  rewrite !Z.abs_eq by lia. rewrite !Z.min_l by lia.
  eexists. split; [done|]. simpl.
  split; [|split; [done|split; [done|]]].
  - unfold wf_ImageData. simpl. rewrite length_fmap, length_seqZ. nia.
  - rewrite lookup_fmap_seqZ.
    assert (0 ≤ j * sw + i < sw * sh) by nia.
    rewrite decide_True by (rewrite Z2Nat.id by lia; nia).
    rewrite Z2Nat.id by lia.
    replace ((4 * (j * sw + i) + ch) / 4) with (j * sw + i) by lia.
    replace ((4 * (j * sw + i) + ch) `mod` 4) with ch by lia.
    destruct (div_mod_pair j i sw ltac:(lia)) as [-> ->]. done.
Qed.

(** X4. A crop of a valid selection at least 10 pixels wide and high
    returns an image of the size of the selection whose pixel [(i, j)] is
    the pixel [(x + i, y + j)] of the background canvas before the call
    (transparent black where that lies outside the canvas); both canvases
    take the size of the selection, the background canvas holds the
    returned image, and the selection is cleared, so that a second
    [applyCrop] throws and changes nothing. *)
Theorem applyCrop_pixels (t : crop_tool) (r : rect) :
  getCropDimensions t = Some r → 10 ≤ width r → 10 ≤ height r →
  ∃ img t',
    applyCrop t = (Return img, t') ∧
    wf_ImageData img ∧
    Canvas.width img = width r ∧ Canvas.height img = height r ∧
    (∀ i j ch, 0 ≤ i < width r → 0 ≤ j < height r → 0 ≤ ch < 4 →
       data img !! Z.to_nat (4 * (j * width r + i) + ch) =
         Some (channel (bgCanvas t) (x r + i) (y r + j) ch)) ∧
    cwidth (bgCanvas t') = width r ∧ cheight (bgCanvas t') = height r ∧
    cwidth (canvas t') = width r ∧ cheight (canvas t') = height r ∧
    getImageData (bgCanvas t') 0 0 (width r) (height r) = Some img ∧
    cropStart t' = None ∧ cropEnd t' = None ∧
    applyCrop t' = (Throw "Please select a crop area first.", t').
Proof.
  intros Hr Hw Hh.
  assert (isValidCropArea t = true) as Hv.
  { unfold getCropDimensions in Hr.
    by destruct (isValidCropArea t). }
  destruct r as [rx ry rw rh]. simpl in *.
  destruct (getImageData_lookup (bgCanvas t) rx ry rw rh 0 0 0)
    as (img & Himg & Hwf & Hiw & Hih & _); [lia..|].
  exists img. eexists.
  unfold applyCrop. rewrite Hv, Hr. simpl.
  replace ((rw <? 10) || (rh <? 10)) with false by lia.
  rewrite Himg.
  set (bg := putImageData _ img 0 0).
  assert (getImageData bg 0 0 rw rh = Some img) as Hback.
  { unfold bg. rewrite <- Hiw at 2. rewrite <- Hih at 2.
    apply getImageData_putImageData; [done|simpl; lia..]. }
  change (cwidth bg) with rw. change (cheight bg) with rh.
  rewrite Hback. split; [done|].
  split_and!; try done.
  intros i j ch Hi Hj Hc.
  destruct (getImageData_lookup (bgCanvas t) rx ry rw rh i j ch)
    as (img' & Himg' & _ & _ & _ & Hpix); [lia..|].
  rewrite Himg in Himg'. by injection Himg' as <-.
Qed.

Lemma applyCrop_pixels_witness :
  ∃ img t',
    applyCrop (mkCropTool (mkCanvas 0 0 []) (mkCanvas 20 20 (replicate 1600 7))
                 false (Some (mkPoint 2 3)) (Some (mkPoint 14 15))) =
      (Return img, t') ∧
    Canvas.width img = 12 ∧ Canvas.height img = 12 ∧
    data img !! 0%nat = Some 7 ∧ cropStart t' = None.
Proof.
  destruct (applyCrop_pixels
    (mkCropTool (mkCanvas 0 0 []) (mkCanvas 20 20 (replicate 1600 7))
       false (Some (mkPoint 2 3)) (Some (mkPoint 14 15)))
    (mkRect 2 3 12 12) eq_refl)
    as (img & t' & Hrun & _ & Hw & Hh & Hpix & _ & _ & _ & _ & _ & Hs & _);
    [simpl; lia..|].
  exists img, t'. split; [done|]. split; [done|]. split; [done|].
  split; [|done].
  apply (Hpix 0 0 0); simpl; lia.
Defined.

End CropResult.

(* ===================================================================== *)
(** * The colour settings *)
(* ===================================================================== *)

Section ColourSettings.
Import ColorAdjustments.

Lemma channel_scale_Num adj c p :
  channel_percent adj c = Num p → channel_scale adj c = Num (p / 100).
Proof.
  unfold channel_scale, channel_percent.
  repeat destruct (_ =? _); intros ->; simpl;
    destruct (Req_dec_T 100 0); (done || lra).
Qed.

Lemma channel_scale_NaN adj c :
  channel_percent adj c = NaN → channel_scale adj c = NaN.
Proof.
  unfold channel_scale, channel_percent.
  by repeat destruct (_ =? _); intros ->.
Qed.

Lemma scaled_byte_NaN b : scaled_byte NaN b = 0.
Proof. done. Qed.

Lemma scaled_byte_mono s1 s2 b :
  0 ≤ b → (s1 <= s2)%R → scaled_byte (Num s1) b ≤ scaled_byte (Num s2) b.
Proof.
  intros Hb Hs. rewrite !scaled_byte_Num.
  assert (Zfloor (IZR b * s1 + / 2) ≤ Zfloor (IZR b * s2 + / 2)); [|lia].
  apply Zfloor_le. apply IZR_le in Hb. nra.
Qed.

Lemma scaled_byte_1 b : 0 ≤ b ≤ 255 → scaled_byte (Num 1) b = b.
Proof.
  intros Hb. rewrite scaled_byte_Num.
  replace (Zfloor (IZR b * 1 + / 2)) with b; [lia|].
  symmetry. apply Zfloor_eq. lra.
Qed.

Lemma scaled_byte_nonpos s b : 0 ≤ b → (s <= 0)%R → scaled_byte (Num s) b = 0.
Proof.
  intros Hb Hs. rewrite scaled_byte_Num.
  assert (Zfloor (IZR b * s + / 2) ≤ 0); [|lia].
  assert (Zfloor (IZR b * s + / 2) < 1); [|lia].
  apply lt_IZR. pose proof (Zfloor_bound (IZR b * s + / 2)) as [Hlo _].
  apply IZR_le in Hb. nra.
Qed.

(** The scaled byte of a colour channel, read off the result of the loop. *)
Lemma scale_channels_byte adj d :
  ∃ d', scale_channels adj d = Some d' ∧ length d' = length d ∧
    (∀ k : nat, Z.of_nat k `mod` 4 = 3 → d' !! k = d !! k) ∧
    (∀ (k : nat) b, d !! k = Some b → Z.of_nat k `mod` 4 ≠ 3 →
       d' !! k =
         Some (scaled_byte (channel_scale adj (Z.of_nat k `mod` 4)) b)).
Proof.
  destruct (scale_channels_spec adj d) as (d' & Hrun & Hlen & Hspec).
  exists d'. split; [done|]. split; [done|]. split.
  - intros k Hk. rewrite Hspec. unfold scaled_lookup.
    by replace (Z.of_nat k `mod` 4 =? 3) with true by lia.
  - intros k b Hb Hk. rewrite Hspec. unfold scaled_lookup.
    replace (Z.of_nat k `mod` 4 =? 3) with false by lia.
    by rewrite Hb.
Qed.

(** X5. With the three settings at 100, as the constructor and
    [resetAdjustments] leave them, [applyToImageData] on an image of
    opaque pixels that the canvas holds puts the original image on the
    canvas and returns it unchanged. *)
Theorem applyToImageData_initial (img : ImageData) (bg : canvas) :
  wf_ImageData img → Forall (λ b, 0 ≤ b ≤ 255) (data img) → opaque img →
  width img ≤ cwidth bg → height img ≤ cheight bg →
  applyToImageData initial img bg = Some (putImageData bg img 0 0, img).
Proof.
  intros Hwf Hbytes _ Hcw Hch. pose proof Hwf as (Hw & Hh & Hlen).
  destruct (scale_channels_byte initial (data img))
    as (d' & Hrun & Hlen' & Halpha & Hrgb).
  assert (d' = data img) as ->.
  { apply list_eq. intros k.
    destruct (decide (Z.of_nat k `mod` 4 = 3)) as [Hk|Hk]; [by apply Halpha|].
    destruct (data img !! k) as [b|] eqn:Hb.
    - rewrite (Hrgb k b Hb Hk).
      rewrite (channel_scale_Num initial _ 100)
        by (unfold channel_percent; by repeat destruct (_ =? _)).
      replace (100 / 100)%R with 1%R by lra.
      rewrite scaled_byte_1; [done|].
      rewrite Forall_lookup in Hbytes. by apply (Hbytes k).
    - apply lookup_ge_None. apply lookup_ge_None in Hb. lia. }
  unfold applyToImageData, new_ImageData.
  replace ((0 <? width img) && (0 <? height img) &&
           (Z.of_nat (length (data img)) =? 4 * width img * height img))
    with true by lia.
  simpl. rewrite Hrun. simpl.
  replace (mkImageData (width img) (height img) (data img)) with img
    by (by destruct img).
  by rewrite getImageData_putImageData.
Qed.

Lemma applyToImageData_initial_witness :
  applyToImageData initial opaque_pixel (mkCanvas 1 1 [0; 0; 0; 0]) =
    Some (putImageData (mkCanvas 1 1 [0; 0; 0; 0]) opaque_pixel 0 0,
          opaque_pixel).
Proof.
  apply applyToImageData_initial.
  - unfold wf_ImageData. simpl. lia.
  - unfold opaque_pixel. simpl. repeat constructor; lia.
  - intros k Hk Hlt. unfold opaque_pixel in *. simpl in Hlt.
    assert (k = 3%nat) as -> by lia. reflexivity.
  - simpl. lia.
  - simpl. lia.
Defined.

Lemma channel_scale_setAdjustment adj color v c :
  channel_scale (setAdjustment adj color v) c =
    if decide (colour_offset color = Some (if c =? 0 then 0
                                           else if c =? 1 then 1 else 2))
    then div v (Num 100) else channel_scale adj c.
Proof.
  unfold setAdjustment, colour_offset, channel_scale.
  destruct (String.eqb color "red"), (String.eqb color "green"),
    (String.eqb color "blue"), (c =? 0), (c =? 1);
    simpl; by repeat case_decide.
Qed.

(** X6. [setAdjustment] for one colour changes the bytes of that channel
    only: they become the original bytes scaled by the new value over
    100, and every other byte of the adjusted image is as it was with the
    settings before. A key that is no colour changes nothing. *)
Theorem setAdjustment_one_channel adj color v d :
  ∃ d1 d2,
    scale_channels adj d = Some d1 ∧
    scale_channels (setAdjustment adj color v) d = Some d2 ∧
    (∀ k : nat, colour_offset color ≠ Some (Z.of_nat k `mod` 4) →
       d2 !! k = d1 !! k) ∧
    (∀ (k : nat) b, d !! k = Some b →
       colour_offset color = Some (Z.of_nat k `mod` 4) →
       d2 !! k = Some (scaled_byte (div v (Num 100)) b)).
Proof.
  destruct (scale_channels_byte adj d) as (d1 & Hrun1 & Hlen1 & Ha1 & Hc1).
  destruct (scale_channels_byte (setAdjustment adj color v) d)
    as (d2 & Hrun2 & Hlen2 & Ha2 & Hc2).
  exists d1, d2. split; [done|]. split; [done|].
  assert (∀ c, 0 ≤ c < 3 →
            (if c =? 0 then 0 else if c =? 1 then 1 else 2) = c) as Hoff.
  { intros c Hc. destruct (c =? 0) eqn:?, (c =? 1) eqn:?; lia. }
  assert (∀ c, colour_offset color = Some c → 0 ≤ c < 3) as Hrange.
  { unfold colour_offset. intros c.
    destruct (String.eqb color "red"), (String.eqb color "green"),
      (String.eqb color "blue"); intros [= <-]; lia. }
  split.
  - intros k Hk.
    destruct (decide (Z.of_nat k `mod` 4 = 3)) as [E|E];
      [by rewrite Ha1, Ha2|].
    destruct (d !! k) as [b|] eqn:Hb.
    + rewrite (Hc1 k b Hb E), (Hc2 k b Hb E), channel_scale_setAdjustment.
      rewrite Hoff by lia. by rewrite decide_False.
    + apply lookup_ge_None in Hb.
      rewrite !lookup_ge_None_2; [done|lia..].
  - intros k b Hb Hk. pose proof (Hrange _ Hk).
    rewrite (Hc2 k b Hb) by lia. rewrite channel_scale_setAdjustment.
    rewrite Hoff by lia. by rewrite decide_True.
Qed.

(** X7. In which direction a setting moves a colour byte [b]: a value of
    at most 100 never raises it, a value of at least 100 never lowers it,
    a value of at most 0 gives 0, and so does a setting that is no number
    (the [parseInt] of a text without digits). *)
Theorem scale_channels_direction adj d :
  bytes d →
  ∃ d', scale_channels adj d = Some d' ∧
    ∀ (k : nat) b, d !! k = Some b → Z.of_nat k `mod` 4 ≠ 3 →
      ∃ v, d' !! k = Some v ∧
        (channel_percent adj (Z.of_nat k `mod` 4) = NaN → v = 0) ∧
        ∀ p, channel_percent adj (Z.of_nat k `mod` 4) = Num p →
          ((p <= 0)%R → v = 0) ∧ ((p <= 100)%R → v ≤ b) ∧
          ((100 <= p)%R → b ≤ v).
Proof.
  intros Hbytes.
  destruct (scale_channels_byte adj d) as (d' & Hrun & _ & _ & Hc).
  exists d'. split; [done|]. intros k b Hb Hk.
  unfold bytes in Hbytes. rewrite Forall_lookup in Hbytes.
  pose proof (Hbytes k b Hb) as Hrange.
  eexists. split; [by apply Hc|]. split.
  - intros Hp. by rewrite channel_scale_NaN.
  - intros p Hp. rewrite (channel_scale_Num _ _ p Hp). split_and!.
    + intros Hle. apply scaled_byte_nonpos; [lia|lra].
    + intros Hle. rewrite <- (scaled_byte_1 b) at 2 by done.
      apply scaled_byte_mono; [lia|lra].
    + intros Hle. rewrite <- (scaled_byte_1 b) at 1 by done.
      apply scaled_byte_mono; [lia|lra].
Qed.

Lemma scale_channels_direction_witness :
  ∃ d', scale_channels (mkAdjustments (Num 150) NaN (Num 50))
          [200; 100; 50; 77] = Some d' ∧
        ∃ v, d' !! 1%nat = Some v ∧ v = 0.
Proof.
  destruct (scale_channels_direction (mkAdjustments (Num 150) NaN (Num 50))
              [200; 100; 50; 77]) as (d' & Hrun & Hd).
  { unfold bytes. repeat constructor; lia. }
  exists d'. split; [done|].
  destruct (Hd 1%nat 100 eq_refl ltac:(simpl; lia)) as (v & Hv & Hnan & _).
  exists v. split; [done|]. by apply Hnan.
Defined.

(** X8. A higher setting never gives a lower colour byte. *)
Theorem scale_channels_monotone adj1 adj2 d :
  bytes d →
  ∃ d1 d2,
    scale_channels adj1 d = Some d1 ∧ scale_channels adj2 d = Some d2 ∧
    ∀ (k : nat) p1 p2, (k < length d)%nat → Z.of_nat k `mod` 4 ≠ 3 →
      channel_percent adj1 (Z.of_nat k `mod` 4) = Num p1 →
      channel_percent adj2 (Z.of_nat k `mod` 4) = Num p2 →
      (p1 <= p2)%R →
      ∃ v1 v2, d1 !! k = Some v1 ∧ d2 !! k = Some v2 ∧ v1 ≤ v2.
Proof.
  intros Hbytes.
  destruct (scale_channels_byte adj1 d) as (d1 & Hrun1 & _ & _ & Hc1).
  destruct (scale_channels_byte adj2 d) as (d2 & Hrun2 & _ & _ & Hc2).
  exists d1, d2. split; [done|]. split; [done|].
  intros k p1 p2 Hlt Hk Hp1 Hp2 Hle.
  destruct (lookup_lt_is_Some_2 d k Hlt) as [b Hb].
  unfold bytes in Hbytes. rewrite Forall_lookup in Hbytes.
  pose proof (Hbytes k b Hb) as Hrange.
  eexists _, _. split; [by apply Hc1|]. split; [by apply Hc2|].
  rewrite (channel_scale_Num _ _ p1 Hp1), (channel_scale_Num _ _ p2 Hp2).
  apply scaled_byte_mono; [lia|lra].
Qed.

Lemma scale_channels_monotone_witness :
  ∃ d1 d2,
    scale_channels (mkAdjustments (Num 50) (Num 100) (Num 100))
      [200; 100; 50; 77] = Some d1 ∧
    scale_channels (mkAdjustments (Num 120) (Num 100) (Num 100))
      [200; 100; 50; 77] = Some d2 ∧
    ∃ v1 v2, d1 !! 0%nat = Some v1 ∧ d2 !! 0%nat = Some v2 ∧ v1 ≤ v2.
Proof.
  destruct (scale_channels_monotone
              (mkAdjustments (Num 50) (Num 100) (Num 100))
              (mkAdjustments (Num 120) (Num 100) (Num 100))
              [200; 100; 50; 77]) as (d1 & d2 & Hrun1 & Hrun2 & Hd).
  { unfold bytes. repeat constructor; lia. }
  exists d1, d2. split; [done|]. split; [done|].
  apply (Hd 0%nat 50%R 120%R); simpl; try lia; try done. lra.
Defined.

End ColourSettings.

(* ===================================================================== *)
(** * The size of the displayed canvas *)
(* ===================================================================== *)

Section ViewSize.

(** X9. For a background canvas of positive width and height and a
    container more than 40 pixels wide and high, [scaleCanvasView] sets a
    displayed size that fits the container less its padding, is no larger
    than the canvas, and has the aspect ratio of the canvas; a canvas that
    fits is displayed at its own size, and otherwise the displayed size
    touches the available width or the available height. *)
Theorem scaleCanvasView_fits (bg : canvas) (clientWidth clientHeight : Z) :
  0 < cwidth bg → 0 < cheight bg → 40 < clientWidth → 40 < clientHeight →
  ∃ w h : R,
    ImageProcessor.scaleCanvasView bg clientWidth clientHeight =
      (Num w, Num h) ∧
    (0 < w <= IZR (cwidth bg))%R ∧ (w <= IZR (clientWidth - 40))%R ∧
    (0 < h <= IZR (cheight bg))%R ∧ (h <= IZR (clientHeight - 40))%R ∧
    (w * IZR (cheight bg) = h * IZR (cwidth bg))%R ∧
    (cwidth bg ≤ clientWidth - 40 → cheight bg ≤ clientHeight - 40 →
       w = IZR (cwidth bg) ∧ h = IZR (cheight bg)) ∧
    ((w = IZR (cwidth bg) ∧ h = IZR (cheight bg)) ∨
     w = IZR (clientWidth - 40) ∨ h = IZR (clientHeight - 40)).
Proof.
  intros HW HH Hcw Hch.
  apply IZR_lt in HW, HH, Hcw, Hch.
  unfold ImageProcessor.scaleCanvasView, ofZ.
  rewrite !minus_IZR. cbn [sub lift2].
  set (W := IZR (cwidth bg)) in *. set (H := IZR (cheight bg)) in *.
  set (mw := (IZR clientWidth - 40)%R). set (mh := (IZR clientHeight - 40)%R).
  assert (0 < mw)%R by (unfold mw; lra).
  assert (0 < mh)%R by (unfold mh; lra).
  assert (0 < W / H)%R as Hasp by (by apply Rdiv_lt_0_compat).
  assert (W / H * H = W)%R as Easp by (field; lra).
  assert (∀ a b : Z, a ≤ b → (IZR a <= IZR b)%R) as Hle
    by (intros; by apply IZR_le).
  assert (∀ w h : R,
    (0 < w <= W)%R → (w <= mw)%R → (0 < h <= H)%R → (h <= mh)%R →
    (w * H = h * W)%R →
    ((w = W ∧ h = H) ∨ w = mw ∨ h = mh) →
    (0 < w <= W)%R ∧ (w <= mw)%R ∧ (0 < h <= H)%R ∧ (h <= mh)%R ∧
    (w * H = h * W)%R ∧
    (cwidth bg ≤ clientWidth - 40 → cheight bg ≤ clientHeight - 40 →
       w = W ∧ h = H) ∧
    ((w = W ∧ h = H) ∨ w = mw ∨ h = mh)) as Hpack.
  { intros w h Hw1 Hw2 Hh1 Hh2 Hasp' Hcase. split_and!; try done; try lra.
    intros Hfw Hfh. apply IZR_le in Hfw, Hfh. rewrite minus_IZR in Hfw, Hfh.
    fold W H mw mh in Hfw, Hfh.
    destruct Hcase as [[-> ->] | [-> | ->]]; [done | split; nra..]. }
  unfold gt, div.
  destruct (Req_dec_T H 0) as [?|_]; [lra|].
  destruct (Rlt_dec mw W) as [Hwide|Hwide].
  - destruct (Req_dec_T (W / H) 0) as [?|_]; [lra|].
    assert (mw / (W / H) * W = mw * H)%R as E1 by (field; lra).
    assert (0 < mw / (W / H))%R by (by apply Rdiv_lt_0_compat).
    destruct (Rlt_dec mh (mw / (W / H))) as [Htall|Htall].
    + eexists _, _. split; [done|].
      assert (mh * (W / H) * H = mh * W)%R as E2 by (field; lra).
      apply Hpack; first [nra | by right; right].
    + eexists _, _. split; [done|].
      apply Hpack; first [nra | by right; left].
  - destruct (Rlt_dec mh H) as [Htall|Htall].
    + eexists _, _. split; [done|].
      assert (mh * (W / H) * H = mh * W)%R as E2 by (field; lra).
      apply Hpack; first [nra | by right; right].
    + eexists _, _. split; [done|].
      apply Hpack; first [nra | by left].
Qed.

Lemma scaleCanvasView_fits_witness :
  ∃ w h : R,
    ImageProcessor.scaleCanvasView (mkCanvas 800 600 []) 440 640 =
      (Num w, Num h) ∧
    (w <= 400)%R ∧ (h <= 600)%R ∧ (w * 600 = h * 800)%R.
Proof.
  destruct (scaleCanvasView_fits (mkCanvas 800 600 []) 440 640)
    as (w & h & Hrun & _ & Hw & _ & Hh & Hasp & _); [simpl; lia..|].
  exists w, h. simpl in *. rewrite minus_IZR in Hw, Hh.
  split; [done|]. split; [lra|]. split; [lra|done].
Defined.

End ViewSize.

(* ===================================================================== *)
(** * The steps of computeFFT around the transform *)
(* ===================================================================== *)

Section Grayscale.

Lemma wr_alloc (h : list (list num)) g i v :
  0 ≤ i → wr (h ++ [g]) (length h) i v = h ++ [<[Z.to_nat i := v]> g].
Proof.
  intros Hi. unfold wr. destruct (i <? 0) eqn:E; [lia|].
  rewrite <- (Nat.add_0_r (length h)). by rewrite alter_app_r.
Qed.

Lemma rd_alloc_old (h : list (list num)) g a i :
  (a < length h)%nat → rd (h ++ [g]) a i = rd h a i.
Proof. intros Ha. unfold rd. by rewrite arr_app_l. Qed.

Lemma rd_alloc_new (h : list (list num)) g i :
  rd (h ++ [g]) (length h) i =
    if i <? 0 then NaN else default NaN (g !! Z.to_nat i).
Proof.
  unfold rd. rewrite <- (Nat.add_0_r (length h)). by rewrite arr_app_r.
Qed.

(** A byte of a well-formed buffer, read as a number. *)
Lemma rd8_byte d i b : 0 ≤ i → d !! Z.to_nat i = Some b → rd8 d i = Num (IZR b).
Proof.
  intros Hi Hb. unfold rd8. destruct (i <? 0) eqn:E; [lia|]. by rewrite Hb.
Qed.

(** The weights of the three colours add up to one. *)
Lemma luminance_unit (r g b : Z) :
  0 ≤ r ≤ 255 → 0 ≤ g ≤ 255 → 0 ≤ b ≤ 255 →
  (0 <= (0.299 * IZR r + 0.587 * IZR g + 0.114 * IZR b) / 255 <= 1)%R.
Proof.
  intros Hr Hg Hb.
  assert (∀ z, 0 ≤ z ≤ 255 → (0 <= IZR z <= 255)%R) as Hz.
  { intros z [H1 H2]. split; [by apply (IZR_le 0)|by apply (IZR_le z 255)]. }
  apply Hz in Hr, Hg, Hb. lra.
Qed.

(** The grayscale loop fills one new array with the grayscale values of
    the pixels. *)
Lemma to_grayscale_spec (h : heap) (img : ImageData) :
  wf_ImageData img →
  ∃ gs, FFTAnalyzer.to_grayscale h img = Some (h ++ [gs], length h) ∧
    Z.of_nat (length gs) = width img * height img ∧
    ∀ i, 0 ≤ i < width img * height img →
      gs !! Z.to_nat i = Some (Num (luminance (data img) i)).
Proof.
  intros (HW & HH & Hlen).
  unfold FFTAnalyzer.to_grayscale, new_zeros, alloc.
  set (n := width img * height img).
  assert (0 ≤ n) by (unfold n; nia).
  edestruct (for_range_rule
    (λ i h', ∃ gs, h' = h ++ [gs] ∧ Z.of_nat (length gs) = n ∧
       ∀ k, 0 ≤ k < i →
         gs !! Z.to_nat k = Some (Num (luminance (data img) k))) 0 n)
    as (h' & -> & gs & -> & Hgs & Hval).
  { done. }
  { intros i h1 Hi (gs & -> & Hgs & Hval). eexists. split; [done|].
    rewrite wr_alloc by lia. eexists. split; [done|].
    split; [by rewrite length_insert|].
    intros k Hk. destruct (decide (k = i)) as [->|Hne].
    - rewrite list_lookup_insert_eq by lia. f_equal.
      assert (∀ o, 0 ≤ o < 3 →
        ∃ c, data img !! Z.to_nat (4 * i + o) = Some c) as Hin.
      { intros o Ho. apply lookup_lt_is_Some_2. unfold n in *. nia. }
      destruct (Hin 0 ltac:(lia)) as [r Hr].
      destruct (Hin 1 ltac:(lia)) as [g Hg].
      destruct (Hin 2 ltac:(lia)) as [b Hb].
      rewrite Z.add_0_r in Hr. unfold luminance. rewrite Hr, Hg, Hb. simpl.
      replace (i * 4) with (4 * i) by lia.
      rewrite (rd8_byte _ _ r), (rd8_byte _ _ g), (rd8_byte _ _ b)
        by (done || lia).
      simpl. destruct (Req_dec_T 255 0) as [?|_]; [lra|]. done.
    - rewrite list_lookup_insert_ne by lia. apply Hval. lia. }
  { exists (replicate (Z.to_nat n) (Num 0)). split; [done|].
    split; [rewrite length_replicate; lia|]. intros; lia. }
  by exists gs.
Qed.

(** X10. The grayscale loop of [computeFFT] allocates one new array of
    [width * height] entries and changes no other; the entry of each pixel
    is the weighted mean (0.299 r + 0.587 g + 0.114 b) / 255 of its colour
    bytes, a number between 0 and 1. *)
Theorem to_grayscale_unit (h : heap) (img : ImageData) :
  wf_ImageData img → bytes (data img) →
  ∃ gs, FFTAnalyzer.to_grayscale h img = Some (h ++ [gs], length h) ∧
    Z.of_nat (length gs) = width img * height img ∧
    ∀ i r g b, 0 ≤ i < width img * height img →
      data img !! Z.to_nat (4 * i) = Some r →
      data img !! Z.to_nat (4 * i + 1) = Some g →
      data img !! Z.to_nat (4 * i + 2) = Some b →
      gs !! Z.to_nat i =
        Some (Num ((0.299 * IZR r + 0.587 * IZR g + 0.114 * IZR b) / 255)) ∧
      (0 <= (0.299 * IZR r + 0.587 * IZR g + 0.114 * IZR b) / 255 <= 1)%R.
Proof.
  intros Hwf Hbytes.
  unfold bytes in Hbytes. rewrite Forall_lookup in Hbytes.
  destruct (to_grayscale_spec h img Hwf) as (gs & Hrun & Hlen & Hval).
  exists gs. split; [done|]. split; [done|].
  intros i r g b Hi Hr Hg Hb. split.
  - rewrite Hval by done. unfold luminance. by rewrite Hr, Hg, Hb.
  - apply luminance_unit; [by apply (Hbytes _ _ Hr) | by apply (Hbytes _ _ Hg)
                          | by apply (Hbytes _ _ Hb)].
Qed.

Lemma to_grayscale_unit_witness :
  ∃ gs, FFTAnalyzer.to_grayscale [] one_pixel = Some ([] ++ [gs], 0%nat) ∧
    gs !! 0%nat =
      Some (Num ((0.299 * 200 + 0.587 * 100 + 0.114 * 50) / 255)).
Proof.
  destruct (to_grayscale_unit [] one_pixel) as (gs & Hrun & _ & Hgs).
  - unfold wf_ImageData. simpl. lia.
  - unfold bytes. repeat constructor; lia.
  - exists gs. split; [done|].
    apply (Hgs 0 200 100 50); [simpl; lia | done..].
Defined.

End Grayscale.

Section Magnitudes.

Lemma rd_Num (h : list (list num)) a (xs : list R) i x :
  arr h a = Num <$> xs → 0 ≤ i → xs !! Z.to_nat i = Some x →
  rd h a i = Num x.
Proof.
  intros Ha Hi Hx. unfold rd. destruct (i <? 0) eqn:E; [lia|].
  by rewrite Ha, list_lookup_fmap, Hx.
Qed.

Lemma sqrt_Num (x : R) : (0 <= x)%R → JS.sqrt (Num x) = Num (R_sqrt.sqrt x).
Proof. intros Hx. simpl. by destruct (Rlt_dec x 0) as [?|_]; [lra|]. Qed.

(** The magnitude loop fills one new array with the moduli of the bins
    and keeps the largest of them in [maxMag]. *)
Lemma magnitude_spectrum_spec (h : heap) (fft_real fft_imag : loc)
    (width height : Z) (z : Z → C) :
  (fft_real < length h)%nat → (fft_imag < length h)%nat →
  0 ≤ width * height →
  (∀ t, 0 ≤ t < width * height → holds_at h fft_real fft_imag t (z t)) →
  ∃ ms M,
    FFTAnalyzer.magnitude_spectrum h fft_real fft_imag width height =
      Some (h ++ [ms], (length h, Num M)) ∧
    Z.of_nat (length ms) = width * height ∧
    (∀ t, 0 ≤ t < width * height →
       ms !! Z.to_nat t = Some (Num (modulus (z t))) ∧
       (modulus (z t) <= M)%R) ∧
    (0 <= M)%R ∧ (width * height = 0 → M = 0%R) ∧
    (0 < width * height →
       ∃ t, 0 ≤ t < width * height ∧ modulus (z t) = M).
Proof.
  intros Hlr Hli Hn Hz.
  unfold FFTAnalyzer.magnitude_spectrum, new_zeros, alloc.
  set (n := width * height) in *.
  set (val := λ k : Z, modulus (z k)).
  assert (∀ k, (0 <= val k)%R) as Hval0 by (intros; apply sqrt_pos).
  edestruct (for_range_rule
    (λ i (s : list (list num) * num),
       ∃ ms M, s = (h ++ [ms], Num M) ∧ Z.of_nat (length ms) = n ∧
         (∀ k, 0 ≤ k < i → ms !! Z.to_nat k = Some (Num (val k)) ∧
                            (val k <= M)%R) ∧
         (0 <= M)%R ∧ (i = 0 → M = 0%R) ∧
         (0 < i → ∃ k, 0 ≤ k < i ∧ val k = M)) 0 n)
    as (s' & -> & ms & M & -> & Hlen & Hdone & HM0 & Hzero & Hatt).
  { lia. }
  { intros i [h1 m1] Hi1 (ms & M & [= -> ->] & Hlen & Hdone & HM0
                           & Hzero & Hatt).
    destruct (Hz i Hi1) as [Hre Him].
    rewrite !rd_alloc_old by done. rewrite Hre, Him.
    simpl mul. simpl add. unfold lift2.
    rewrite sqrt_Num by nra.
    rewrite wr_alloc by lia. rewrite rd_alloc_new.
    replace (i <? 0) with false by lia.
    rewrite list_lookup_insert_eq by lia. simpl default.
    change (R_sqrt.sqrt ((z i).1 * (z i).1 + (z i).2 * (z i).2))
      with (val i).
    eexists. split; [done|]. simpl.
    destruct (Rlt_dec M (val i)) as [Hgt|Hle].
    - exists (<[Z.to_nat i := Num (val i)]> ms), (val i).
      split; [done|]. split; [by rewrite length_insert|].
      split_and!; try done; try lia.
      + intros k Hk. destruct (decide (k = i)) as [->|Hne].
        * rewrite list_lookup_insert_eq by lia. split; [done|lra].
        * rewrite list_lookup_insert_ne by lia.
          destruct (Hdone k ltac:(lia)) as [-> Hk']. split; [done|lra].
      + intros _. exists i. split; [lia|done].
    - exists (<[Z.to_nat i := Num (val i)]> ms), M.
      split; [done|]. split; [by rewrite length_insert|].
      split_and!; try done; try lia.
      + intros k Hk. destruct (decide (k = i)) as [->|Hne].
        * rewrite list_lookup_insert_eq by lia. split; [done|lra].
        * rewrite list_lookup_insert_ne by lia. apply Hdone. lia.
      + intros _. destruct (decide (i = 0)) as [->|Hpos].
        * exists 0. split; [lia|].
          assert (M = 0%R) as EM by (by apply Hzero).
          pose proof (Hval0 0). lra.
        * destruct (Hatt ltac:(lia)) as (k & Hk & Ek).
          exists k. split; [lia|done]. }
  { exists (replicate (Z.to_nat n) (Num 0)), 0%R. split; [done|].
    split; [rewrite length_replicate; lia|].
    split_and!; try done; try lra; try (intros; lia). }
  simpl. exists ms, M. split; [done|]. split; [done|].
  split; [done|]. split; [done|]. split; [|done].
  intros E. apply Hzero. lia.
Qed.

(** X11. On a spectrum of finite numbers the magnitude loop of
    [computeFFT] allocates one new array, whose entries are the moduli
    sqrt(re^2 + im^2), and ends with [maxMag] their maximum: no modulus
    exceeds it, and it is one of them (0 when there is no entry). Every
    entry then lies between 0 and [maxMag]. *)
Theorem magnitude_spectrum_max (h : heap) (fft_real fft_imag : loc)
    (width height : Z) (xr xi : list R) :
  (fft_real < length h)%nat → (fft_imag < length h)%nat →
  arr h fft_real = Num <$> xr → arr h fft_imag = Num <$> xi →
  0 ≤ width * height ≤ Z.of_nat (length xr) →
  width * height ≤ Z.of_nat (length xi) →
  ∃ ms M,
    FFTAnalyzer.magnitude_spectrum h fft_real fft_imag width height =
      Some (h ++ [ms], (length h, Num M)) ∧
    Z.of_nat (length ms) = width * height ∧
    (∀ (i : nat) re im, Z.of_nat i < width * height →
       xr !! i = Some re → xi !! i = Some im →
       ms !! i = Some (Num (R_sqrt.sqrt (re * re + im * im))) ∧
       (R_sqrt.sqrt (re * re + im * im) <= M)%R) ∧
    spectrum_below (h ++ [ms]) (length h) (width * height) M ∧
    (width * height = 0 → M = 0%R) ∧
    (0 < width * height → ∃ i : nat, Z.of_nat i < width * height ∧
                                     ms !! i = Some (Num M)).
Proof.
  intros Hlr Hli Hr Hi Hn Hni.
  set (z := λ t : Z, (default 0%R (xr !! Z.to_nat t),
                      default 0%R (xi !! Z.to_nat t))).
  destruct (magnitude_spectrum_spec h fft_real fft_imag width height z)
    as (ms & M & Hrun & Hlen & Hdone & HM0 & Hzero & Hatt);
    [done | done | lia | |].
  { intros t Ht.
    destruct (lookup_lt_is_Some_2 xr (Z.to_nat t) ltac:(lia)) as [re Hre].
    destruct (lookup_lt_is_Some_2 xi (Z.to_nat t) ltac:(lia)) as [im Him].
    unfold holds_at, z. rewrite Hre, Him. simpl.
    split; [apply (rd_Num _ _ xr) | apply (rd_Num _ _ xi)]; (done || lia). }
  exists ms, M. split; [done|]. split; [done|].
  assert (∀ (i : nat) re im, xr !! i = Some re → xi !! i = Some im →
            modulus (z (Z.of_nat i)) = R_sqrt.sqrt (re * re + im * im))
    as Eval.
  { intros i re im Hre Him. unfold modulus, z.
    by rewrite Nat2Z.id, Hre, Him. }
  split_and!.
  - intros i re im Hlt Hre Him. rewrite <- (Eval i re im Hre Him).
    destruct (Hdone (Z.of_nat i) ltac:(lia)) as [Hms Hle].
    rewrite Nat2Z.id in Hms. done.
  - intros i Hlt. destruct (Hdone i Hlt) as [Hms Hle].
    exists (modulus (z i)). rewrite rd_alloc_new.
    replace (i <? 0) with false by lia. rewrite Hms. split; [done|].
    split; [apply sqrt_pos|done].
  - done.
  - intros Hpos. destruct (Hatt Hpos) as (k & Hk & Ek).
    exists (Z.to_nat k). split; [lia|].
    destruct (Hdone k Hk) as [-> _]. by rewrite Ek.
Qed.

Lemma magnitude_spectrum_max_witness :
  ∃ ms M,
    FFTAnalyzer.magnitude_spectrum white_spectrum 1 2 2 2 =
      Some (white_spectrum ++ [ms], (11%nat, Num M)) ∧
    spectrum_below (white_spectrum ++ [ms]) 11 (2 * 2) M.
Proof.
  destruct (magnitude_spectrum_max white_spectrum 1 2 2 2
              [4; 0; 0; 0]%R [0; 0; 0; 0]%R)
    as (ms & M & Hrun & _ & _ & Hbelow & _);
    [simpl; lia | simpl; lia | done | done | simpl; lia | simpl; lia |].
  by exists ms, M.
Defined.

End Magnitudes.

(* ===================================================================== *)
(** * The visualization at its edges and in PhotoEditor *)
(* ===================================================================== *)

Section BlackSpectrum.

(** X12. For a spectrum that is zero everywhere, as a black image gives,
    [maxMag] is 0 and the quotient of the two logarithms is no number:
    [FFTAnalyzer.visualizeFFT] then writes 0 into the colour bytes of
    every pixel and 255 into its alpha byte. *)
Theorem visualizeFFT_zero h magnitude width height :
  1 ≤ width → 1 ≤ height →
  (∀ i, 0 ≤ i < width * height → rd h magnitude i = Num 0) →
  ∃ d, FFTAnalyzer.visualizeFFT h magnitude width height (Num 0) =
         Some (mkImageData width height d) ∧
       Z.of_nat (length d) = 4 * width * height ∧
       ∀ x y, 0 ≤ x < width → 0 ≤ y < height → gray_pixel d width x y 0.
Proof.
  intros HW HH Hzero.
  destruct (visualizeFFT_spec h magnitude width height (Num 0) HW HH)
    as (d & Hrun & Hlen & Hd).
  exists d. split; [done|]. split; [done|].
  intros x y Hx Hy.
  assert (0 ≤ y * width + x < width * height) as Hp by nia.
  assert (FFTAnalyzer.intensity (Num 0) (Num 0) = NaN) as Hnan.
  { unfold FFTAnalyzer.intensity. simpl.
    destruct (Rlt_dec 0 (1 + 0)) as [_|Hn]; [|exfalso; apply Hn; lra].
    simpl. rewrite Rplus_0_r, ln_1.
    by destruct (Req_dec_T 0 0) as [_|Hn]. }
  assert (∀ c, 0 ≤ c < 3 →
    d !! Z.to_nat (4 * (y * width + x) + c) = Some 0) as Hrgb.
  { intros c Hc. rewrite Hd by lia. unfold pixel_byte.
    destruct (div_mod_pair y x width ltac:(lia)) as [-> ->].
    replace (c =? 3) with false by lia.
    destruct (FFTAnalyzer_shifted_index width height x y HW HH Hx Hy)
      as [_ Hin].
    by rewrite (Hzero _ Hin), Hnan. }
  unfold gray_pixel.
  rewrite <- (Z.add_0_r (4 * (y * width + x))) at 1.
  rewrite !Hrgb by lia. rewrite Hd by lia. done.
Qed.

Lemma visualizeFFT_zero_witness :
  ∃ d, FFTAnalyzer.visualizeFFT [[Num 0; Num 0]] 0 2 1 (Num 0) =
         Some (mkImageData 2 1 d) ∧
       gray_pixel d 2 0 0 0 ∧ gray_pixel d 2 1 0 0.
Proof.
  destruct (visualizeFFT_zero [[Num 0; Num 0]] 0%nat 2 1)
    as (d & Hrun & _ & Hpix); [lia | lia | |].
  { intros i Hi. assert (i = 0 ∨ i = 1) as [-> | ->] by lia; reflexivity. }
  exists d. split; [done|]. split; apply Hpix; lia.
Defined.

End BlackSpectrum.

Section EditorVisualization.

(** The floor of a quotient of integers is their Euclidean quotient. *)
Lemma Zfloor_quot (p q : Z) : 0 < q → Zfloor (IZR p / IZR q) = p / q.
Proof.
  intros Hq. apply Zfloor_eq.
  pose proof (Z.div_mod p q ltac:(lia)) as Hdm.
  pose proof (Z.mod_pos_bound p q Hq) as [Hlo Hhi].
  apply IZR_lt in Hq. apply IZR_le in Hlo. apply IZR_lt in Hhi.
  assert (IZR p = IZR q * IZR (p / q) + IZR (p `mod` q))%R as E
    by (rewrite <- mult_IZR, <- plus_IZR; by f_equal).
  assert (IZR p / IZR q * IZR q = IZR p)%R as E' by (field; lra).
  split.
  - apply (Rmult_le_reg_r (IZR q)); [done|]. nra.
  - apply (Rmult_lt_reg_r (IZR q)); [done|]. nra.
Qed.

(** [%] on two integers, the first not negative and the second positive. *)
Lemma rem_integers (s w : Z) :
  0 ≤ s → 0 < w →
  PhotoEditor.rem (Num (IZR s)) (Num (IZR w)) = Num (IZR (s `mod` w)).
Proof.
  intros Hs Hw. unfold PhotoEditor.rem.
  pose proof (IZR_lt _ _ Hw) as Hw'. pose proof (IZR_le _ _ Hs) as Hs'.
  destruct (Req_dec_T (IZR w) 0) as [?|_]; [lra|].
  unfold PhotoEditor.trunc.
  assert (0 <= IZR s / IZR w)%R.
  { apply Rmult_le_pos; [done|]. left. by apply Rinv_0_lt_compat. }
  destruct (Rlt_dec (IZR s / IZR w) 0) as [?|_]; [lra|].
  rewrite Zfloor_quot by done.
  rewrite <- mult_IZR, <- minus_IZR. do 2 f_equal.
  pose proof (Z.div_mod s w ltac:(lia)). lia.
Qed.

(** For even extents the two versions read the same source index. *)
Lemma PhotoEditor_shifted_index_even width height x y :
  1 ≤ width → 1 ≤ height → Z.even width = true → Z.even height = true →
  0 ≤ x < width → 0 ≤ y < height →
  PhotoEditor.shifted_index width height x y =
    Num (IZR (FFTAnalyzer.shifted_index width height x y)).
Proof.
  intros HW HH Hew Heh Hx Hy.
  unfold PhotoEditor.shifted_index, FFTAnalyzer.shifted_index.
  rewrite !Z.rem_mod_nonneg by lia.
  assert (∀ p w, Z.even w = true →
    add (ofZ p) (div (ofZ w) (Num 2)) = Num (IZR (p + w / 2))) as Hhalf.
  { intros p w Hw. apply Z.even_spec in Hw as [a ->].
    replace (2 * a / 2) with a by lia.
    unfold ofZ. simpl. destruct (Req_dec_T 2 0) as [?|_]; [lra|].
    f_equal. rewrite plus_IZR, mult_IZR. lra. }
  rewrite !Hhalf by done.
  unfold ofZ. rewrite !rem_integers by lia. simpl.
  by rewrite <- mult_IZR, <- plus_IZR.
Qed.

(** An array read at an integer index. *)
Lemma rd_at_integer h a (i : Z) : PhotoEditor.rd_at h a (Num (IZR i)) = rd h a i.
Proof.
  unfold PhotoEditor.rd_at. rewrite ZfloorZ.
  by destruct (Req_dec_T (IZR i) (IZR i)).
Qed.

Lemma ln_2_pos : (0 < ln 2)%R.
Proof. rewrite <- ln_1. apply ln_increasing; lra. Qed.

Lemma editor_intensity_Num (m M : R) :
  (0 <= m)%R → (0 < M)%R →
  PhotoEditor.intensity (Num m) (Num M) = Num (IZR (editor_intensity_of m M)).
Proof.
  intros Hm HM. unfold PhotoEditor.intensity, editor_intensity_of. simpl.
  destruct (Req_dec_T M 0) as [?|_]; [lra|]. simpl.
  assert (0 <= m / M)%R.
  { apply Rmult_le_pos; [done|]. left. by apply Rinv_0_lt_compat. }
  destruct (Rlt_dec 0 (1 + m / M)) as [_|Hn]; [|exfalso; apply Hn; lra].
  destruct (Rlt_dec 0 2) as [_|Hn]; [|exfalso; apply Hn; lra].
  simpl. pose proof ln_2_pos.
  by destruct (Req_dec_T (ln 2) 0) as [?|_]; [lra|].
Qed.

Lemma editor_intensity_mono (m1 m2 M : R) :
  (0 <= m1 <= m2)%R → (0 < M)%R →
  editor_intensity_of m1 M ≤ editor_intensity_of m2 M.
Proof.
  intros Hm HM. unfold editor_intensity_of. apply Zfloor_le.
  pose proof ln_2_pos as H2.
  assert (0 < / M)%R by (by apply Rinv_0_lt_compat).
  assert (0 <= m1 / M <= m2 / M)%R.
  { unfold Rdiv. split; [apply Rmult_le_pos; lra|].
    apply Rmult_le_compat_r; lra. }
  pose proof (ln_1_plus_le (m1 / M) (m2 / M) ltac:(done)).
  apply Rmult_le_compat_r; [left; by apply Rinv_0_lt_compat|].
  apply Rmult_le_compat_r; lra.
Qed.

Lemma editor_intensity_0 (M : R) : editor_intensity_of 0 M = 0.
Proof.
  unfold editor_intensity_of.
  replace (1 + 0 / M)%R with 1%R by (unfold Rdiv; ring). rewrite ln_1.
  replace (0 * 255 / ln 2)%R with 0%R by (unfold Rdiv; ring).
  apply (ZfloorZ 0).
Qed.

Lemma editor_intensity_max (M : R) :
  (0 < M)%R → editor_intensity_of M M = 255.
Proof.
  intros HM. unfold editor_intensity_of. pose proof ln_2_pos.
  replace (1 + M / M)%R with 2%R by (field; lra).
  replace (ln 2 * 255 / ln 2)%R with 255%R by (field; lra).
  apply (ZfloorZ 255).
Qed.

(** The pixel loop of [PhotoEditor.visualizeFFT] fills the buffer pixel by
    pixel, in raster order. *)
Lemma PhotoEditor_visualizeFFT_spec h magnitude width height maxMag :
  1 ≤ width → 1 ≤ height →
  ∃ d, PhotoEditor.visualizeFFT h magnitude width height maxMag =
         Some (mkImageData width height d) ∧
       Z.of_nat (length d) = 4 * width * height ∧
       ∀ p c, 0 ≤ p < width * height → 0 ≤ c < 4 →
         d !! Z.to_nat (4 * p + c) =
           Some (editor_pixel_byte h magnitude width height maxMag p c).
Proof.
  intros HW HH. unfold PhotoEditor.visualizeFFT, createImageData.
  replace ((width =? 0) || (height =? 0)) with false by lia. simpl.
  rewrite !Z.abs_eq by lia.
  set (I := λ (cur : Z) (d : list Z),
    Z.of_nat (length d) = 4 * width * height ∧
    ∀ p c, 0 ≤ p < cur → 0 ≤ c < 4 →
      d !! Z.to_nat (4 * p + c) =
        Some (editor_pixel_byte h magnitude width height maxMag p c)).
  edestruct (for_range_rule (λ y d, I (y * width) d) 0 height)
    as (d & -> & Hlen & Hd).
  { lia. }
  { intros y d0 Hy Hd0. cbv beta.
    edestruct (for_range_rule (λ x d, I (y * width + x) d) 0 width)
      as (d1 & -> & Hd1).
    { lia. }
    { intros x d1 Hx [Hlen1 Hd1]. eexists. split; [done|].
      assert (0 ≤ y * width + x < width * height) as Hp by nia.
      split; [by rewrite !wr8_length|].
      intros p c Hpc Hc. rewrite !wr8_lookup by lia.
      rewrite !wr8_length.
      destruct (decide (p = y * width + x)) as [->|Hne].
      - unfold editor_pixel_byte.
        destruct (div_mod_pair y x width ltac:(lia)) as [-> ->].
        assert (c = 0 ∨ c = 1 ∨ c = 2 ∨ c = 3)
          as [-> | [-> | [-> | ->]]] by lia;
          cbn [Z.eqb Pos.eqb]; repeat case_decide; try lia; try done.
        by rewrite (toUint8Clamped_IZR 255).
      - repeat case_decide; try lia. apply Hd1; lia. }
    { replace (y * width + 0) with (y * width) by lia. exact Hd0. }
    exists d1. split; [done|].
    replace ((y + 1) * width) with (y * width + width) by lia. exact Hd1. }
  { split; [rewrite length_replicate; lia|]. intros; lia. }
  simpl. exists d. split; [done|]. split; [done|].
  intros p c Hp Hc. apply Hd; lia.
Qed.

(** X13. For even width and height, a maximum [M > 0] and magnitudes
    between 0 and [M], [PhotoEditor.visualizeFFT] reads for every
    destination pixel the source index that [FFTAnalyzer.visualizeFFT]
    reads, and stores one intensity in the three colour bytes and 255 in
    the alpha byte; the intensity lies between 0 and 255, is 0 for the
    magnitude 0 and 255 for the magnitude [M], and of two pixels the one
    that reads the larger magnitude is at least as bright. *)
Theorem PhotoEditor_visualizeFFT_even h magnitude width height (M : R) :
  1 ≤ width → 1 ≤ height →
  Z.even width = true → Z.even height = true → (0 < M)%R →
  spectrum_below h magnitude (width * height) M →
  ∃ d, PhotoEditor.visualizeFFT h magnitude width height (Num M) =
         Some (mkImageData width height d) ∧
       Z.of_nat (length d) = 4 * width * height ∧
       ∀ x y, 0 ≤ x < width → 0 ≤ y < height →
         ∃ m v,
           PhotoEditor.shifted_index width height x y =
             Num (IZR (FFTAnalyzer.shifted_index width height x y)) ∧
           rd h magnitude (FFTAnalyzer.shifted_index width height x y) =
             Num m ∧
           0 ≤ v ≤ 255 ∧ (m = 0%R → v = 0) ∧ (m = M → v = 255) ∧
           gray_pixel d width x y v ∧
           ∀ x' y' m' v', 0 ≤ x' < width → 0 ≤ y' < height →
             rd h magnitude (FFTAnalyzer.shifted_index width height x' y') =
               Num m' →
             gray_pixel d width x' y' v' → (m <= m')%R → v ≤ v'.
Proof.
  intros HW HH Hew Heh HM Hspec.
  destruct (PhotoEditor_visualizeFFT_spec h magnitude width height (Num M)
              HW HH) as (d & Hrun & Hlen & Hd).
  exists d. split; [done|]. split; [done|].
  assert (∀ x y m, 0 ≤ x < width → 0 ≤ y < height →
    rd h magnitude (FFTAnalyzer.shifted_index width height x y) = Num m →
    (0 <= m <= M)%R ∧ gray_pixel d width x y (editor_intensity_of m M))
    as Hpix.
  { intros x y m Hx Hy Hm.
    pose proof (PhotoEditor_shifted_index_even width height x y
                  HW HH Hew Heh Hx Hy) as Hidx.
    destruct (FFTAnalyzer_shifted_index width height x y HW HH Hx Hy)
      as [_ Hin].
    destruct (Hspec _ Hin) as (m0 & Hm0 & Hrange).
    rewrite Hm in Hm0. injection Hm0 as <-. split; [exact Hrange|].
    assert (0 ≤ y * width + x < width * height) as Hp by nia.
    assert (∀ c, 0 ≤ c < 3 →
      d !! Z.to_nat (4 * (y * width + x) + c) =
        Some (editor_intensity_of m M)) as Hrgb.
    { intros c Hc. rewrite Hd by lia. unfold editor_pixel_byte.
      destruct (div_mod_pair y x width ltac:(lia)) as [-> ->].
      replace (c =? 3) with false by lia.
      rewrite Hidx, rd_at_integer, Hm, editor_intensity_Num,
        toUint8Clamped_IZR by lra.
      f_equal.
      assert (0 ≤ editor_intensity_of m M ≤ 255); [|lia].
      split.
      - rewrite <- (editor_intensity_0 M). apply editor_intensity_mono; lra.
      - rewrite <- (editor_intensity_max M HM).
        apply editor_intensity_mono; lra. }
    unfold gray_pixel.
    rewrite <- (Z.add_0_r (4 * (y * width + x))) at 1.
    rewrite !Hrgb by lia. rewrite Hd by lia. done. }
  intros x y Hx Hy.
  pose proof (PhotoEditor_shifted_index_even width height x y
                HW HH Hew Heh Hx Hy) as Hidx.
  destruct (FFTAnalyzer_shifted_index width height x y HW HH Hx Hy)
    as [_ Hin].
  destruct (Hspec _ Hin) as (m & Hm & _).
  destruct (Hpix x y m Hx Hy Hm) as [Hrange Hgray].
  exists m, (editor_intensity_of m M).
  split; [exact Hidx|]. split; [exact Hm|].
  split.
  { split.
    - rewrite <- (editor_intensity_0 M). apply editor_intensity_mono; lra.
    - rewrite <- (editor_intensity_max M HM).
      apply editor_intensity_mono; lra. }
  split; [intros ->; apply editor_intensity_0|].
  split; [intros ->; by apply editor_intensity_max|].
  split; [exact Hgray|].
  intros x' y' m' v' Hx' Hy' Hm' Hgray' Hle.
  destruct (Hpix x' y' m' Hx' Hy' Hm') as [Hrange' [Hfirst _]].
  destruct Hgray' as [Hv' _]. rewrite Hfirst in Hv'. injection Hv' as <-.
  apply editor_intensity_mono; lra.
Qed.

Lemma PhotoEditor_visualizeFFT_even_witness :
  ∃ d, PhotoEditor.visualizeFFT [[Num 4; Num 0; Num 0; Num 0]] 0 2 2 (Num 4) =
         Some (mkImageData 2 2 d) ∧
       gray_pixel d 2 1 1 255 ∧ gray_pixel d 2 0 0 0.
Proof.
  assert (spectrum_below [[Num 4; Num 0; Num 0; Num 0]] 0 (2 * 2) 4)
    as Hspec.
  { intros i Hi.
    assert (i = 0 ∨ i = 1 ∨ i = 2 ∨ i = 3) as [-> | [-> | [-> | ->]]]
      by lia; eexists; (split; [reflexivity | lra]). }
  destruct (PhotoEditor_visualizeFFT_even [[Num 4; Num 0; Num 0; Num 0]]
              0%nat 2 2 4 ltac:(lia) ltac:(lia) eq_refl eq_refl
              ltac:(lra) Hspec)
    as (d & Hrun & _ & Hpix).
  exists d. split; [done|].
  destruct (Hpix 1 1 ltac:(lia) ltac:(lia))
    as (m1 & v1 & _ & Hm1 & _ & _ & Hmax & Hd1 & _).
  destruct (Hpix 0 0 ltac:(lia) ltac:(lia))
    as (m0 & v0 & _ & Hm0 & _ & Hz & _ & Hd0 & _).
  injection Hm1 as <-. injection Hm0 as <-.
  rewrite (Hmax eq_refl) in Hd1. rewrite (Hz eq_refl) in Hd0. done.
Defined.

End EditorVisualization.

(* ===================================================================== *)
(** * The two-dimensional transform *)
(* ===================================================================== *)

Section Lines.

(** [fft2D] is a copy followed by a pass over the rows and a pass over the
    columns. *)
Lemma fft2D_lines h data width height :
  FFTAnalyzer.fft2D h data width height =
    (let '(h, real) := new_zeros h (width * height) in
     let '(h, imag) := new_zeros h (width * height) in
     h ← for_range 0 (width * height) (λ i h,
            let h := wr h real i (rd h data i) in
            Some (wr h imag i (Num 0))) h;
     h ← for_range 0 height (λ y h,
            line_pass real imag width (λ x, y * width + x) h) h;
     h ← for_range 0 width (λ x h,
            line_pass real imag height (λ y, y * width + x) h) h;
     Some (h, (real, imag))).
Proof. reflexivity. Qed.

(** The transform of a single element is that element. *)
Lemma dft_1 x : dft x 1 0 = x 0.
Proof.
  unfold dft, Csum. simpl.
  replace (-2 * PI * 0 * IZR (Z.of_nat 0) / 1)%R with 0%R
    by (simpl; unfold Rdiv; ring).
  rewrite cis_0. change (Z.of_nat 0) with 0. unfold Cadd, Cmul, C0. simpl.
  destruct (x 0) as [a b]. simpl. f_equal; ring.
Qed.

(** [FFTAnalyzer.fft1D] on two arrays of [2^L] elements, [L] from 0. *)
Lemma FFTAnalyzer_fft1D_line h real imag (L : nat) x :
  real ≠ imag → Z.of_nat L ≤ 30 →
  holds h real imag (2 ^ Z.of_nat L) x →
  ∃ h', FFTAnalyzer.fft1D h real imag = Some (h', (real, imag)) ∧
        same_but h h' real imag ∧
        holds h' real imag (2 ^ Z.of_nat L) (dft x (2 ^ Z.of_nat L)).
Proof.
  intros Hne HL Hx. destruct L as [|L].
  - exists h. destruct Hx as (Hr & Hi & Hx). simpl in *.
    unfold FFTAnalyzer.fft1D. rewrite Hr. simpl.
    split; [done|]. split; [apply same_but_refl|].
    split; [done|]. split; [done|].
    intros t Ht. assert (t = 0) as -> by lia. rewrite dft_1. by apply Hx.
  - destruct (FFTAnalyzer_fft1D_pow2 h real imag (S L))
      as (h' & Hrun & Hsame & Hdft); [lia | done | apply Hx |].
    exists h'. split; [done|]. split; [done|]. by apply Hdft.
Qed.

Lemma wr_alloc2_fst (h : list (list num)) a b i v :
  0 ≤ i →
  wr (h ++ [a; b]) (length h) i v = h ++ [<[Z.to_nat i := v]> a; b].
Proof.
  intros Hi. unfold wr. destruct (i <? 0) eqn:E; [lia|].
  rewrite <- (Nat.add_0_r (length h)). by rewrite alter_app_r.
Qed.

Lemma wr_alloc2_snd (h : list (list num)) a b i v :
  0 ≤ i →
  wr (h ++ [a; b]) (S (length h)) i v = h ++ [a; <[Z.to_nat i := v]> b].
Proof.
  intros Hi. unfold wr. destruct (i <? 0) eqn:E; [lia|].
  replace (S (length h)) with (length h + 1)%nat by lia.
  by rewrite alter_app_r.
Qed.

Lemma rd_app_old (h l : list (list num)) a i :
  (a < length h)%nat → rd (h ++ l) a i = rd h a i.
Proof. intros Ha. unfold rd. by rewrite arr_app_l. Qed.

(** The loop that copies a line out of the grid. *)
Lemma gather_spec (h : list (list num)) real imag N (k : Z → Z) :
  0 ≤ N → (real < length h)%nat → (imag < length h)%nat →
  ∃ a b,
    for_range 0 N (λ j h',
        let h' := wr h' (length h) j (rd h' real (k j)) in
        Some (wr h' (S (length h)) j (rd h' imag (k j))))
      (h ++ [replicate (Z.to_nat N) (Num 0); replicate (Z.to_nat N) (Num 0)])
      = Some (h ++ [a; b]) ∧
    Z.of_nat (length a) = N ∧ Z.of_nat (length b) = N ∧
    ∀ j, 0 ≤ j < N →
      a !! Z.to_nat j = Some (rd h real (k j)) ∧
      b !! Z.to_nat j = Some (rd h imag (k j)).
Proof.
  intros HN Hr Hi.
  edestruct (for_range_rule
    (λ i h', ∃ a b, h' = h ++ [a; b] ∧
       Z.of_nat (length a) = N ∧ Z.of_nat (length b) = N ∧
       ∀ j, 0 ≤ j < i →
         a !! Z.to_nat j = Some (rd h real (k j)) ∧
         b !! Z.to_nat j = Some (rd h imag (k j))) 0 N)
    as (h' & -> & a & b & -> & Ha & Hb & Hab).
  { done. }
  { intros i h1 Hi1 (a & b & -> & Ha & Hb & Hab).
    eexists. split; [done|].
    rewrite rd_app_old by done. rewrite wr_alloc2_fst by lia.
    rewrite rd_app_old by done. rewrite wr_alloc2_snd by lia.
    eexists _, _. split; [done|]. rewrite !length_insert.
    split; [done|]. split; [done|].
    intros j Hj. destruct (decide (j = i)) as [->|Hne].
    - rewrite !list_lookup_insert_eq by lia. done.
    - rewrite !list_lookup_insert_ne by lia. apply Hab. lia. }
  { eexists _, _. split; [done|]. rewrite !length_replicate.
    split; [lia|]. split; [lia|]. intros; lia. }
  by exists a, b.
Qed.

(** The loop that copies a transformed line back into the grid. *)
Lemma scatter_spec (ht : list (list num)) real imag lr li N (k : Z → Z) f :
  real ≠ imag → lr ≠ real → lr ≠ imag → li ≠ real → li ≠ imag →
  (∀ j, 0 ≤ j < N → 0 ≤ k j < alen ht real ∧ k j < alen ht imag) →
  (∀ i j, 0 ≤ i < N → 0 ≤ j < N → k i = k j → i = j) →
  0 ≤ N → holds ht lr li N f →
  ∃ h', for_range 0 N (λ j h',
            let h' := wr h' real (k j) (rd h' lr j) in
            Some (wr h' imag (k j) (rd h' li j))) ht = Some h' ∧
        same_but ht h' real imag ∧
        (∀ j, 0 ≤ j < N → holds_at h' real imag (k j) (f j)) ∧
        (∀ t, (∀ j, 0 ≤ j < N → t ≠ k j) →
              rd h' real t = rd ht real t ∧ rd h' imag t = rd ht imag t).
Proof.
  intros Hne Hlr1 Hlr2 Hli1 Hli2 Hk Hinj HN (_ & _ & Hf).
  edestruct (for_range_rule
    (λ i h', same_but ht h' real imag ∧
       (∀ j, 0 ≤ j < i → holds_at h' real imag (k j) (f j)) ∧
       (∀ t, (∀ j, 0 ≤ j < i → t ≠ k j) →
             rd h' real t = rd ht real t ∧ rd h' imag t = rd ht imag t))
    0 N) as (h' & -> & Hsame & Hdone & Hrest).
  { done. }
  { intros i h1 Hi1 (Hsame & Hdone & Hrest).
    eexists. split; [done|].
    destruct Hsame as (Hlen & Hoth & Har & Hai).
    assert (rd h1 lr i = rd ht lr i ∧ rd h1 li i = rd ht li i) as [Er Ei].
    { unfold rd, arr. by rewrite !Hoth. }
    assert (rd (wr h1 real (k i) (rd h1 lr i)) li i = rd ht li i) as Ei'.
    { rewrite rd_wr_other by (left; done). done. }
    rewrite Ei', Er.
    destruct (Hf i Hi1) as [Hfr Hfi]. rewrite Hfr, Hfi.
    destruct (Hk i Hi1) as [Hkr Hki].
    split; [|split].
    - split; [by rewrite !length_wr|]. split.
      + intros c Hc1 Hc2. rewrite !lookup_wr_ne by done. by apply Hoth.
      + by rewrite !alen_wr.
    - intros j Hj. destruct (decide (j = i)) as [->|Hji].
      + split.
        * rewrite rd_wr_other by (left; done).
          apply rd_wr_same. lia.
        * apply rd_wr_same. rewrite alen_wr. lia.
      + assert (k j ≠ k i) by (intros E; apply Hji, Hinj; (lia || done)).
        destruct (Hdone j ltac:(lia)) as [Hdr Hdi].
        split; rewrite !rd_wr_other by (right; done); done.
    - intros t Ht.
      assert (t ≠ k i) by (apply Ht; lia).
      rewrite !rd_wr_other by (right; done).
      apply Hrest. intros j Hj. apply Ht. lia. }
  { split; [apply same_but_refl|]. split; [intros; lia|done]. }
  exists h'. split; [done|]. split; [done|]. split; [done|]. done.
Qed.

(** One line of the grid is replaced by its transform; the rest of the
    grid and the arrays that existed before are left as they were. *)
Lemma line_pass_spec (h : list (list num)) real imag n N (L : nat)
    (k : Z → Z) (g : Z → C) :
  real ≠ imag → (real < length h)%nat → (imag < length h)%nat →
  N = 2 ^ Z.of_nat L → Z.of_nat L ≤ 30 →
  alen h real = n → alen h imag = n →
  (∀ j, 0 ≤ j < N → 0 ≤ k j < n) →
  (∀ i j, 0 ≤ i < N → 0 ≤ j < N → k i = k j → i = j) →
  (∀ j, 0 ≤ j < N → holds_at h real imag (k j) (g (k j))) →
  ∃ h', line_pass real imag N k h = Some h' ∧
    length h' = S (S (length h)) ∧
    (∀ c, (c < length h)%nat → c ≠ real → c ≠ imag → h' !! c = h !! c) ∧
    alen h' real = n ∧ alen h' imag = n ∧
    (∀ j, 0 ≤ j < N →
       holds_at h' real imag (k j) (dft (λ c, g (k c)) N j)) ∧
    (∀ t, (∀ j, 0 ≤ j < N → t ≠ k j) →
          rd h' real t = rd h real t ∧ rd h' imag t = rd h imag t).
Proof.
  intros Hne Hr Hi HN HL Har Hai Hk Hinj Hg.
  assert (0 < N) as HNpos by (subst N; apply Z.pow_pos_nonneg; lia).
  unfold line_pass, new_zeros, alloc.
  rewrite length_app. simpl length. rewrite Nat.add_1_r.
  rewrite <- app_assoc. simpl app.
  destruct (gather_spec h real imag N k ltac:(lia) Hr Hi)
    as (a & b & Hrun & Ha & Hb & Hab).
  cbv zeta in Hrun. rewrite Hrun. simpl.
  set (hg := h ++ [a; b]).
  assert (arr hg (length h) = a) as Earr_a.
  { unfold hg. rewrite <- (Nat.add_0_r (length h)). by rewrite arr_app_r. }
  assert (arr hg (S (length h)) = b) as Earr_b.
  { unfold hg. replace (S (length h)) with (length h + 1)%nat by lia.
    by rewrite arr_app_r. }
  assert (holds hg (length h) (S (length h)) N (λ j, g (k j))) as Hline.
  { split; [unfold alen; by rewrite Earr_a|].
    split; [unfold alen; by rewrite Earr_b|].
    intros j Hj. destruct (Hab j Hj) as [Haj Hbj].
    destruct (Hg j Hj) as [Hgr Hgi].
    unfold holds_at, rd. rewrite Earr_a, Earr_b, Haj, Hbj.
    replace (j <? 0) with false by lia. simpl. by rewrite Hgr, Hgi. }
  subst N.
  destruct (FFTAnalyzer_fft1D_line hg (length h) (S (length h)) L
              (λ j, g (k j)) ltac:(lia) HL Hline)
    as (ht & Hfft & (Hlent & Hotht & _ & _) & Hdft).
  rewrite Hfft. simpl.
  assert (∀ c, (c < length h)%nat → ht !! c = h !! c) as Hold.
  { intros c Hc. rewrite Hotht by lia. unfold hg.
    by rewrite lookup_app_l. }
  assert (alen ht real = n ∧ alen ht imag = n) as [Hatr Hati].
  { unfold alen, arr. rewrite !Hold by done. done. }
  destruct (scatter_spec ht real imag (length h) (S (length h))
              (2 ^ Z.of_nat L) k (dft (λ c, g (k c)) (2 ^ Z.of_nat L)))
    as (h' & Hsc & (Hlen' & Hoth' & Har' & Hai') & Hdone & Hrest);
    [done | lia | lia | lia | lia | | done | lia | done |].
  { intros j Hj. rewrite Hatr, Hati. pose proof (Hk j Hj). lia. }
  cbv zeta in Hsc. exists h'. split; [done|].
  split. { rewrite Hlen', Hlent. unfold hg. rewrite length_app. simpl. lia. }
  split. { intros c Hc Hc1 Hc2. rewrite Hoth' by done. by apply Hold. }
  split; [lia|]. split; [lia|]. split; [done|].
  intros t Ht. destruct (Hrest t Ht) as [-> ->].
  unfold rd, arr. by rewrite !Hold.
Qed.

(** A pass over [M] disjoint lines of [N] elements each replaces every
    line by its transform. *)
Lemma pass_spec (h0 : list (list num)) real imag n N (L : nat) M
    (k : Z → Z → Z) (g : Z → C) :
  real ≠ imag → (real < length h0)%nat → (imag < length h0)%nat →
  N = 2 ^ Z.of_nat L → Z.of_nat L ≤ 30 → 0 ≤ M →
  alen h0 real = n → alen h0 imag = n →
  (∀ i j, 0 ≤ i < M → 0 ≤ j < N → 0 ≤ k i j < n) →
  (∀ i j i' j', 0 ≤ i < M → 0 ≤ j < N → 0 ≤ i' < M → 0 ≤ j' < N →
     k i j = k i' j' → i = i' ∧ j = j') →
  (∀ i j, 0 ≤ i < M → 0 ≤ j < N →
     holds_at h0 real imag (k i j) (g (k i j))) →
  ∃ h', for_range 0 M (λ i h, line_pass real imag N (k i) h) h0 = Some h' ∧
    (length h0 ≤ length h')%nat ∧
    (∀ c, (c < length h0)%nat → c ≠ real → c ≠ imag → h' !! c = h0 !! c) ∧
    alen h' real = n ∧ alen h' imag = n ∧
    (∀ i j, 0 ≤ i < M → 0 ≤ j < N →
       holds_at h' real imag (k i j) (dft (λ c, g (k i c)) N j)).
Proof.
  intros Hne Hr Hi HN HL HM Har Hai Hk Hinj Hg.
  edestruct (for_range_rule
    (λ cur h',
       (length h0 ≤ length h')%nat ∧
       (∀ c, (c < length h0)%nat → c ≠ real → c ≠ imag →
             h' !! c = h0 !! c) ∧
       alen h' real = n ∧ alen h' imag = n ∧
       (∀ i j, 0 ≤ i < cur → 0 ≤ j < N →
          holds_at h' real imag (k i j) (dft (λ c, g (k i c)) N j)) ∧
       (∀ i j, cur ≤ i < M → 0 ≤ j < N →
          holds_at h' real imag (k i j) (g (k i j)))) 0 M)
    as (h' & -> & Hlen & Hold & Har' & Hai' & Hdone & _).
  { done. }
  { intros cur h1 Hcur (Hlen & Hold & Har1 & Hai1 & Hdone & Hrest).
    destruct (line_pass_spec h1 real imag n N L (k cur) g)
      as (h2 & Hrun & Hlen2 & Hold2 & Har2 & Hai2 & Hline & Hframe);
      [done | lia | lia | done | done | done | done | | | |].
    { intros j Hj. by apply Hk. }
    { intros i j Hi' Hj' E. by apply (Hinj cur i cur j). }
    { intros j Hj. apply Hrest; lia. }
    exists h2. split; [done|].
    split; [lia|]. split.
    { intros c Hc Hc1 Hc2. rewrite Hold2 by (done || lia). by apply Hold. }
    split; [done|]. split; [done|].
    assert (∀ i j, 0 ≤ i < M → 0 ≤ j < N → i ≠ cur →
      rd h2 real (k i j) = rd h1 real (k i j) ∧
      rd h2 imag (k i j) = rd h1 imag (k i j)) as Hother.
    { intros i j Hi' Hj' Hic. apply Hframe. intros j' Hj'' E.
      destruct (Hinj i j cur j'); (done || lia). }
    split.
    - intros i j Hi' Hj'. destruct (decide (i = cur)) as [->|Hic].
      + by apply Hline.
      + destruct (Hother i j ltac:(lia) Hj' Hic) as [Er Ei].
        unfold holds_at. rewrite Er, Ei. apply Hdone; lia.
    - intros i j Hi' Hj'.
      destruct (Hother i j ltac:(lia) Hj' ltac:(lia)) as [Er Ei].
      unfold holds_at. rewrite Er, Ei. apply Hrest; lia. }
  { split; [done|]. split; [done|]. split; [done|]. split; [done|].
    split; [intros; lia|]. intros i j Hi' Hj'. by apply Hg. }
  exists h'. by split_and!.
Qed.

(** The transform of the rows followed by the transform of the columns is
    the two-dimensional transform. *)
Lemma dft2_separable x W H u v :
  dft (λ r, dft (λ c, x (r * W + c)) W u) H v = dft2 x W H u v.
Proof.
  unfold dft, dft2, Csum. apply Csum_n_ext. intros r _.
  rewrite Csum_n_mul_r. apply Csum_n_ext. intros c _.
  rewrite cis_add. unfold Cmul, cis. destruct (x (r * W + c)) as [a b].
  simpl. f_equal; ring.
Qed.

(** The loop of [fft2D] that copies the field into the real part. *)
Lemma copy_spec (h : list (list num)) data n :
  0 ≤ n → (data < length h)%nat →
  ∃ a b,
    for_range 0 n (λ i h',
        let h' := wr h' (length h) i (rd h' data i) in
        Some (wr h' (S (length h)) i (Num 0)))
      (h ++ [replicate (Z.to_nat n) (Num 0); replicate (Z.to_nat n) (Num 0)])
      = Some (h ++ [a; b]) ∧
    Z.of_nat (length a) = n ∧ Z.of_nat (length b) = n ∧
    ∀ i, 0 ≤ i < n →
      a !! Z.to_nat i = Some (rd h data i) ∧ b !! Z.to_nat i = Some (Num 0).
Proof.
  intros Hn Hd.
  edestruct (for_range_rule
    (λ i h', ∃ a b, h' = h ++ [a; b] ∧
       Z.of_nat (length a) = n ∧ Z.of_nat (length b) = n ∧
       ∀ j, 0 ≤ j < i →
         a !! Z.to_nat j = Some (rd h data j) ∧
         b !! Z.to_nat j = Some (Num 0)) 0 n)
    as (h' & -> & a & b & -> & Ha & Hb & Hab).
  { done. }
  { intros i h1 Hi1 (a & b & -> & Ha & Hb & Hab).
    eexists. split; [done|].
    rewrite rd_app_old by done. rewrite wr_alloc2_fst by lia.
    rewrite wr_alloc2_snd by lia.
    eexists _, _. split; [done|]. rewrite !length_insert.
    split; [done|]. split; [done|].
    intros j Hj. destruct (decide (j = i)) as [->|Hne].
    - rewrite !list_lookup_insert_eq by lia. done.
    - rewrite !list_lookup_insert_ne by lia. apply Hab. lia. }
  { eexists _, _. split; [done|]. rewrite !length_replicate.
    split; [lia|]. split; [lia|]. intros; lia. }
  by exists a, b.
Qed.

End Lines.

Section Transform2D.

(** [fft2D] on a field whose entries are the numbers [x t]. *)
Lemma fft2D_spec (h : heap) (data : loc) (a b : nat) (x : Z → R) :
  (data < length h)%nat →
  Z.of_nat a ≤ 30 → Z.of_nat b ≤ 30 →
  (∀ t, 0 ≤ t < 2 ^ Z.of_nat a * 2 ^ Z.of_nat b →
        rd h data t = Num (x t)) →
  ∃ h',
    FFTAnalyzer.fft2D h data (2 ^ Z.of_nat a) (2 ^ Z.of_nat b) =
      Some (h', (length h, S (length h))) ∧
    (S (length h) < length h')%nat ∧
    (∀ c, (c < length h)%nat → h' !! c = h !! c) ∧
    alen h' (length h) = 2 ^ Z.of_nat a * 2 ^ Z.of_nat b ∧
    alen h' (S (length h)) = 2 ^ Z.of_nat a * 2 ^ Z.of_nat b ∧
    ∀ u v, 0 ≤ u < 2 ^ Z.of_nat a → 0 ≤ v < 2 ^ Z.of_nat b →
      holds_at h' (length h) (S (length h)) (v * 2 ^ Z.of_nat a + u)
        (dft2 (λ t, (x t, 0%R)) (2 ^ Z.of_nat a) (2 ^ Z.of_nat b) u v).
Proof.
  intros Hd Ha Hb Hx.
  set (W := 2 ^ Z.of_nat a) in *. set (H := 2 ^ Z.of_nat b) in *.
  assert (0 < W) as HW by (apply Z.pow_pos_nonneg; lia).
  assert (0 < H) as HH by (apply Z.pow_pos_nonneg; lia).
  set (g := λ t : Z, (x t, 0%R)).
  rewrite fft2D_lines. unfold new_zeros, alloc.
  rewrite length_app. simpl length. rewrite Nat.add_1_r.
  rewrite <- app_assoc. simpl app.
  destruct (copy_spec h data (W * H) ltac:(nia) Hd)
    as (ar & ai & Hcopy & Har & Hai & Hcp).
  cbv zeta in Hcopy. cbv zeta. rewrite Hcopy. simpl.
  remember (h ++ [ar; ai]) as h0 eqn:Eh0.
  assert (arr h0 (length h) = ar) as Ear.
  { rewrite Eh0. rewrite <- (Nat.add_0_r (length h)). by rewrite arr_app_r. }
  assert (arr h0 (S (length h)) = ai) as Eai.
  { rewrite Eh0. replace (S (length h)) with (length h + 1)%nat by lia.
    by rewrite arr_app_r. }
  assert (length h0 = S (S (length h))) as Hlen0.
  { rewrite Eh0. rewrite length_app. simpl. lia. }
  assert (∀ t, 0 ≤ t < W * H →
    holds_at h0 (length h) (S (length h)) t (g t)) as Hfield.
  { intros t Ht. destruct (Hcp t Ht) as [Hrt Hit].
    unfold holds_at, rd. rewrite Ear, Eai, Hrt, Hit.
    replace (t <? 0) with false by lia. simpl. split; [|done].
    by apply Hx. }
  destruct (pass_spec h0 (length h) (S (length h)) (W * H) W a H
              (λ y x, y * W + x) g)
    as (h1 & Hrows & Hlen1 & Hold1 & Har1 & Hai1 & Hrow);
    [lia | lia | lia | done | done | lia
     | unfold alen; by rewrite Ear | unfold alen; by rewrite Eai | | | |].
  { intros y c Hy Hc. nia. }
  { intros y c y' c' Hy Hc Hy' Hc' E.
    assert (y = y') by nia. split; [done|]. subst. lia. }
  { intros y c Hy Hc. apply Hfield. nia. }
  cbv beta in Hrows. rewrite Hrows. simpl.
  set (g2 := λ t : Z, dft (λ c, g (t / W * W + c)) W (t `mod` W)).
  destruct (pass_spec h1 (length h) (S (length h)) (W * H) H b W
              (λ c y, y * W + c) g2)
    as (h2 & Hcols & Hlen2 & Hold2 & Har2 & Hai2 & Hcol);
    [lia | lia | lia | done | done | lia | done | done | | | |].
  { intros c y Hc Hy. nia. }
  { intros c y c' y' Hc Hy Hc' Hy' E.
    assert (y = y') by nia. split; [|done]. subst. lia. }
  { intros c y Hc Hy. unfold g2.
    destruct (div_mod_pair y c W ltac:(lia)) as [-> ->].
    by apply (Hrow y c). }
  cbv beta in Hcols. rewrite Hcols. simpl.
  exists h2. split; [done|]. split; [lia|].
  split.
  { intros c Hc. rewrite Hold2 by lia. rewrite Hold1 by lia.
    rewrite Eh0. by rewrite lookup_app_l. }
  split; [done|]. split; [done|].
  intros u v Hu Hv. rewrite <- dft2_separable.
  pose proof (Hcol u v Hu Hv) as Hres. cbv beta in Hres.
  assert (∀ r, 0 ≤ r < H → g2 (r * W + u) = dft (λ c, g (r * W + c)) W u)
    as Eg2.
  { intros r Hr. unfold g2.
    by destruct (div_mod_pair r u W ltac:(lia)) as [-> ->]. }
  rewrite (dft_ext _ (λ r, dft (λ c, g (r * W + c)) W u)) in Hres
    by (intros r Hr; by apply Eg2).
  done.
Qed.

(** X14. For a width [2^a] and a height [2^b], [a] and [b] at most 30, and
    a field of finite numbers, [FFTAnalyzer.fft2D] returns two new arrays
    of [width * height] entries that hold, at index [v * width + u], the
    real and the imaginary part of the two-dimensional transform of the
    field at the frequency [(u, v)]; the field and every other array that
    existed before the call are left as they were. *)
Theorem fft2D_dft2 (h : heap) (data : loc) (a b : nat) (xs : list R) :
  (data < length h)%nat → arr h data = Num <$> xs →
  Z.of_nat a ≤ 30 → Z.of_nat b ≤ 30 →
  2 ^ Z.of_nat a * 2 ^ Z.of_nat b ≤ Z.of_nat (length xs) →
  ∃ h',
    FFTAnalyzer.fft2D h data (2 ^ Z.of_nat a) (2 ^ Z.of_nat b) =
      Some (h', (length h, S (length h))) ∧
    (∀ c, (c < length h)%nat → h' !! c = h !! c) ∧
    alen h' (length h) = 2 ^ Z.of_nat a * 2 ^ Z.of_nat b ∧
    alen h' (S (length h)) = 2 ^ Z.of_nat a * 2 ^ Z.of_nat b ∧
    ∀ u v, 0 ≤ u < 2 ^ Z.of_nat a → 0 ≤ v < 2 ^ Z.of_nat b →
      holds_at h' (length h) (S (length h)) (v * 2 ^ Z.of_nat a + u)
        (dft2 (λ t, (default 0%R (xs !! Z.to_nat t), 0%R))
              (2 ^ Z.of_nat a) (2 ^ Z.of_nat b) u v).
Proof.
  intros Hd Hxs Ha Hb Hlen.
  destruct (fft2D_spec h data a b (λ t, default 0%R (xs !! Z.to_nat t)))
    as (h' & Hrun & _ & Hold & Har & Hai & Hres); [done..| |].
  { intros t Ht.
    destruct (lookup_lt_is_Some_2 xs (Z.to_nat t) ltac:(lia)) as [x Hx].
    rewrite (rd_Num h data xs t x) by (done || lia). by rewrite Hx. }
  exists h'. split; [done|]. split; [done|]. split; [done|].
  split; [done|]. exact Hres.
Qed.

Lemma fft2D_dft2_witness :
  ∃ h',
    FFTAnalyzer.fft2D [[Num 1; Num 1; Num 1; Num 1]] 0
      (2 ^ Z.of_nat 1) (2 ^ Z.of_nat 1) = Some (h', (1%nat, 2%nat)) ∧
    holds_at h' 1 2 (1 * 2 ^ Z.of_nat 1 + 1)
      (dft2 (λ t, (default 0%R ([1; 1; 1; 1]%R !! Z.to_nat t), 0%R))
            (2 ^ Z.of_nat 1) (2 ^ Z.of_nat 1) 1 1).
Proof.
  destruct (fft2D_dft2 [[Num 1; Num 1; Num 1; Num 1]] 0%nat 1 1
              [1; 1; 1; 1]%R) as (h' & Hrun & _ & _ & _ & Hres);
    [simpl; lia | done | lia | lia | simpl; lia |].
  exists h'. split; [done|]. apply Hres; lia.
Defined.

End Transform2D.

(* ===================================================================== *)
(** * A selection inside the canvas *)
(* ===================================================================== *)

Section CropBounds.
Import CropTool.

(** X15. When both ends of the selection are points of the background
    canvas, as [getEventPosition] gives them for pointer positions inside
    the displayed canvas, the rectangle of [getCropDimensions] is more
    than 5 pixels wide and high and lies inside the canvas, so that every
    pixel a crop reads is a pixel of the bitmap. *)
Theorem getCropDimensions_inside (t : crop_tool) (s e : point) (r : rect) :
  cropStart t = Some s → cropEnd t = Some e →
  0 ≤ px s ≤ cwidth (bgCanvas t) → 0 ≤ py s ≤ cheight (bgCanvas t) →
  0 ≤ px e ≤ cwidth (bgCanvas t) → 0 ≤ py e ≤ cheight (bgCanvas t) →
  getCropDimensions t = Some r →
  5 < width r ∧ 5 < height r ∧
  0 ≤ x r ∧ x r + width r ≤ cwidth (bgCanvas t) ∧
  0 ≤ y r ∧ y r + height r ≤ cheight (bgCanvas t) ∧
  ∀ i j ch, 0 ≤ i < width r → 0 ≤ j < height r →
    channel (bgCanvas t) (x r + i) (y r + j) ch =
      default 0 (bitmap (bgCanvas t) !!
        Z.to_nat (4 * ((y r + j) * cwidth (bgCanvas t) + (x r + i)) + ch)).
Proof.
  intros Hs He Hsx Hsy Hex Hey Hr.
  unfold getCropDimensions, isValidCropArea in Hr. rewrite Hs, He in Hr.
  destruct ((5 <? Z.abs (px e - px s)) && (5 <? Z.abs (py e - py s)))
    eqn:Hv; [|done].
  simpl in Hr. injection Hr as <-. simpl.
  apply andb_true_iff in Hv as [Hvx Hvy].
  split; [lia|]. split; [lia|]. split; [lia|]. split; [lia|].
  split; [lia|]. split; [lia|].
  intros i j ch Hi Hj. unfold channel.
  replace ((0 <=? Z.min (px s) (px e) + i) &&
           (Z.min (px s) (px e) + i <? cwidth (bgCanvas t)) &&
           (0 <=? Z.min (py s) (py e) + j) &&
           (Z.min (py s) (py e) + j <? cheight (bgCanvas t)))
    with true by lia.
  done.
Qed.

Lemma getCropDimensions_inside_witness :
  ∃ r,
    getCropDimensions
      (mkCropTool (mkCanvas 0 0 []) (mkCanvas 20 20 (replicate 1600 7))
         false (Some (mkPoint 14 3)) (Some (mkPoint 2 15))) = Some r ∧
    0 ≤ x r ∧ x r + width r ≤ 20 ∧ 0 ≤ y r ∧ y r + height r ≤ 20.
Proof.
  exists (mkRect 2 3 12 12). split; [done|].
  destruct (getCropDimensions_inside
    (mkCropTool (mkCanvas 0 0 []) (mkCanvas 20 20 (replicate 1600 7))
       false (Some (mkPoint 14 3)) (Some (mkPoint 2 15)))
    (mkPoint 14 3) (mkPoint 2 15) (mkRect 2 3 12 12))
    as (_ & _ & Hx0 & Hx & Hy0 & Hy & _);
    [done | done | simpl; lia | simpl; lia | simpl; lia | simpl; lia
     | done |].
  done.
Defined.

End CropBounds.

(* ===================================================================== *)
(** * computeFFT on an image with power-of-two sides *)
(* ===================================================================== *)

Section Analysis.

(** Reading back a whole canvas gives its bitmap. *)
Lemma getImageData_whole (c : canvas) :
  0 < cwidth c → 0 < cheight c →
  Z.of_nat (length (bitmap c)) = 4 * cwidth c * cheight c →
  getImageData c 0 0 (cwidth c) (cheight c) =
    Some (mkImageData (cwidth c) (cheight c) (bitmap c)).
Proof.
  intros HW HH Hlen. unfold getImageData.
  replace ((cwidth c =? 0) || (cheight c =? 0)) with false by lia.
  rewrite !Z.abs_eq by lia. rewrite !Z.min_l by lia.
  do 2 f_equal. apply list_eq. intros k. rewrite lookup_fmap_seqZ.
  case_decide as Hk.
  - destruct (lookup_lt_is_Some_2 (bitmap c) k ltac:(lia)) as [v Hv].
    rewrite Hv. f_equal. unfold channel.
    destruct (pixel_coords (Z.of_nat k / 4) (cwidth c) (cheight c))
      as [Hx Hy]; [lia | lia |].
    replace ((0 <=? 0 + (Z.of_nat k / 4) `mod` cwidth c) &&
             (0 + (Z.of_nat k / 4) `mod` cwidth c <? cwidth c) &&
             (0 <=? 0 + Z.of_nat k / 4 / cwidth c) &&
             (0 + Z.of_nat k / 4 / cwidth c <? cheight c))
      with true by lia.
    replace (Z.to_nat
      (4 * ((0 + Z.of_nat k / 4 / cwidth c) * cwidth c +
            (0 + (Z.of_nat k / 4) `mod` cwidth c)) + Z.of_nat k `mod` 4))
      with k; [by rewrite Hv|].
    pose proof (Z.div_mod (Z.of_nat k / 4) (cwidth c) ltac:(lia)).
    pose proof (Z.div_mod (Z.of_nat k) 4 ltac:(lia)). lia.
  - symmetry. apply lookup_ge_None. lia.
Qed.

Lemma intensity_0_0 : FFTAnalyzer.intensity (Num 0) (Num 0) = NaN.
Proof.
  unfold FFTAnalyzer.intensity. simpl.
  destruct (Rlt_dec 0 (1 + 0)) as [_|Hn]; [|exfalso; apply Hn; lra].
  simpl. rewrite Rplus_0_r, ln_1.
  by destruct (Req_dec_T 0 0) as [_|Hn].
Qed.

(** What the pixel loop leaves at the destination pixel [(x, y)], from the
    magnitude at the shifted source index. *)
Lemma visualizeFFT_pixel h magnitude width height (M : R) :
  1 ≤ width → 1 ≤ height →
  ∃ d, FFTAnalyzer.visualizeFFT h magnitude width height (Num M) =
         Some (mkImageData width height d) ∧
    ∀ x y m, 0 ≤ x < width → 0 ≤ y < height →
      rd h magnitude (FFTAnalyzer.shifted_index width height x y) = Num m →
      (0 <= m <= M)%R →
      ((0 < M)%R → gray_pixel d width x y (intensity_of m M)) ∧
      (M = 0%R → gray_pixel d width x y 0).
Proof.
  intros HW HH.
  destruct (visualizeFFT_spec h magnitude width height (Num M) HW HH)
    as (d & Hrun & Hlen & Hd).
  exists d. split; [done|].
  intros x y m' Hx Hy Hm Hrange.
  assert (0 ≤ y * width + x < width * height) as Hp by nia.
  assert (∀ v,
    toUint8Clamped (FFTAnalyzer.intensity (Num m') (Num M)) = v →
    gray_pixel d width x y v) as Hgray.
  { intros v Hv.
    assert (∀ c, 0 ≤ c < 3 →
      d !! Z.to_nat (4 * (y * width + x) + c) = Some v) as Hrgb.
    { intros c Hc. rewrite Hd by lia. unfold pixel_byte.
      destruct (div_mod_pair y x width ltac:(lia)) as [-> ->].
      replace (c =? 3) with false by lia. by rewrite Hm, Hv. }
    unfold gray_pixel.
    rewrite <- (Z.add_0_r (4 * (y * width + x))) at 1.
    rewrite !Hrgb by lia. rewrite Hd by lia. done. }
  split.
  - intros HM. apply Hgray.
    rewrite intensity_Num, toUint8Clamped_IZR by lra.
    pose proof (intensity_of_range m' M Hrange HM). lia.
  - intros ->. apply Hgray.
    assert (m' = 0%R) as -> by lra. by rewrite intensity_0_0.
Qed.

(** The steps of [computeFFT] on a canvas with power-of-two sides, put
    together. *)
Lemma computeFFT_steps (h : heap) (bg : canvas) (a b : nat) :
  cwidth bg = 2 ^ Z.of_nat a → cheight bg = 2 ^ Z.of_nat b →
  Z.of_nat a ≤ 30 → Z.of_nat b ≤ 30 →
  Z.of_nat (length (bitmap bg)) = 4 * cwidth bg * cheight bg →
  let W := cwidth bg in
  let H := cheight bg in
  let F := dft2 (λ t, (luminance (bitmap bg) t, 0%R)) W H in
  ∃ h' res M d,
    FFTAnalyzer.computeFFT h bg = Some (h', res) ∧
    (∀ c, (c < length h)%nat → h' !! c = h !! c) ∧
    FFTAnalyzer.maxMag res = Num M ∧
    FFTAnalyzer.fftImageData res = mkImageData W H d ∧
    (∀ u v, 0 ≤ u < W → 0 ≤ v < H →
       holds_at h' (FFTAnalyzer.fft_real res) (FFTAnalyzer.fft_imag res)
         (v * W + u) (F u v) ∧
       rd h' (FFTAnalyzer.magnitude res) (v * W + u) =
         Num (modulus (F u v)) ∧
       (modulus (F u v) <= M)%R) ∧
    (∃ u v, 0 ≤ u < W ∧ 0 ≤ v < H ∧ modulus (F u v) = M) ∧
    (∀ x y m, 0 ≤ x < W → 0 ≤ y < H →
       rd h' (FFTAnalyzer.magnitude res)
          (FFTAnalyzer.shifted_index W H x y) = Num m →
       (0 <= m <= M)%R →
       ((0 < M)%R → gray_pixel d W x y (intensity_of m M)) ∧
       (M = 0%R → gray_pixel d W x y 0)) ∧
    FFTAnalyzer.visualizeFFT h' (FFTAnalyzer.magnitude res) W H (Num M) =
      Some (mkImageData W H d).
Proof.
  destruct bg as [W0 H0 bm]. simpl. intros -> -> Ha Hb Hlen.
  set (W := 2 ^ Z.of_nat a) in *. set (H := 2 ^ Z.of_nat b) in *.
  assert (0 < W) as HW by (apply Z.pow_pos_nonneg; lia).
  assert (0 < H) as HH by (apply Z.pow_pos_nonneg; lia).
  set (F := dft2 (λ t, (luminance bm t, 0%R)) W H).
  unfold FFTAnalyzer.computeFFT.
  rewrite (bind_Some _ _ _ (getImageData_whole (mkCanvas W H bm) HW HH Hlen)).
  cbv beta iota. simpl cwidth. simpl cheight. simpl Canvas.width.
  simpl Canvas.height.
  (* the grayscale field *)
  destruct (to_grayscale_spec h (mkImageData W H bm))
    as (gs & Hgray & Hgl & Hgs); [unfold wf_ImageData; simpl; lia|].
  simpl in Hgl, Hgs.
  rewrite (bind_Some _ _ _ Hgray). cbv beta iota.
  remember (h ++ [gs]) as h1 eqn:Eh1.
  assert (length h1 = S (length h)) as Hl1
    by (rewrite Eh1, length_app; simpl; lia).
  (* the transform *)
  destruct (fft2D_spec h1 (length h) a b (luminance bm))
    as (h2 & Hfft & Hl2 & Hold2 & Har & Hai & Hspec); [lia | done | done | |].
  { intros t Ht. rewrite Eh1, rd_alloc_new.
    replace (t <? 0) with false by lia. by rewrite Hgs. }
  fold W H in Hfft, Har, Hai, Hspec. fold F in Hspec.
  rewrite (bind_Some _ _ _ Hfft). cbv beta iota.
  (* the magnitudes *)
  destruct (magnitude_spectrum_spec h2 (length h1) (S (length h1)) W H
              (λ t, F (t `mod` W) (t / W)))
    as (ms & M & Hmag & Hml & Hms & HM0 & _ & Hatt); [lia | lia | nia | |].
  { intros t Ht. destruct (pixel_coords t W H HW Ht) as [Hu Hv].
    pose proof (Hspec (t `mod` W) (t / W) Hu Hv) as Hbin.
    replace (t / W * W + t `mod` W) with t in Hbin; [done|].
    pose proof (Z.div_mod t W ltac:(lia)). lia. }
  rewrite (bind_Some _ _ _ Hmag). cbv beta iota.
  remember (h2 ++ [ms]) as h3 eqn:Eh3.
  assert (∀ u v, 0 ≤ u < W → 0 ≤ v < H →
    rd h3 (length h2) (v * W + u) = Num (modulus (F u v)) ∧
    (modulus (F u v) <= M)%R) as Hbins.
  { intros u v Hu Hv. assert (0 ≤ v * W + u < W * H) as Ht by nia.
    destruct (Hms _ Ht) as [Hlook Hle].
    destruct (div_mod_pair v u W ltac:(lia)) as [Ediv Emod].
    rewrite Ediv, Emod in Hlook, Hle. split; [|done].
    rewrite Eh3, rd_alloc_new. replace (v * W + u <? 0) with false by lia.
    by rewrite Hlook. }
  (* the picture *)
  destruct (visualizeFFT_pixel h3 (length h2) W H M ltac:(lia) ltac:(lia))
    as (d & Hvis & Hpix).
  rewrite (bind_Some _ _ _ Hvis).
  eexists _, _, M, d. split; [done|]. simpl.
  assert (∀ c, (c < length h2)%nat → h3 !! c = h2 !! c) as Hold3.
  { intros c Hc. rewrite Eh3. by rewrite lookup_app_l. }
  split.
  { intros c Hc. rewrite Hold3 by lia. rewrite Hold2 by lia.
    rewrite Eh1. by rewrite lookup_app_l. }
  split; [done|]. split; [done|]. split.
  { intros u v Hu Hv. destruct (Hbins u v Hu Hv) as [Hrd Hle].
    split; [|done].
    destruct (Hspec u v Hu Hv) as [Hre Him].
    unfold holds_at, rd, arr in *. by rewrite !Hold3 by lia. }
  split.
  { destruct (Hatt ltac:(nia)) as (t & Ht & Et).
    destruct (pixel_coords t W H HW Ht) as [Hu Hv].
    by exists (t `mod` W), (t / W). }
  split; [|exact Hvis].
  intros x y m Hx Hy Hm Hrange. by apply (Hpix x y m Hx Hy).
Qed.


(** X16. On a canvas of width [2^a] and height [2^b], [a] and [b] at most
    30, with a bitmap of [4 * width * height] bytes, the computation of
    [computeFFT] (grayscale values, transform, magnitudes, pixel loop)
    runs to its end. It leaves every array that existed before as it
    was; the spectrum it computes is the two-dimensional transform of the
    grayscale values of the pixels; the magnitude of each bin is the
    modulus of that transform and [maxMag] the largest of them; the image
    is the one the pixel loop makes of these magnitudes and this
    [maxMag], every pixel of it gray with the alpha byte 255, and black
    when [maxMag] is 0. *)
Theorem computeFFT_power_of_two (h : heap) (bg : canvas) (a b : nat) :
  cwidth bg = 2 ^ Z.of_nat a → cheight bg = 2 ^ Z.of_nat b →
  Z.of_nat a ≤ 30 → Z.of_nat b ≤ 30 →
  Z.of_nat (length (bitmap bg)) = 4 * cwidth bg * cheight bg →
  let W := cwidth bg in
  let H := cheight bg in
  let F := dft2 (λ t, (luminance (bitmap bg) t, 0%R)) W H in
  ∃ h' res M d,
    FFTAnalyzer.computeFFT h bg = Some (h', res) ∧
    (∀ c, (c < length h)%nat → h' !! c = h !! c) ∧
    FFTAnalyzer.maxMag res = Num M ∧
    FFTAnalyzer.fftImageData res = mkImageData W H d ∧
    (∀ u v, 0 ≤ u < W → 0 ≤ v < H →
       holds_at h' (FFTAnalyzer.fft_real res) (FFTAnalyzer.fft_imag res)
         (v * W + u) (F u v) ∧
       rd h' (FFTAnalyzer.magnitude res) (v * W + u) =
         Num (modulus (F u v)) ∧
       (modulus (F u v) <= M)%R) ∧
    (∃ u v, 0 ≤ u < W ∧ 0 ≤ v < H ∧ modulus (F u v) = M) ∧
    FFTAnalyzer.visualizeFFT h' (FFTAnalyzer.magnitude res) W H (Num M) =
      Some (mkImageData W H d) ∧
    (∀ x y, 0 ≤ x < W → 0 ≤ y < H →
       ∃ v, 0 ≤ v ≤ 255 ∧ gray_pixel d W x y v ∧ (M = 0%R → v = 0)).
Proof.
  intros HW HH Ha Hb Hlen W H F.
  destruct (computeFFT_steps h bg a b HW HH Ha Hb Hlen)
    as (h' & res & M & d & Hrun & Hold & HM & Hd & Hbins & Hatt & Hpix
        & Hvis).
  fold W H in Hd, Hbins, Hatt, Hpix, Hvis. fold F in Hbins, Hatt.
  assert (0 < W) as HWpos by (unfold W; rewrite HW; apply Z.pow_pos_nonneg; lia).
  assert (0 < H) as HHpos by (unfold H; rewrite HH; apply Z.pow_pos_nonneg; lia).
  exists h', res, M, d. split; [exact Hrun|]. split; [exact Hold|].
  split; [exact HM|]. split; [exact Hd|]. split; [exact Hbins|].
  split; [exact Hatt|]. split; [exact Hvis|].
  intros x y Hx Hy.
  destruct (FFTAnalyzer_shifted_index W H x y ltac:(lia) ltac:(lia) Hx Hy)
    as [Eidx _].
  pose proof (Z.mod_pos_bound (x + W / 2) W HWpos) as Hsx.
  pose proof (Z.mod_pos_bound (y + H / 2) H HHpos) as Hsy.
  destruct (Hbins _ _ Hsx Hsy) as (_ & Hrd & Hle).
  rewrite <- Eidx in Hrd.
  assert (0 <= modulus (F ((x + W / 2) `mod` W) ((y + H / 2) `mod` H)) <= M)%R
    as Hrange by (split; [apply sqrt_pos | exact Hle]).
  destruct (Hpix x y _ Hx Hy Hrd Hrange) as [Hpos Hzero].
  destruct (Rle_lt_or_eq_dec 0 M ltac:(lra)) as [HMpos | HM0].
  - eexists. split; [by apply intensity_of_range|].
    split; [by apply Hpos|]. intros ->. lra.
  - exists 0. split; [lia|]. split; [by apply Hzero|]. done.
Qed.

Lemma computeFFT_power_of_two_witness :
  ∃ h' res M d,
    FFTAnalyzer.computeFFT [] white_2x2 = Some (h', res) ∧
    FFTAnalyzer.maxMag res = Num M ∧
    FFTAnalyzer.fftImageData res = mkImageData 2 2 d.
Proof.
  assert (cwidth white_2x2 = 2 ^ Z.of_nat 1) as E1 by reflexivity.
  assert (cheight white_2x2 = 2 ^ Z.of_nat 1) as E2 by reflexivity.
  assert (Z.of_nat (length (bitmap white_2x2)) =
            4 * cwidth white_2x2 * cheight white_2x2) as E3 by reflexivity.
  pose proof (computeFFT_power_of_two [] white_2x2 1 1 E1 E2
                ltac:(lia) ltac:(lia) E3) as Hcase.
  cbv zeta in Hcase.
  destruct Hcase as (h' & res & M & d & Hrun & _ & HM & Hd & _).
  exists h', res, M, d. split; [exact Hrun|]. split; [exact HM|]. exact Hd.
Defined.

End Analysis.

(* ===================================================================== *)
(** * FFTAnalyzer off the power-of-two grid *)
(* ===================================================================== *)

Section AnalyzerOddSizes.

(** X18. For a length [N] between 2 and 2^30 that is not a power of two,
    [FFTAnalyzer.fft1D] pads with zeros to [P = 2^⌈log2 N⌉], the least
    power of two above [N], and returns two newly allocated arrays that
    hold the first [N] entries of the transform of the padded sequences;
    the arrays it was given and every other array that existed before the
    call are left as they were. *)
Theorem FFTAnalyzer_fft1D_zero_padded h real imag (xr xi : list R) :
  h !! real = Some (Num <$> xr) → h !! imag = Some (Num <$> xi) →
  length xi = length xr →
  2 ≤ Z.of_nat (length xr) ≤ 2 ^ 30 →
  2 ^ Z.log2_up (Z.of_nat (length xr)) ≠ Z.of_nat (length xr) →
  let N := Z.of_nat (length xr) in
  let P := 2 ^ Z.log2_up N in
  let pad := replicate (Z.to_nat P - length xr) 0%R in
  N < P < 2 * N ∧
  ∃ h',
    FFTAnalyzer.fft1D h real imag =
      Some (h', (S (S (length h)), S (S (S (length h))))) ∧
    (∀ c, (c < length h)%nat → h' !! c = h !! c) ∧
    arr h' (S (S (length h))) =
      take (length xr) (dft_real (xr ++ pad) (xi ++ pad)) ∧
    arr h' (S (S (S (length h)))) =
      take (length xr) (dft_imag (xr ++ pad) (xi ++ pad)).
Proof.
  intros Hr Hi Hlen HN Hnp N P pad.
  assert (N < P < 2 * N) as HP.
  { unfold P. destruct (Z.log2_up_spec N ltac:(lia)) as [Hlo Hhi].
    fold N in Hnp. split; [lia|].
    replace (2 ^ Z.log2_up N) with (2 * 2 ^ Z.pred (Z.log2_up N)); [lia|].
    rewrite <- Z.pow_succ_r, Z.succ_pred; [done|].
    pose proof (Z.log2_up_pos N ltac:(lia)). lia. }
  split; [done|].
  assert (real < length h)%nat as Hlr by (by eapply lookup_lt_Some).
  assert (imag < length h)%nat as Hli by (by eapply lookup_lt_Some).
  assert (alen h real = N ∧ alen h imag = N) as [Ear Eai].
  { unfold alen, arr. rewrite Hr, Hi. simpl. rewrite !length_fmap. lia. }
  destruct (FFTAnalyzer_fft1D_pads h real imag)
    as (h2 & _ & (_ & Hoth & _) & Hrun);
    [rewrite Ear; lia | rewrite Ear; done | rewrite Ear, Eai; lia
     | done | done |].
  destruct (FFTAnalyzer_fft1D_padded_dft h real imag xr xi Hr Hi Hlen HN Hnp)
    as (h' & real' & imag' & Hrun' & _ & _ & Hdr & Hdi & _).
  rewrite Hrun in Hrun'. injection Hrun' as <- <- <-.
  eexists. split; [exact Hrun|]. split; [|split; [exact Hdr|exact Hdi]].
  intros c Hc. rewrite lookup_app_l.
  - rewrite Hoth by lia. unfold padded_heap. by rewrite lookup_app_l.
  - destruct (decide (c < length h2)%nat) as [|Hge]; [done|].
    exfalso. assert (h2 !! c = None) as Hnone
      by (apply lookup_ge_None; lia).
    rewrite Hoth in Hnone by lia. unfold padded_heap in Hnone.
    rewrite lookup_app_l in Hnone by done.
    apply lookup_ge_None in Hnone. lia.
Qed.

Lemma FFTAnalyzer_fft1D_zero_padded_witness :
  ∃ h',
    FFTAnalyzer.fft1D three_ones 0 1 = Some (h', (4%nat, 5%nat)) ∧
    ∀ c, (c < 2)%nat → h' !! c = three_ones !! c.
Proof.
  assert (2 ^ Z.log2_up (Z.of_nat (length [1; 1; 1]%R)) ≠
          Z.of_nat (length [1; 1; 1]%R)) as Hnp by (vm_compute; lia).
  pose proof (FFTAnalyzer_fft1D_zero_padded three_ones 0%nat 1%nat
                [1; 1; 1]%R [0; 0; 0]%R eq_refl eq_refl eq_refl
                ltac:(simpl; lia) Hnp) as Hcase.
  cbv zeta in Hcase.
  destruct Hcase as (_ & h' & Hrun & Hold & _).
  exists h'. split; [exact Hrun|exact Hold].
Defined.

(** X19. For every width and height from 1 on, even or odd, and whatever
    the spectrum and [maxMag] are, [FFTAnalyzer.visualizeFFT] makes the
    destination pixel [(x, y)] gray, with one byte in the three colours
    and 255 in the alpha byte, from the spectrum entry at the index
    [((y + height / 2) mod height) * width + (x + width / 2) mod width],
    with integer division, an index inside the spectrum: the pixel is
    the same for every other spectrum that has this entry there. *)
Theorem visualizeFFT_source_index h magnitude width height maxMag :
  1 ≤ width → 1 ≤ height →
  ∃ d, FFTAnalyzer.visualizeFFT h magnitude width height maxMag =
         Some (mkImageData width height d) ∧
       Z.of_nat (length d) = 4 * width * height ∧
       ∀ x y, 0 ≤ x < width → 0 ≤ y < height →
         let i := ((y + height / 2) `mod` height) * width
                  + (x + width / 2) `mod` width in
         0 ≤ i < width * height ∧
         ∃ v, 0 ≤ v ≤ 255 ∧ gray_pixel d width x y v ∧
              ∀ h2 magnitude2 d2,
                FFTAnalyzer.visualizeFFT h2 magnitude2 width height maxMag =
                  Some (mkImageData width height d2) →
                rd h2 magnitude2 i = rd h magnitude i →
                gray_pixel d2 width x y v.
Proof.
  intros HW HH.
  assert (∀ h magnitude d x y,
    (∀ p c, 0 ≤ p < width * height → 0 ≤ c < 4 →
       d !! Z.to_nat (4 * p + c) =
         Some (pixel_byte h magnitude width height maxMag p c)) →
    0 ≤ x < width → 0 ≤ y < height →
    gray_pixel d width x y
      (toUint8Clamped
         (FFTAnalyzer.intensity
            (rd h magnitude (FFTAnalyzer.shifted_index width height x y))
            maxMag))) as Hgray.
  { intros h0 mag0 d0 x y Hd Hx Hy.
    assert (0 ≤ y * width + x < width * height) as Hp by nia.
    assert (∀ c, 0 ≤ c < 3 →
      d0 !! Z.to_nat (4 * (y * width + x) + c) =
        Some (toUint8Clamped
                (FFTAnalyzer.intensity
                   (rd h0 mag0 (FFTAnalyzer.shifted_index width height x y))
                   maxMag))) as Hrgb.
    { intros c Hc. rewrite Hd by lia. unfold pixel_byte.
      destruct (div_mod_pair y x width ltac:(lia)) as [-> ->].
      by replace (c =? 3) with false by lia. }
    unfold gray_pixel.
    rewrite <- (Z.add_0_r (4 * (y * width + x))) at 1.
    rewrite !Hrgb by lia. rewrite Hd by lia. done. }
  destruct (visualizeFFT_spec h magnitude width height maxMag HW HH)
    as (d & Hrun & Hlen & Hd).
  exists d. split; [done|]. split; [done|].
  intros x y Hx Hy.
  destruct (FFTAnalyzer_shifted_index width height x y HW HH Hx Hy)
    as [Eidx Hin].
  cbv zeta. rewrite <- Eidx. split; [done|].
  eexists. split; [apply toUint8Clamped_range|].
  split; [by apply Hgray|].
  intros h2 magnitude2 d2 Hrun2 Hsame.
  destruct (visualizeFFT_spec h2 magnitude2 width height maxMag HW HH)
    as (d2' & Hrun2' & _ & Hd2).
  rewrite Hrun2 in Hrun2'. injection Hrun2' as <-.
  rewrite <- Hsame. by apply Hgray.
Qed.

Lemma visualizeFFT_source_index_witness :
  ∃ d, FFTAnalyzer.visualizeFFT
         [[Num 0; Num 1; Num 2; Num 3; Num 4; Num 5; Num 6; Num 7; Num 8]]
         0 3 3 (Num 8) = Some (mkImageData 3 3 d) ∧
       0 ≤ ((0 + 3 / 2) `mod` 3) * 3 + (0 + 3 / 2) `mod` 3 < 3 * 3.
Proof.
  destruct (visualizeFFT_source_index
    [[Num 0; Num 1; Num 2; Num 3; Num 4; Num 5; Num 6; Num 7; Num 8]]
    0%nat 3 3 (Num 8) ltac:(lia) ltac:(lia)) as (d & Hrun & _ & Hpix).
  exists d. split; [exact Hrun|].
  pose proof (Hpix 0 0 ltac:(lia) ltac:(lia)) as Hcase.
  cbv zeta in Hcase. destruct Hcase as [Hin _]. exact Hin.
Defined.

End AnalyzerOddSizes.

(* ===================================================================== *)
(** * The colour sliders of the editor *)
(* ===================================================================== *)

Section Sliders.

(** Painting at the origin hides an earlier painting of the same extent. *)
Lemma putImageData_twice c img1 img2 :
  width img1 = width img2 → height img1 = height img2 →
  putImageData (putImageData c img1 0 0) img2 0 0 = putImageData c img2 0 0.
Proof.
  intros Hw Hh. unfold putImageData at 1 3. simpl. f_equal.
  apply list_fmap_ext. intros k i Hi.
  apply lookup_seqZ in Hi as [-> Hk]. rewrite Z.add_0_l.
  destruct ((0 <=? (Z.of_nat k / 4) `mod` cwidth c) &&
            ((Z.of_nat k / 4) `mod` cwidth c <? 0 + width img2) &&
            (0 <=? Z.of_nat k / 4 / cwidth c) &&
            (Z.of_nat k / 4 / cwidth c <? 0 + height img2)) eqn:E; [done|].
  rewrite Nat2Z.id. unfold putImageData.
  cbn [bitmap]. rewrite lookup_fmap_seqZ, decide_True by lia.
  cbv zeta. rewrite Hw, Hh, E. by rewrite Nat2Z.id.
Qed.

(** The editor's loop is that of the ColorAdjustments module. *)
Lemma PhotoEditor_scale_channels_spec r g b d :
  ∃ d', PhotoEditor.scale_channels r g b d = Some d' ∧ length d' = length d.
Proof.
  destruct (scale_channels_spec (ColorAdjustments.mkAdjustments r g b) d)
    as (d' & Hrun & Hlen & _).
  exists d'. split; [exact Hrun | exact Hlen].
Qed.

(** What one repaint does, from the original image alone. *)
Lemma applyColorAdjustments_spec e orig :
  PhotoEditor.originalImageData e = Some orig → wf_ImageData orig →
  0 < cwidth (PhotoEditor.bgCanvas e) →
  0 < cheight (PhotoEditor.bgCanvas e) →
  ∃ d current,
    PhotoEditor.scale_channels
      (PhotoEditor.red (PhotoEditor.colorAdjustments e))
      (PhotoEditor.green (PhotoEditor.colorAdjustments e))
      (PhotoEditor.blue (PhotoEditor.colorAdjustments e))
      (data orig) = Some d ∧
    getImageData
      (putImageData (PhotoEditor.bgCanvas e)
         (mkImageData (width orig) (height orig) d) 0 0)
      0 0 (cwidth (PhotoEditor.bgCanvas e))
      (cheight (PhotoEditor.bgCanvas e)) = Some current ∧
    PhotoEditor.applyColorAdjustments e =
      Some (PhotoEditor.mkEditor (Some orig) (Some current)
              (PhotoEditor.colorAdjustments e)
              (putImageData (PhotoEditor.bgCanvas e)
                 (mkImageData (width orig) (height orig) d) 0 0)).
Proof.
  intros Ho (Hw & Hh & Hlen) Hcw Hch.
  destruct (PhotoEditor_scale_channels_spec
              (PhotoEditor.red (PhotoEditor.colorAdjustments e))
              (PhotoEditor.green (PhotoEditor.colorAdjustments e))
              (PhotoEditor.blue (PhotoEditor.colorAdjustments e))
              (data orig)) as (d & Hd & _).
  assert (∃ current, getImageData
      (putImageData (PhotoEditor.bgCanvas e)
         (mkImageData (width orig) (height orig) d) 0 0)
      0 0 (cwidth (PhotoEditor.bgCanvas e))
      (cheight (PhotoEditor.bgCanvas e)) = Some current)
    as [current Hcur].
  { unfold getImageData.
    replace ((cwidth (PhotoEditor.bgCanvas e) =? 0) ||
             (cheight (PhotoEditor.bgCanvas e) =? 0)) with false by lia.
    by eexists. }
  exists d, current. split; [exact Hd|]. split; [exact Hcur|].
  unfold PhotoEditor.applyColorAdjustments. rewrite Ho.
  unfold new_ImageData.
  replace ((0 <? width orig) && (0 <? height orig) &&
           (Z.of_nat (length (data orig)) =? 4 * width orig * height orig))
    with true by lia.
  cbn [mbind option_bind width height data].
  rewrite (bind_Some _ _ _ Hd). cbv beta iota zeta.
  change (cwidth (putImageData (PhotoEditor.bgCanvas e)
            (mkImageData (width orig) (height orig) d) 0 0))
    with (cwidth (PhotoEditor.bgCanvas e)).
  change (cheight (putImageData (PhotoEditor.bgCanvas e)
            (mkImageData (width orig) (height orig) d) 0 0))
    with (cheight (PhotoEditor.bgCanvas e)).
  by rewrite (bind_Some _ _ _ Hcur).
Qed.

Lemma handleColorAdjustment_alike orig e e0 color numValue :
  wf_ImageData orig → 0 < cwidth (PhotoEditor.bgCanvas e0) →
  0 < cheight (PhotoEditor.bgCanvas e0) → repaint_alike orig e e0 →
  ∃ e', PhotoEditor.handleColorAdjustment e color numValue = Some e' ∧
        PhotoEditor.handleColorAdjustment
          (with_settings e0 (PhotoEditor.colorAdjustments e))
          color numValue = Some e' ∧
        PhotoEditor.colorAdjustments e' =
          PhotoEditor.set_color (PhotoEditor.colorAdjustments e)
            color numValue ∧
        repaint_alike orig e' e0.
Proof.
  intros Hwf Hcw Hch (Ho & Ho0 & Ew & Eh & Eput).
  unfold PhotoEditor.handleColorAdjustment, with_settings.
  cbn [PhotoEditor.originalImageData PhotoEditor.currentImageData
       PhotoEditor.colorAdjustments PhotoEditor.bgCanvas].
  set (ca := PhotoEditor.set_color (PhotoEditor.colorAdjustments e)
               color numValue).
  destruct (applyColorAdjustments_spec
    (PhotoEditor.mkEditor (PhotoEditor.originalImageData e)
       (PhotoEditor.currentImageData e) ca (PhotoEditor.bgCanvas e)) orig)
    as (d & cur & Hd & Hcur & Hrun); [done|done|simpl; lia|simpl; lia|].
  destruct (applyColorAdjustments_spec
    (PhotoEditor.mkEditor (PhotoEditor.originalImageData e0)
       (PhotoEditor.currentImageData e0) ca (PhotoEditor.bgCanvas e0)) orig)
    as (d0 & cur0 & Hd0 & Hcur0 & Hrun0); [done|done|simpl; lia|simpl; lia|].
  cbn [PhotoEditor.originalImageData PhotoEditor.currentImageData
       PhotoEditor.colorAdjustments PhotoEditor.bgCanvas] in *.
  rewrite Hd in Hd0. injection Hd0 as <-.
  rewrite <- Eput, <- Ew, <- Eh, Hcur in Hcur0. injection Hcur0 as <-.
  rewrite <- Eput in Hrun0.
  eexists. split; [exact Hrun|]. split; [exact Hrun0|]. split; [done|].
  split; [done|]. split; [done|].
  cbn [PhotoEditor.bgCanvas]. split; [by rewrite <- Ew|].
  split; [by rewrite <- Eh|].
  intros d'. rewrite putImageData_twice by done. apply Eput.
Qed.

Lemma handle_all_alike orig l :
  wf_ImageData orig →
  ∀ e e0 color numValue,
    0 < cwidth (PhotoEditor.bgCanvas e0) →
    0 < cheight (PhotoEditor.bgCanvas e0) → repaint_alike orig e e0 →
    ∃ e', handle_all e (l ++ [(color, numValue)]) = Some e' ∧
          PhotoEditor.handleColorAdjustment
            (with_settings e0
               (settings_after (PhotoEditor.colorAdjustments e) l))
            color numValue = Some e' ∧
          PhotoEditor.originalImageData e' = Some orig ∧
          PhotoEditor.colorAdjustments e' =
            settings_after (PhotoEditor.colorAdjustments e)
              (l ++ [(color, numValue)]).
Proof.
  intros Hwf. induction l as [|[c v] l IH];
    intros e e0 color numValue Hcw Hch Hal.
  - destruct (handleColorAdjustment_alike orig e e0 color numValue)
      as (e' & Hrun & Hrun0 & Hca & Ho' & _); [done..|].
    exists e'. cbn [app handle_all]. rewrite (bind_Some _ _ _ Hrun).
    split; [done|]. split; [exact Hrun0|]. split; [exact Ho' | exact Hca].
  - destruct (handleColorAdjustment_alike orig e e0 c v)
      as (e1 & Hrun & _ & Hca & Hal1); [done..|].
    destruct (IH e1 e0 color numValue Hcw Hch Hal1)
      as (e' & Hall & Hone & Ho' & Hca').
    exists e'. cbn [app handle_all]. rewrite (bind_Some _ _ _ Hrun).
    split; [exact Hall|]. unfold settings_after in *. cbn [foldl fst snd].
    rewrite <- Hca. split; [exact Hone|]. split; [exact Ho' | exact Hca'].
Qed.

(** X20. [PhotoEditor.handleColorAdjustment]: the sliders do not
    accumulate. With an original image kept in the state and a background
    canvas that is not empty, any sequence of slider events runs without
    an exception, and leaves the editor (background canvas, current image
    data, settings, original image) exactly as the last event alone would
    leave the first editor when it is given the settings that the earlier
    events set: every repaint starts from the original image, never from
    the result of the one before. *)
Theorem handleColorAdjustment_not_cumulative e orig l color numValue :
  PhotoEditor.originalImageData e = Some orig → wf_ImageData orig →
  0 < cwidth (PhotoEditor.bgCanvas e) →
  0 < cheight (PhotoEditor.bgCanvas e) →
  ∃ e', handle_all e (l ++ [(color, numValue)]) = Some e' ∧
        PhotoEditor.handleColorAdjustment
          (with_settings e
             (settings_after (PhotoEditor.colorAdjustments e) l))
          color numValue = Some e' ∧
        PhotoEditor.originalImageData e' = Some orig ∧
        PhotoEditor.colorAdjustments e' =
          settings_after (PhotoEditor.colorAdjustments e)
            (l ++ [(color, numValue)]).
Proof.
  intros Ho Hwf Hcw Hch.
  apply (handle_all_alike orig l Hwf e e color numValue Hcw Hch).
  by split_and!.
Qed.

Lemma handleColorAdjustment_not_cumulative_witness :
  ∃ e', handle_all editor_example ([("red", Num 50)] ++ [("green", Num 200)])
          = Some e' ∧
        PhotoEditor.handleColorAdjustment
          (with_settings editor_example
             (settings_after (PhotoEditor.colorAdjustments editor_example)
                [("red", Num 50)]))
          "green" (Num 200) = Some e' ∧
        PhotoEditor.originalImageData e' =
          Some (mkImageData 1 1 [10; 20; 30; 255]) ∧
        PhotoEditor.colorAdjustments e' =
          settings_after (PhotoEditor.colorAdjustments editor_example)
            ([("red", Num 50)] ++ [("green", Num 200)]).
Proof.
  apply (handleColorAdjustment_not_cumulative editor_example
           (mkImageData 1 1 [10; 20; 30; 255]) [("red", Num 50)]
           "green" (Num 200)).
  - reflexivity.
  - unfold wf_ImageData. simpl. lia.
  - simpl. lia.
  - simpl. lia.
Defined.

End Sliders.
